(** * Cell lists: fixed-radius nearest neighbours search

    A shallow embedding of [cell_lists/core.py] and the properties of its
    four operations: [add_to_cells], [neighboring_cells],
    [iter_nearest_neighbors] and [partition_cells].

    Conventions of the embedding.
    - [f8] values are IEEE 754 binary64 numbers ([spec_float] with 53 bits of
      precision), divided with the correctly rounded [SFdiv].
    - [i8] values are integers of [Z]; every arithmetic operation of the
      compiled code is followed by [wrap64], its two's complement
      wrap-around.
    - One-dimensional arrays are lists, indexed by [getitem] and [setitem]:
      a negative index counts from the end, and an index outside the array
      ends the computation with [OutOfBounds], which records the access and
      not what the compiled code, which does not check it, does next.
    - A function that can fail returns a [result]. *)

From Stdlib Require Import ZArith Lia SpecFloat.
From stdpp Require Import base tactics option numbers list.

Local Open Scope Z_scope.

(** ** Results and exceptions *)

(** [OutOfBounds] stands for an access outside an array.  Under checked
    indexing (the interpreter, or numba with [boundscheck]) it is an
    [IndexError].  The functions are compiled without bounds checks: there
    the access is not noticed, it reads or writes the memory next to the
    array and the run goes on.  The embedding ends the run at the first such
    access.  So a result [Ok] is a run without any access outside an array,
    and is the result of the compiled code as well; [Raise OutOfBounds] says
    that the code makes such an access, and nothing about what the compiled
    code does after it. *)
Inductive exn : Set :=
  | AssertionError
  | OutOfBounds
  | ValueError
  | TypeError.

Inductive result (A : Type) : Type :=
  | Ok (a : A)
  | Raise (e : exn).
Arguments Ok {A} a.
Arguments Raise {A} e.

#[global] Instance result_ret : MRet result := fun A a => Ok a.
#[global] Instance result_bind : MBind result := fun A B k m =>
  match m with
  | Ok a => k a
  | Raise e => Raise e
  end.

(** A [for] loop whose body can fail, threading the loop state. *)
Fixpoint foldM {A St} (body : St → A → result St) (xs : list A) (s : St)
    : result St :=
  match xs with
  | [] => Ok s
  | x :: xs' => s' ← body s x; foldM body xs' s'
  end.

(** A [for] loop of a generator: the items yielded by the successive
    iterations, in order. *)
Fixpoint yieldM {A B} (body : A → result (list B)) (xs : list A) : result (list B) :=
  match xs with
  | [] => Ok []
  | x :: xs' => ys ← body x; zs ← yieldM body xs'; Ok (ys ++ zs)
  end.

(** ** Machine integers *)

Definition int64_min : Z := - 2 ^ 63.
Definition int64_max : Z := 2 ^ 63 - 1.

Definition wrap64 (z : Z) : Z := (z + 2 ^ 63) mod 2 ^ 64 - 2 ^ 63.

(** ** Floating point numbers *)

Abbreviation float := spec_float.

Definition prec : Z := 53.
Definition emax : Z := 1024.

Definition fdiv (x y : float) : float := SFdiv prec emax x y.

(** The binary64 number nearest to [m * 2 ^ e]. *)
Definition float_of (m e : Z) : float := binary_normalize prec emax m e false.

(** The conversion of an [i8] to an [f8]. *)
Definition float_of_int (z : Z) : float := float_of z 0.

(** [x > 0] on floats; false for a NaN. *)
Definition float_pos (x : float) : bool := SFltb (S754_zero false) x.

(** The integer part of a float, rounded toward zero: for a positive
    mantissa [Z.shiftl m e] is [m * 2 ^ e] when [0 <= e] and the quotient
    rounded down otherwise. *)
Definition float_trunc (x : float) : option Z :=
  match x with
  | S754_zero _ => Some 0
  | S754_finite s m e =>
      let v := Z.shiftl (Z.pos m) e in
      Some (if s then - v else v)
  | S754_infinity _ | S754_nan => None
  end.

(** [np.int64(x)] and [x.astype(np.int64)]: the conversion of a float to
    [i8] truncates toward zero.  For a NaN, an infinity or a value outside
    the range of [i8] the conversion instruction of x86-64 yields the
    smallest [i8]. *)
Definition np_int64 (x : float) : Z :=
  match float_trunc x with
  | Some z => if (int64_min <=? z) && (z <=? int64_max) then z else int64_min
  | None => int64_min
  end.

(** [np.ceil]. *)
Definition np_ceil (x : float) : float :=
  match x with
  | S754_finite s m e =>
      if 0 <=? e then x
      else
        let q := Z.shiftl (Z.pos m) e in
        let exact := Z.eqb (Z.shiftl q (- e)) (Z.pos m) in
        if s then binary_normalize prec emax (- q) 0 true
        else float_of_int (if exact then q else q + 1)
  | _ => x
  end.

(** ** Arrays *)

(** An index as numba resolves it: a negative index counts from the end. *)
Definition resolve_index {A} (a : list A) (i : Z) : result nat :=
  let n := Z.of_nat (length a) in
  let k := if i <? 0 then i + n else i in
  if (0 <=? k) && (k <? n) then Ok (Z.to_nat k) else Raise OutOfBounds.

(** [a[i]] *)
Definition getitem {A} (a : list A) (i : Z) : result A :=
  k ← resolve_index a i;
  match a !! k with
  | Some x => Ok x
  | None => Raise OutOfBounds
  end.

(** [a[i] = x] *)
Definition setitem {A} (a : list A) (i : Z) (x : A) : result (list A) :=
  k ← resolve_index a i; Ok (<[k := x]> a).

(** A bound of a slice as Python resolves it: a negative bound counts
    from the end, and the result is clipped to the array. *)
Definition resolve_bound {A} (a : list A) (i : Z) : nat :=
  let n := Z.of_nat (length a) in
  let k := if i <? 0 then i + n else i in
  Z.to_nat (Z.max 0 (Z.min k n)).

(** [a[start:stop]] *)
Definition slice {A} (a : list A) (start stop : Z) : list A :=
  let s := resolve_bound a start in
  let e := resolve_bound a stop in
  take (e - s)%nat (drop s a).

(** [a[start:]] *)
Definition slice_from {A} (a : list A) (start : Z) : list A :=
  drop (resolve_bound a start) a.

(** [a[:stop]] *)
Definition slice_to {A} (a : list A) (stop : Z) : list A :=
  take (resolve_bound a stop) a.

(** [enumerate(a)] *)
Definition enumerate {A} (a : list A) : list (Z * A) :=
  zip (Z.of_nat <$> seq 0 (length a)) a.

(** [range(lo, hi)] *)
Definition range (lo hi : Z) : list Z := seqZ lo (hi - lo).

(** [np.prod] of an [i8] array. *)
Definition np_prod (a : list Z) : Z :=
  fold_left (fun p x => wrap64 (p * x)) a 1.

(** [np.cumsum] of an [i8] array. *)
Fixpoint cumsum_from (acc : Z) (a : list Z) : list Z :=
  match a with
  | [] => []
  | x :: a' => let acc' := wrap64 (acc + x) in acc' :: cumsum_from acc' a'
  end.
Definition np_cumsum (a : list Z) : list Z := cumsum_from 0 a.

(** [np.zeros(n, dtype=np.int64)] *)
Definition np_zeros (n : Z) : result (list Z) :=
  if n <? 0 then Raise ValueError else Ok (replicate (Z.to_nat n) 0).

(** [np.empty(n, dtype=np.int64)]: the array is not initialised; [uninit]
    gives the content found in the memory. *)
Definition np_empty (uninit : nat → Z) (n : Z) : result (list Z) :=
  if n <? 0 then Raise ValueError else Ok (uninit <$> seq 0 (Z.to_nat n)).

(** ** Two-dimensional arrays of floats

    An [f8[:, :]] array is the list of its rows; all rows have the length
    given by the second component of its shape. *)

Abbreviation points_t := (list (list float)).

(** [points[i, j]] *)
Definition getitem2 (points : points_t) (i j : Z) : result float :=
  row ← getitem points i; getitem row j.

(** The second component of [points.shape]. *)
Definition dimensions_of (points : points_t) : Z :=
  match points with
  | [] => 0
  | row :: _ => Z.of_nat (length row)
  end.

(** ** [add_to_cells] *)

(** [np.int64(p / cell_size)] *)
Definition cell_coordinate (cell_size p : float) : Z :=
  np_int64 (fdiv p cell_size).

(** The body of the loop that computes the ranges of the indices. *)
Definition update_range (points : points_t) (cell_size : float) (i : Z)
    (ranges : list Z * list Z) (j : Z) : result (list Z * list Z) :=
  let '(x_min, x_max) := ranges in
  p ← getitem2 points i j;
  let x := cell_coordinate cell_size p in
  lo ← getitem x_min j;
  x_min ← (if x <? lo then setitem x_min j x else Ok x_min);
  hi ← getitem x_max j;
  x_max ← (if x >? hi then setitem x_max j x else Ok x_max);
  Ok (x_min, x_max).

(** The ranges [(x_min, x_max)] of the indices. *)
Definition index_ranges (points : points_t) (cell_size : float)
    (size dimensions : Z) : result (list Z * list Z) :=
  row0 ← getitem points 0;
  let x_min := cell_coordinate cell_size <$> row0 in
  let x_max := cell_coordinate cell_size <$> row0 in
  foldM (fun ranges i =>
           foldM (update_range points cell_size i) (range 0 dimensions) ranges)
        (range 1 size) (x_min, x_max).

(** [(x_max - x_min) + 1 + 2] *)
Definition shape_of (x_min x_max : list Z) : list Z :=
  zip_with (fun hi lo => wrap64 (wrap64 (wrap64 (hi - lo) + 1) + 2)) x_max x_min.

(** [np.int64(points[i, j] / cell_size) - x_min[j] + 1] *)
Definition normalized (points : points_t) (cell_size : float) (x_min : list Z)
    (i j : Z) : result Z :=
  p ← getitem2 points i j;
  lo ← getitem x_min j;
  Ok (wrap64 (wrap64 (cell_coordinate cell_size p - lo) + 1)).

(** The cell of point [i]. *)
Definition cell_of_point (points : points_t) (cell_size : float)
    (x_min grid_shape : list Z) (dimensions : Z) (i : Z) : result Z :=
  l ← normalized points cell_size x_min i 0;
  foldM (fun l j =>
           n ← getitem grid_shape j;
           let l := wrap64 (l * n) in
           c ← normalized points cell_size x_min i j;
           Ok (wrap64 (l + c)))
        (range 1 dimensions) l.

(** Count the number of points that go into each cell. *)
Definition count_cells (cells : list Z) (grid_size : Z) : result (list Z) :=
  cells_count ← np_zeros grid_size;
  foldM (fun cells_count l =>
           c ← getitem cells_count l;
           setitem cells_count l (wrap64 (c + 1)))
        cells cells_count.

(** The body of the loop that places the points. *)
Definition place_point (state : list Z * list Z) (il : Z * Z)
    : result (list Z * list Z) :=
  let '(points_indices, cells_offset) := state in
  let '(i, l) := il in
  offset ← getitem cells_offset l;
  points_indices ← setitem points_indices (wrap64 (offset - 1)) i;
  c ← getitem cells_offset l;
  cells_offset ← setitem cells_offset l (wrap64 (c - 1));
  Ok (points_indices, cells_offset).

(** The first half of [add_to_cells]: the ranges of the indices, the shape
    of the grid and the cell of every point. *)
Definition locate_points (points : points_t) (cell_size : float)
    : result (list Z * list Z * list Z) :=
  let size := Z.of_nat (length points) in
  let dimensions := dimensions_of points in
  '(x_min, x_max) ← index_ranges points cell_size size dimensions;
  let grid_shape := shape_of x_min x_max in
  cells ← mapM (cell_of_point points cell_size x_min grid_shape dimensions)
              (range 0 size);
  Ok (x_min, grid_shape, cells).

Definition add_to_cells (uninit : nat → Z) (points : points_t) (cell_size : float)
    : result (list Z * list Z * list Z * list Z) :=
  (* assert cell_size > 0 and points.ndim == 2 *)
  if negb (float_pos cell_size) then Raise AssertionError else
  let size := Z.of_nat (length points) in
  '(x_min, grid_shape, cells) ← locate_points points cell_size;
  let grid_size := np_prod grid_shape in
  cells_count ← count_cells cells grid_size;
  points_indices ← np_empty uninit size;
  let cells_offset := np_cumsum cells_count in
  '(points_indices, cells_offset) ←
     foldM place_point (enumerate cells) (points_indices, cells_offset);
  Ok (points_indices, cells_count, cells_offset, grid_shape).

(** ** [neighboring_cells] *)

(** [itertools.product] of [n] copies of [base]: the tuples of length [n]
    over [base], the last component varying fastest. *)
Fixpoint product (n : nat) (base : list Z) : list (list Z) :=
  match n with
  | O => [[]]
  | S n' => x ← base; cons x <$> product n' base
  end.

(** The flat offset of one tuple of [prod]. *)
Definition flat_offset (grid_shape : list Z) (row : list Z) : result Z :=
  l ← getitem row 0;
  Ok (fold_left (fun l '(i, n) => wrap64 (wrap64 (l * n) + i))
                (zip (slice_from row 1) (slice_from grid_shape 1)) l).

Definition _neighboring_cells (prod : list (list Z)) (grid_shape : list Z)
    : result (list Z) :=
  mapM (flat_offset grid_shape) prod.

Definition neighboring_cells (grid_shape : list Z) (distance : Z)
    : result (list Z) :=
  (* assert isinstance(distance, int) and distance >= 1 *)
  if negb (1 <=? distance) then Raise AssertionError else
  let base := range (- distance) (distance + 1) in
  let prod := product (length grid_shape) base in
  let prod_ := slice_from prod (Z.of_nat (length prod) / 2 + 1) in
  (* an empty list makes a one-dimensional array of floats, which the
     signature [(i8[:, :], i8[:])] refuses *)
  if bool_decide (prod_ = []) then Raise TypeError else
  _neighboring_cells prod_ grid_shape.

(** ** [find_points_in_cell] and [iter_nearest_neighbors] *)

Definition find_points_in_cell (cell_index : Z)
    (points_indices cells_count cells_offset : list Z) : result (list Z) :=
  start ← getitem cells_offset cell_index;
  c ← getitem cells_count cell_index;
  let end_ := wrap64 (start + c) in
  Ok (slice points_indices start end_).

(** The pairs of the points of one cell:
    [for k, i in enumerate(points_cur[:-1]): for j in points_cur[k + 1:]: yield i, j] *)
Definition inside_pairs (points_cur : list Z) : list (Z * Z) :=
  '(k, i) ← enumerate (slice_to points_cur (-1));
  j ← slice_from points_cur (wrap64 (k + 1));
  [(i, j)].

(** The pairs of the points of two cells:
    [for i in points_cur: for j in points_neigh: yield i, j] *)
Definition cross_pairs (points_cur points_neigh : list Z) : list (Z * Z) :=
  i ← points_cur; j ← points_neigh; [(i, j)].

(** The pairs yielded for the cell [cur_cell]. *)
Definition pairs_of_cell (neigh_cells points_indices cells_count cells_offset : list Z)
    (cur_cell : Z) : result (list (Z * Z)) :=
  c ← getitem cells_count cur_cell;
  if c =? 0 then Ok [] (* continue *) else
  points_cur ← find_points_in_cell cur_cell points_indices cells_count cells_offset;
  across ← yieldM (fun neigh_cell =>
      points_neigh ← find_points_in_cell (wrap64 (cur_cell + neigh_cell))
                       points_indices cells_count cells_offset;
      Ok (cross_pairs points_cur points_neigh))
    neigh_cells;
  Ok (inside_pairs points_cur ++ across).

(** The sequence of the pairs that the generator yields. *)
Definition iter_nearest_neighbors
    (cell_indices neigh_cells points_indices cells_count cells_offset : list Z)
    : result (list (Z * Z)) :=
  yieldM (pairs_of_cell neigh_cells points_indices cells_count cells_offset)
         cell_indices.

(** [np.arange(n)] *)
Definition np_arange (n : Z) : list Z := range 0 n.

(** ** [partition_cells] *)

(** The body of the loop that accumulates the number of interactions. *)
Definition add_interactions (cells_count neigh_cells : list Z)
    (state : Z * list Z) (ic : Z * Z) : result (Z * list Z) :=
  let '(interactions_total, interactions_cumsum) := state in
  let '(i, count) := ic in
  if count =? 0 then Ok state (* continue *) else
  let interactions_total :=
    wrap64 (interactions_total + wrap64 (wrap64 (count - 1) ^ 2)) in
  interactions_total ←
    foldM (fun total j =>
             c ← getitem cells_count (wrap64 (i + j));
             Ok (wrap64 (total + wrap64 (count * c))))
          neigh_cells interactions_total;
  interactions_cumsum ← setitem interactions_cumsum i interactions_total;
  Ok (interactions_total, interactions_cumsum).

(** The [while] loop that records the splits; [None] when [fuel]
    iterations do not end it. *)
Fixpoint split_loop (fuel : nat) (n size : Z) (interactions_cumsum : list Z)
    (part_index i : Z) (splits : list Z) : option (result (list Z)) :=
  match fuel with
  | O => None
  | S fuel' =>
      if part_index <? n then
        match getitem interactions_cumsum i with
        | Raise e => Some (Raise e)
        | Ok c =>
            if wrap64 (part_index * size) <=? c then
              match setitem splits part_index i with
              | Raise e => Some (Raise e)
              | Ok splits =>
                  split_loop fuel' n size interactions_cumsum
                    (wrap64 (part_index + 1)) (wrap64 (i + 1)) splits
              end
            else
              split_loop fuel' n size interactions_cumsum
                part_index (wrap64 (i + 1)) splits
        end
      else Some (Ok splits)
  end.

(** [uninit 0] and [uninit 1] give the content found in the memory of the
    two arrays that the function allocates without initialising them. *)
Definition partition_cells (fuel : nat) (uninit : nat → nat → Z)
    (n : Z) (cells_count neigh_cells : list Z) : option (result (list Z)) :=
  (* assert n > 0 *)
  if negb (0 <? n) then Some (Raise AssertionError) else
  let interactions_total := 0 in
  (* np.empty_like(cells_count) *)
  let interactions_cumsum := uninit 0%nat <$> seq 0 (length cells_count) in
  match foldM (add_interactions cells_count neigh_cells) (enumerate cells_count)
              (interactions_total, interactions_cumsum) with
  | Raise e => Some (Raise e)
  | Ok (interactions_total, interactions_cumsum) =>
      let size :=
        np_int64 (np_ceil (fdiv (float_of_int interactions_total)
                                (float_of_int n))) in
      match (splits ← np_empty (uninit 1%nat) (wrap64 (n + 1));
             splits ← setitem splits 0 0;
             setitem splits (-1) (Z.of_nat (length cells_count))) with
      | Raise e => Some (Raise e)
      | Ok splits =>
          let part_index := 1 in
          let i := 0 in
          split_loop fuel n size interactions_cumsum part_index i splits
      end
  end.

(** ** The notions the properties are stated with *)

(** The cell coordinates of a point, as the code computes them. *)
Definition coordinates (cell_size : float) (row : list float) : list Z :=
  cell_coordinate cell_size <$> row.

(** The least and the greatest coordinate of every dimension. *)
Definition lowest (X : list (list Z)) : list Z :=
  match X with
  | [] => []
  | r :: X' => foldl (zip_with Z.min) r X'
  end.
Definition highest (X : list (list Z)) : list Z :=
  match X with
  | [] => []
  | r :: X' => foldl (zip_with Z.max) r X'
  end.

(** The number of cells of every dimension, two ghost cells included,
    computed without wrap-around. *)
Definition extent (X : list (list Z)) : list Z :=
  zip_with (fun hi lo => hi - lo + 3) (highest X) (lowest X).

Definition product_Z (a : list Z) : Z := foldr Z.mul 1 a.
Definition sum_Z (a : list Z) : Z := foldr Z.add 0 a.

(** The arithmetic on [i8] does not wrap around: the number of points and
    the number of cells of the grid are below [2 ^ 63]. *)
Definition fits_int64 (points : points_t) (cell_size : float) : Prop :=
  Z.of_nat (length points) ≤ int64_max ∧
  product_Z (extent (coordinates cell_size <$> points)) ≤ int64_max.

(** The mixed-radix number with the leading digit [l] and the further
    digits and radices [dns]. *)
Definition mix (l : Z) (dns : list (Z * Z)) : Z :=
  fold_left (fun l '(i, n) => l * n + i) dns l.

(** The index of the cell with the coordinates [digits] in a grid of
    shape [shape], row-major. *)
Definition flat_index (shape digits : list Z) : Z :=
  match digits with
  | [] => 0
  | d :: ds => mix d (zip ds (tail shape))
  end.

(** The number of occurrences of the cell [c] in [cells]. *)
Definition occ (cells : list Z) (c : Z) : nat :=
  length (filter (fun l => l = c) cells).

(** The sum of the first [k] elements. *)
Definition prefix_sum (a : list Z) (k : nat) : Z := sum_Z (take k a).

(** The indices of the points of the cell [c], in increasing order. *)
Definition points_of_cell (cells : list Z) (c : Z) : list nat :=
  filter (fun i => cells !! i = Some c) (seq 0 (length cells)).

(** The number of points of every cell of a grid of [G] cells. *)
Definition counts_of (cells : list Z) (G : nat) : list Z :=
  (fun c : nat => Z.of_nat (occ cells (Z.of_nat c))) <$> seq 0 G.

(** The body of the loop of [count_cells]. *)
Definition count_body (cells_count : list Z) (l : Z) : result (list Z) :=
  c ← getitem cells_count l; setitem cells_count l (wrap64 (c + 1)).

(** The end and the start of the block of the cell [c] in [points_indices],
    for the points of cells [cells] in a grid of [G] cells. *)
Definition block_end (cells : list Z) (G : nat) (c : nat) : Z :=
  prefix_sum (counts_of cells G) (S c).
Definition block_start (cells : list Z) (G : nat) (c : nat) : Z :=
  prefix_sum (counts_of cells G) c.

(** The position at which the point [i] of the cell [c] is placed. *)
Definition position (cells : list Z) (G : nat) (i c : nat) : Z :=
  block_end cells G c - 1 - Z.of_nat (occ (take i cells) (Z.of_nat c)).

(** The state of the placement loop after the first [k] points are placed. *)
Definition placed (cells : list Z) (G : nat) (k : nat)
    (state : list Z * list Z) : Prop :=
  let '(points_indices, cells_offset) := state in
  length points_indices = length cells ∧
  length cells_offset = G ∧
  (∀ c, (c < G)%nat →
     cells_offset !! c
     = Some (block_end cells G c - Z.of_nat (occ (take k cells) (Z.of_nat c)))) ∧
  (∀ i c, (i < k)%nat → cells !! i = Some (Z.of_nat c) →
     points_indices !! Z.to_nat (position cells G i c) = Some (Z.of_nat i)).

(** The state of the loop of [index_ranges] over the dimensions, after the
    first [t] dimensions of the row of coordinates [xs]. *)
Definition ranges_upto (mn mx xs : list Z) (t : nat) (state : list Z * list Z) : Prop :=
  let '(mn', mx') := state in
  length mn' = length xs ∧ length mx' = length xs ∧
  ∀ j m M x, mn !! j = Some m → mx !! j = Some M → xs !! j = Some x →
    mn' !! j = Some (if decide (j < t)%nat then Z.min m x else m) ∧
    mx' !! j = Some (if decide (j < t)%nat then Z.max M x else M).

(** The coordinates of a point in the grid: those of the point with the
    least coordinates are all [1]. *)
Definition normalized_coordinates (x_min xs : list Z) : list Z :=
  zip_with (fun x lo => x - lo + 1) xs x_min.

(** The cell of a point with the coordinates [xs], among the points with
    the coordinates [X]. *)
Definition cell_id (X : list (list Z)) (xs : list Z) : Z :=
  flat_index (extent X) (normalized_coordinates (lowest X) xs).

(** The opposite of a tuple of offsets. *)
Definition negate (delta : list Z) : list Z := Z.opp <$> delta.

(** The offset that [_neighboring_cells] computes for the tuple [row]. *)
Definition offset_of (grid_shape row : list Z) : Z :=
  match row with
  | [] => 0
  | i0 :: is_ =>
      fold_left (fun l '(i, n) => wrap64 (wrap64 (l * n) + i))
                (zip is_ (tail grid_shape)) i0
  end.

(** The tuples that [neighboring_cells] keeps: those after the middle of
    the product. *)
Definition kept_tuples (D : nat) (distance : Z) : list (list Z) :=
  let prod := product D (range (- distance) (distance + 1)) in
  drop (length prod / 2 + 1)%nat prod.

(** The block of the cell [c]: its points, the last one first. *)
Definition block_of (cells : list Z) (c : Z) : list Z :=
  Z.of_nat <$> reverse (points_of_cell cells c).

(** [i] comes before [j] in the list [l]. *)
Definition before (l : list Z) (i j : Z) : Prop :=
  ∃ k b : nat, (k < b)%nat ∧ l !! k = Some i ∧ l !! b = Some j.

(** The pairs yielded for the cell [c] when no access is out of bounds. *)
Definition cell_pairs (cells offs : list Z) (c : Z) : list (Z * Z) :=
  if decide (occ cells c = 0%nat) then []
  else inside_pairs (block_of cells c)
       ++ (offs ≫= fun o => cross_pairs (block_of cells c) (block_of cells (c + o))).

(** Two cells are equal or adjacent: their coordinates differ by at most
    one in every dimension (their Chebyshev distance is at most one). *)
Definition adjacent (xs ys : list Z) : Prop :=
  Forall2 (fun x y => -1 ≤ y - x ≤ 1) xs ys.

#[global] Instance adjacent_dec xs ys : Decision (adjacent xs ys).
Proof. unfold adjacent. apply _. Defined.

(** ** The statements of the properties *)

(** The layout that [add_to_cells] returns: the counts sum to the number of
    points, [points_indices] is a permutation of the indices of the points,
    and the slice of every cell holds exactly the indices of the points of
    that cell. *)
Definition bucketed_layout (uninit : nat → Z) (points : points_t)
    (cell_size : float) : Prop :=
  ∃ x_min cells points_indices cells_count cells_offset grid_shape,
    locate_points points cell_size = Ok (x_min, grid_shape, cells) ∧
    add_to_cells uninit points cell_size
    = Ok (points_indices, cells_count, cells_offset, grid_shape) ∧
    sum_Z cells_count = Z.of_nat (length points) ∧
    points_indices ≡ₚ range 0 (Z.of_nat (length points)) ∧
    Z.of_nat (length cells_count) = np_prod grid_shape ∧
    length cells_offset = length cells_count ∧
    ∀ (c : nat) start count,
      cells_offset !! c = Some start → cells_count !! c = Some count →
      ∀ x, x ∈ slice points_indices start (start + count) ↔
           ∃ i : nat, x = Z.of_nat i ∧ cells !! i = Some (Z.of_nat c).

(** The order inside the blocks: the block of every cell lists the points
    of the cell from the last one of the input to the first one. *)
Definition blocks_reversed (uninit : nat → Z) (points : points_t)
    (cell_size : float) : Prop :=
  ∃ x_min cells points_indices cells_count cells_offset grid_shape,
    locate_points points cell_size = Ok (x_min, grid_shape, cells) ∧
    add_to_cells uninit points cell_size
    = Ok (points_indices, cells_count, cells_offset, grid_shape) ∧
    ∀ (c : nat) start count,
      cells_offset !! c = Some start → cells_count !! c = Some count →
      slice points_indices start (start + count)
      = Z.of_nat <$> reverse (points_of_cell cells (Z.of_nat c)).

(** The order that a stable placement would give: every block in the
    order of the input, that is, increasing. *)
Definition blocks_stable (uninit : nat → Z) (points : points_t)
    (cell_size : float) : Prop :=
  ∃ x_min cells points_indices cells_count cells_offset grid_shape,
    locate_points points cell_size = Ok (x_min, grid_shape, cells) ∧
    add_to_cells uninit points cell_size
    = Ok (points_indices, cells_count, cells_offset, grid_shape) ∧
    ∀ (c : nat) start count,
      cells_offset !! c = Some start → cells_count !! c = Some count →
      slice points_indices start (start + count)
      = Z.of_nat <$> points_of_cell cells (Z.of_nat c).

(** ** Scenarios *)

(** The binary64 numbers [0.1 = 0x1.999999999999ap-4] and
    [2.1 = 0x1.0cccccccccccdp+1], [0.5] and [-0.5]. *)
Definition f8_0_1 : float := S754_finite false 7205759403792794 (-56).
Definition f8_2_1 : float := S754_finite false 4728779608739021 (-51).
Definition f8_0_5 : float := float_of 1 (-1).
Definition f8_minus_0_5 : float := float_of (-1) (-1).

(** [[(0, 0), (0.1, 0), (2, 2), (2.1, 2)]] *)
Definition four_points : points_t :=
  [ [float_of_int 0; float_of_int 0];
    [f8_0_1; float_of_int 0];
    [float_of_int 2; float_of_int 2];
    [f8_2_1; float_of_int 2] ].

(** Two points of one cell. *)
Definition two_points : points_t := [ [float_of_int 0]; [float_of_int 0] ].

(** Two points on the two sides of the origin. *)
Definition straddling_points : points_t := [ [f8_minus_0_5]; [f8_0_5] ].

(** Memory that holds zeros. *)
Definition zeroed : nat → Z := fun _ => 0.

(** The integer part of a float rounded toward minus infinity, and the cell
    coordinate as the documentation of the module words it:
    [floor(p / cell_size)]. *)
Definition float_floor (x : float) : option Z :=
  match x with
  | S754_zero _ => Some 0
  | S754_finite s m e =>
      let v := Z.shiftl (Z.pos m) e in
      let exact := Z.eqb (Z.shiftl v (- e)) (Z.pos m) in
      Some (if s then (if (0 <=? e) || exact then - v else - v - 1) else v)
  | S754_infinity _ | S754_nan => None
  end.
Definition floor_coordinate (cell_size p : float) : option Z :=
  float_floor (fdiv p cell_size).

(** What [neighboring_cells] returns: the offsets of the tuples that come
    after the middle of the product, the middle being the zero tuple; of
    every other tuple of the neighbourhood and its opposite exactly one is
    kept. *)
Definition symmetric_half (grid_shape : list Z) (distance : Z) : Prop :=
  let D := length grid_shape in
  let prod := product D (range (- distance) (distance + 1)) in
  let kept := drop (length prod / 2 + 1)%nat prod in
  ∃ offs,
    neighboring_cells grid_shape distance = Ok offs ∧
    Z.of_nat (length offs) = ((2 * distance + 1) ^ Z.of_nat D - 1) / 2 ∧
    prod !! (length prod / 2)%nat = Some (replicate D 0) ∧
    offs = offset_of grid_shape <$> kept ∧
    (∀ delta, delta ∈ kept →
       offset_of grid_shape delta mod 2 ^ 64
       = flat_index grid_shape delta mod 2 ^ 64) ∧
    NoDup kept ∧
    ∀ delta,
      length delta = D → Forall (fun x => - distance ≤ x ≤ distance) delta →
      delta ≠ replicate D 0 →
      (delta ∈ kept ∧ ¬ (negate delta ∈ kept)) ∨
      (¬ (delta ∈ kept) ∧ negate delta ∈ kept).

(** The accesses of the enumeration stay inside the arrays. *)
Definition enumeration_in_bounds (uninit : nat → Z) (points : points_t)
    (cell_size : float) : Prop :=
  ∃ points_indices cells_count cells_offset grid_shape neigh_cells pairs,
    add_to_cells uninit points cell_size
    = Ok (points_indices, cells_count, cells_offset, grid_shape) ∧
    neighboring_cells grid_shape 1 = Ok neigh_cells ∧
    Z.of_nat (length cells_count) = np_prod grid_shape ∧
    length cells_offset = length cells_count ∧
    (∀ (c : nat) n o,
       cells_count !! c = Some n → 0 < n → o ∈ neigh_cells →
       0 ≤ Z.of_nat c + o < np_prod grid_shape) ∧
    (∀ (c : nat) start count,
       cells_offset !! c = Some start → cells_count !! c = Some count →
       0 ≤ start ∧ 0 ≤ count ∧
       start + count ≤ Z.of_nat (length points_indices)) ∧
    iter_nearest_neighbors (np_arange (Z.of_nat (length cells_count))) neigh_cells
      points_indices cells_count cells_offset
    = Ok pairs.

(** The pairs that the enumeration yields: pairs of two distinct points,
    none of them twice, and two distinct points make a pair, in one order
    or the other, once when their cells are equal or adjacent and never
    otherwise. *)
Definition pairs_exactly_once (uninit : nat → Z) (points : points_t)
    (cell_size : float) : Prop :=
  ∃ points_indices cells_count cells_offset grid_shape neigh_cells pairs,
    add_to_cells uninit points cell_size
    = Ok (points_indices, cells_count, cells_offset, grid_shape) ∧
    neighboring_cells grid_shape 1 = Ok neigh_cells ∧
    iter_nearest_neighbors (np_arange (Z.of_nat (length cells_count))) neigh_cells
      points_indices cells_count cells_offset
    = Ok pairs ∧
    NoDup pairs ∧
    (∀ x y, (x, y) ∈ pairs →
       ∃ i j : nat, x = Z.of_nat i ∧ y = Z.of_nat j ∧ i ≠ j ∧
                    (i < length points)%nat ∧ (j < length points)%nat) ∧
    ∀ (i j : nat) row_i row_j,
      i ≠ j → points !! i = Some row_i → points !! j = Some row_j →
      length (filter (fun p => p = (Z.of_nat i, Z.of_nat j) ∨
                               p = (Z.of_nat j, Z.of_nat i)) pairs)
      = if decide (adjacent (coordinates cell_size row_i)
                            (coordinates cell_size row_j))
        then 1%nat else 0%nat.

(** The cost that [partition_cells] adds for a cell with [count] points
    when there are no neighbours, and the cost of the cells [lo .. hi - 1]. *)
Definition cell_cost (count : Z) : Z :=
  if count =? 0 then 0 else (count - 1) ^ 2.
Definition range_cost (cells_count : list Z) (lo hi : Z) : Z :=
  sum_Z (cell_cost <$> slice cells_count lo hi).

(** ** The benchmark: [benchmarks/benchmark.py] *)

(** The chunks of [cell_indices] that [consume_find_neighbors_multithread]
    hands to its threads, one per part:
    [(cell_indices[start:end] for start, end in zip(splits[:-1], splits[1:]))] *)
Definition cell_indices_chunks (splits cell_indices : list Z) : list (list Z) :=
  (fun '(start, end_) => slice cell_indices start end_)
    <$> zip (slice_to splits (-1)) (slice_from splits 1).

(** ** The notions of the further properties *)

(** [cells_count[c] != 0], the test of [iter_nearest_neighbors], for a cell
    index inside the array. *)
Definition occupied (cells_count : list Z) (c : Z) : bool :=
  match getitem cells_count c with
  | Ok n => negb (n =? 0)
  | Raise _ => false
  end.

(** Every access [cells_count[i + j]] of [partition_cells] is inside the
    array. *)
Definition cross_in_range (cells_count neigh_cells : list Z) : Prop :=
  ∀ (i : nat) count j,
    cells_count !! i = Some count → count ≠ 0 → j ∈ neigh_cells →
    - Z.of_nat (length cells_count) ≤ wrap64 (Z.of_nat i + j)
    < Z.of_nat (length cells_count).

(** A list of integers that never decreases. *)
Definition nondecreasing (l : list Z) : Prop :=
  ∀ (i j : nat) x y, (i ≤ j)%nat → l !! i = Some x → l !! j = Some y → x ≤ y.

(** The state of the loop of [partition_cells] that records the splits: of
    the [n + 1] boundaries the first and the last one are set, and those of
    the parts before [part_index] are cell indices below [i], each greater
    than the one before. *)
Definition boundaries_upto (n len part_index i : Z) (splits : list Z) : Prop :=
  Z.of_nat (length splits) = n + 1 ∧
  splits !! 0%nat = Some 0 ∧
  splits !! Z.to_nat n = Some len ∧
  ∀ (k : nat) b,
    1 ≤ Z.of_nat k < part_index → splits !! k = Some b →
    0 ≤ b < i ∧
    ∀ (k' : nat) b',
      Z.of_nat k < Z.of_nat k' < part_index → splits !! k' = Some b' → b < b'.

(** The boundaries that [partition_cells] promises: [n + 1] of them, from
    [0] to the number of cells, never decreasing, those between the two
    ends being cell indices. *)
Definition well_formed_boundaries (n len : Z) (splits : list Z) : Prop :=
  Z.of_nat (length splits) = n + 1 ∧
  splits !! 0%nat = Some 0 ∧
  splits !! Z.to_nat n = Some len ∧
  nondecreasing splits ∧
  ∀ (k : nat) b, 1 ≤ Z.of_nat k < n → splits !! k = Some b → 0 ≤ b < len.


(** * Proofs *)

(** ** The result monad *)

Ltac simpl_result :=
  repeat (progress (unfold mbind, mret, result_bind, result_ret in *; cbn beta iota in * )).

Lemma bind_Ok {A B} (m : result A) (k : A → result B) a :
  m = Ok a → (m ≫= k) = k a.
Proof. intros ->. reflexivity. Qed.

Lemma bind_Ok_inv {A B} (m : result A) (k : A → result B) b :
  (m ≫= k) = Ok b → ∃ a, m = Ok a ∧ k a = Ok b.
Proof. destruct m as [a|e]; [eauto | discriminate]. Qed.

Lemma foldM_app {A St} (body : St → A → result St) xs ys s :
  foldM body (xs ++ ys) s = (foldM body xs s ≫= foldM body ys).
Proof.
  revert s. induction xs as [|x xs IH]; intros s; [reflexivity|].
  simpl. destruct (body s x) as [s'|e]; [apply IH | reflexivity].
Qed.

(** A loop that keeps an invariant [P k] over the first [k] iterations. *)
Lemma foldM_invariant {A St} (P : nat → St → Prop) (body : St → A → result St)
    xs s :
  P 0%nat s →
  (∀ k s x, xs !! k = Some x → P k s → ∃ s', body s x = Ok s' ∧ P (S k) s') →
  ∃ s', foldM body xs s = Ok s' ∧ P (length xs) s'.
Proof.
  revert P s. induction xs as [|x xs IH]; intros P s H0 Hstep.
  - exists s. split; [reflexivity | exact H0].
  - destruct (Hstep 0%nat s x eq_refl H0) as (s1 & Hb & H1).
    destruct (IH (fun k => P (S k)) s1 H1) as (s' & Hf & Hl).
    { intros k s2 y Hy. apply (Hstep (S k)). exact Hy. }
    exists s'. split; [|exact Hl].
    simpl. rewrite Hb. exact Hf.
Qed.

Lemma mapM_Ok {A B} (f : A → result B) (g : A → B) xs :
  (∀ x, x ∈ xs → f x = Ok (g x)) → mapM f xs = Ok (g <$> xs).
Proof.
  induction xs as [|x xs IH]; intros H; [reflexivity|].
  simpl. rewrite (H x) by left. simpl_result.
  rewrite IH; [reflexivity|]. intros y Hy. apply H. by right.
Qed.

Lemma yieldM_Ok {A B} (f : A → result (list B)) (g : A → list B) xs :
  (∀ x, x ∈ xs → f x = Ok (g x)) → yieldM f xs = Ok (xs ≫= g).
Proof.
  induction xs as [|x xs IH]; intros H; [reflexivity|].
  simpl. rewrite (H x) by left. simpl_result.
  rewrite IH; [reflexivity|]. intros y Hy. apply H. by right.
Qed.

(** ** Machine integers *)

Lemma wrap64_id z : int64_min ≤ z ≤ int64_max → wrap64 z = z.
Proof.
  unfold wrap64, int64_min, int64_max. intros H.
  rewrite Z.mod_small; lia.
Qed.

Lemma int64_max_eq : int64_max = 9223372036854775807.
Proof. reflexivity. Qed.
Lemma int64_min_eq : int64_min = -9223372036854775808.
Proof. reflexivity. Qed.

(** [unwrap z] removes the wrap-around of [z], which is in range. *)
Ltac unwrap z :=
  rewrite (wrap64_id z) by (rewrite int64_min_eq, int64_max_eq; lia).

(** ** Arrays *)

Lemma resolve_index_nat {A} (a : list A) (k : nat) :
  (k < length a)%nat → resolve_index a (Z.of_nat k) = Ok k.
Proof.
  intros H. unfold resolve_index.
  destruct (Z.ltb_spec (Z.of_nat k) 0); [lia|].
  destruct (Z.leb_spec 0 (Z.of_nat k)); [|lia].
  destruct (Z.ltb_spec (Z.of_nat k) (Z.of_nat (length a))); [|lia].
  simpl. by rewrite Nat2Z.id.
Qed.

Lemma getitem_nat {A} (a : list A) (k : nat) x :
  a !! k = Some x → getitem a (Z.of_nat k) = Ok x.
Proof.
  intros H. unfold getitem.
  rewrite resolve_index_nat by (by eapply lookup_lt_Some).
  simpl_result. by rewrite H.
Qed.

Lemma setitem_nat {A} (a : list A) (k : nat) x :
  (k < length a)%nat → setitem a (Z.of_nat k) x = Ok (<[k := x]> a).
Proof. intros H. unfold setitem. by rewrite resolve_index_nat. Qed.

Lemma getitem_Z {A} (a : list A) (i : Z) x :
  0 ≤ i → a !! Z.to_nat i = Some x → getitem a i = Ok x.
Proof. intros H Hl. rewrite <- (Z2Nat.id i) by done. by apply getitem_nat. Qed.

Lemma setitem_Z {A} (a : list A) (i : Z) x :
  0 ≤ i < Z.of_nat (length a) → setitem a i x = Ok (<[Z.to_nat i := x]> a).
Proof. intros H. rewrite <- (Z2Nat.id i) at 1 by lia. apply setitem_nat. lia. Qed.

Lemma resolve_bound_nat {A} (a : list A) (k : nat) :
  resolve_bound a (Z.of_nat k) = (k `min` length a)%nat.
Proof.
  unfold resolve_bound.
  destruct (Z.ltb_spec (Z.of_nat k) 0); lia.
Qed.

Lemma slice_nat {A} (a : list A) (s e : nat) :
  (s ≤ e)%nat → (e ≤ length a)%nat →
  slice a (Z.of_nat s) (Z.of_nat e) = take (e - s) (drop s a).
Proof.
  intros Hs He. unfold slice. rewrite !resolve_bound_nat.
  by rewrite !Nat.min_l by lia.
Qed.

Lemma range_nat (lo n : nat) :
  range (Z.of_nat lo) (Z.of_nat (lo + n)) = Z.of_nat <$> seq lo n.
Proof.
  unfold range. apply list_eq. intros k. rewrite list_lookup_fmap.
  destruct (decide (k < n)%nat) as [Hk|Hk].
  - rewrite lookup_seqZ_lt by lia. rewrite lookup_seq_lt by done. simpl. f_equal. lia.
  - rewrite lookup_seqZ_ge by lia. rewrite lookup_seq_ge by lia. done.
Qed.

Lemma range_0 (n : nat) : range 0 (Z.of_nat n) = Z.of_nat <$> seq 0 n.
Proof. apply (range_nat 0 n). Qed.

Lemma range_empty lo hi : hi ≤ lo → range lo hi = [].
Proof. intros H. unfold range, seqZ. by replace (Z.to_nat _) with 0%nat by lia. Qed.

Lemma enumerate_lookup {A} (a : list A) (k : nat) x :
  a !! k = Some x → enumerate a !! k = Some (Z.of_nat k, x).
Proof.
  intros H. unfold enumerate.
  apply lookup_zip_with_Some. exists (Z.of_nat k), x. split_and!; [done| |done].
  rewrite list_lookup_fmap, lookup_seq_lt; [done|]. by eapply lookup_lt_Some.
Qed.

Lemma length_enumerate {A} (a : list A) : length (enumerate a) = length a.
Proof.
  unfold enumerate. rewrite length_zip_with, length_fmap, length_seq. lia.
Qed.

Lemma enumerate_lookup_inv {A} (a : list A) (k : nat) p :
  enumerate a !! k = Some p → ∃ x, p = (Z.of_nat k, x) ∧ a !! k = Some x.
Proof.
  intros H.
  assert (k < length a)%nat as Hk.
  { rewrite <- length_enumerate. by eapply lookup_lt_Some. }
  destruct (lookup_lt_is_Some_2 a k Hk) as [x Hx].
  exists x. split; [|done].
  rewrite (enumerate_lookup a k x Hx) in H. congruence.
Qed.

Lemma filter_agree {A} (P1 P2 : A → Prop)
    `{!∀ x, Decision (P1 x), !∀ x, Decision (P2 x)} (l : list A) :
  (∀ x, x ∈ l → P1 x ↔ P2 x) → filter P1 l = filter P2 l.
Proof.
  induction l as [|a l IH]; intros Hiff; [done|].
  rewrite !filter_cons.
  rewrite IH by (intros x Hx; apply Hiff; by right).
  destruct (decide (P1 a)) as [H1|H1], (decide (P2 a)) as [H2|H2]; try done.
  - exfalso. apply H2, Hiff; [left | done].
  - exfalso. apply H1, Hiff; [left | done].
Qed.

(** ** Occurrences and sums *)

Lemma occ_nil c : occ [] c = 0%nat.
Proof. reflexivity. Qed.

Lemma occ_cons l cells c :
  occ (l :: cells) c = ((if decide (l = c) then 1 else 0) + occ cells c)%nat.
Proof.
  unfold occ. rewrite filter_cons. destruct (decide (l = c)); reflexivity.
Qed.

Lemma occ_app xs ys c : occ (xs ++ ys) c = (occ xs c + occ ys c)%nat.
Proof. unfold occ. by rewrite filter_app, length_app. Qed.

Lemma occ_le_length cells c : (occ cells c ≤ length cells)%nat.
Proof. apply length_filter. Qed.

Lemma occ_take_le cells k c : (occ (take k cells) c ≤ occ cells c)%nat.
Proof. rewrite <- (take_drop k cells) at 2. rewrite occ_app. lia. Qed.

Lemma occ_take_S cells k l c :
  cells !! k = Some l →
  occ (take (S k) cells) c
  = (occ (take k cells) c + if decide (l = c) then 1 else 0)%nat.
Proof.
  intros H. rewrite (take_S_r _ _ _ H), occ_app, occ_cons, occ_nil. lia.
Qed.

Lemma occ_take_lt cells i j l :
  (i < j)%nat → cells !! i = Some l →
  (occ (take i cells) l < occ (take j cells) l)%nat.
Proof.
  intros Hij Hi.
  assert (take (S i) (take j cells) = take (S i) cells) as Ht.
  { rewrite take_take. f_equal. lia. }
  pose proof (occ_take_le (take j cells) (S i) l) as Hle.
  rewrite Ht, (occ_take_S _ _ _ _ Hi) in Hle.
  rewrite decide_True in Hle by done. lia.
Qed.

Lemma occ_take_lt_total cells i l :
  cells !! i = Some l → (occ (take i cells) l < occ cells l)%nat.
Proof.
  intros Hi.
  pose proof (occ_take_lt cells i (length cells) l) as H.
  rewrite (take_ge cells (length cells)) in H by lia.
  apply H; [by eapply lookup_lt_Some | done].
Qed.

Lemma sum_Z_app a b : sum_Z (a ++ b) = sum_Z a + sum_Z b.
Proof.
  induction a as [|x a IH]; [done|].
  change (sum_Z ((x :: a) ++ b)) with (x + sum_Z (a ++ b)).
  change (sum_Z (x :: a)) with (x + sum_Z a). lia.
Qed.

Lemma sum_Z_nonneg a : Forall (fun x => 0 ≤ x) a → 0 ≤ sum_Z a.
Proof.
  induction 1 as [|x a Hx _ IH]; [done|].
  change (sum_Z (x :: a)) with (x + sum_Z a). lia.
Qed.

Lemma sum_Z_fmap_add {A} (f g : A → Z) xs :
  sum_Z ((fun x => f x + g x) <$> xs) = sum_Z (f <$> xs) + sum_Z (g <$> xs).
Proof.
  induction xs as [|x xs IH]; [done|].
  rewrite !fmap_cons.
  change (sum_Z (?y :: ?a)) with (y + sum_Z a). cbn [sum_Z foldr] in *. lia.
Qed.

Lemma sum_Z_indicator (l : nat) s n :
  sum_Z ((fun c : nat => if decide (l = c) then 1 else 0) <$> seq s n)
  = if decide (s ≤ l < s + n)%nat then 1 else 0.
Proof.
  unfold sum_Z. revert s. induction n as [|n IH]; intros s; simpl.
  - by rewrite decide_False by lia.
  - rewrite IH. repeat case_decide; lia.
Qed.

Lemma prefix_sum_0 a : prefix_sum a 0 = 0.
Proof. reflexivity. Qed.

Lemma prefix_sum_S a k x :
  a !! k = Some x → prefix_sum a (S k) = prefix_sum a k + x.
Proof.
  intros H. unfold prefix_sum. rewrite (take_S_r _ _ _ H), sum_Z_app.
  unfold sum_Z. simpl. lia.
Qed.

Lemma prefix_sum_ge a k : (length a ≤ k)%nat → prefix_sum a k = sum_Z a.
Proof. intros H. unfold prefix_sum. by rewrite take_ge. Qed.

Lemma prefix_sum_mono a k k' :
  Forall (fun x => 0 ≤ x) a → (k ≤ k')%nat → prefix_sum a k ≤ prefix_sum a k'.
Proof.
  intros Ha Hk. unfold prefix_sum.
  replace k' with (k + (k' - k))%nat by lia.
  rewrite <- take_take_drop, sum_Z_app.
  assert (0 ≤ sum_Z (take (k' - k) (drop k a))); [|lia].
  apply sum_Z_nonneg.
  eapply Forall_take, Forall_drop, Ha.
Qed.

(** ** Counting the points of the cells *)

Lemma count_body_Ok (cnt : list Z) l v :
  0 ≤ l → cnt !! Z.to_nat l = Some v →
  count_body cnt l = Ok (<[Z.to_nat l := wrap64 (v + 1)]> cnt).
Proof.
  intros Hl Hv. unfold count_body.
  rewrite (getitem_Z _ _ v) by done. simpl_result.
  apply setitem_Z. apply lookup_lt_Some in Hv. lia.
Qed.

Lemma count_loop cells : ∀ cnt : list Z,
  (∀ l, l ∈ cells → 0 ≤ l < Z.of_nat (length cnt)) →
  (∀ v, v ∈ cnt → 0 ≤ v ∧ v + Z.of_nat (length cells) ≤ int64_max) →
  foldM count_body cells cnt
  = Ok (imap (fun c v => v + Z.of_nat (occ cells (Z.of_nat c))) cnt).
Proof.
  induction cells as [|l cells IH]; intros cnt Hin Hv.
  - simpl. f_equal. apply list_eq. intros c.
    rewrite list_lookup_imap. destruct (cnt !! c) as [v|]; [|done].
    cbn [fmap option_fmap option_map]. rewrite occ_nil. f_equal. lia.
  - assert (0 ≤ l < Z.of_nat (length cnt)) as Hl by (apply Hin; left).
    destruct (lookup_lt_is_Some_2 cnt (Z.to_nat l)) as [v Hlv]; [lia|].
    destruct (Hv v) as [Hv0 Hv1]; [by eapply list_elem_of_lookup_2|].
    rewrite length_cons in Hv1.
    cbn [foldM]. rewrite (count_body_Ok _ _ v) by (lia || done). simpl_result.
    rewrite wrap64_id by (rewrite int64_min_eq; lia).
    rewrite IH.
    + f_equal. apply list_eq. intros c.
      rewrite !list_lookup_imap, occ_cons.
      destruct (decide (Z.to_nat l = c)) as [<-|Hne].
      * rewrite list_lookup_insert_eq by lia. rewrite Hlv. simpl.
        rewrite Z2Nat.id by lia. rewrite decide_True by done. f_equal. lia.
      * rewrite list_lookup_insert_ne by done.
        destruct (cnt !! c) as [w|]; simpl; [|done].
        rewrite decide_False by lia. f_equal.
    + intros l' Hl'. rewrite length_insert. apply Hin. by right.
    + intros w Hw. apply list_elem_of_lookup in Hw as [c Hc].
      rewrite length_cons in *.
      apply list_lookup_insert_Some in Hc as [(_ & <- & _)|(_ & Hc)]; [lia|].
      destruct (Hv w) as [? ?]; [by eapply list_elem_of_lookup_2|]. lia.
Qed.

Lemma count_cells_spec cells (G : nat) :
  (∀ l, l ∈ cells → 0 ≤ l < Z.of_nat G) →
  Z.of_nat (length cells) ≤ int64_max →
  count_cells cells (Z.of_nat G) = Ok (counts_of cells G).
Proof.
  intros Hin HN. unfold count_cells, np_zeros.
  destruct (Z.ltb_spec (Z.of_nat G) 0); [lia|]. simpl_result.
  rewrite Nat2Z.id.
  change (foldM _ cells) with (foldM count_body cells).
  rewrite count_loop.
  - f_equal. apply list_eq. intros c. unfold counts_of.
    rewrite list_lookup_imap, list_lookup_fmap.
    destruct (decide (c < G)%nat).
    + rewrite lookup_replicate_2, lookup_seq_lt by done. simpl. done.
    + rewrite lookup_seq_ge by lia.
      rewrite (proj1 (lookup_replicate_None _ _ _)) by lia. done.
  - by rewrite length_replicate.
  - intros v Hv%elem_of_replicate. lia.
Qed.

Lemma length_counts_of cells G : length (counts_of cells G) = G.
Proof. unfold counts_of. by rewrite length_fmap, length_seq. Qed.

Lemma counts_of_lookup cells G (c : nat) :
  (c < G)%nat → counts_of cells G !! c = Some (Z.of_nat (occ cells (Z.of_nat c))).
Proof.
  intros H. unfold counts_of. by rewrite list_lookup_fmap, lookup_seq_lt.
Qed.

Lemma counts_of_nonneg cells G : Forall (fun x => 0 ≤ x) (counts_of cells G).
Proof.
  apply Forall_forall. intros x Hx.
  apply list_elem_of_fmap in Hx as (c & -> & _). lia.
Qed.

(** [sum(cells_count) == size] *)
Lemma sum_counts_of cells G :
  (∀ l, l ∈ cells → 0 ≤ l < Z.of_nat G) →
  sum_Z (counts_of cells G) = Z.of_nat (length cells).
Proof.
  unfold counts_of. induction cells as [|l cells IH]; intros Hin.
  - simpl. induction (seq 0 G) as [|? ? IH']; [done|].
    rewrite fmap_cons. change (sum_Z (?y :: ?a)) with (y + sum_Z a).
    rewrite IH'. done.
  - rewrite length_cons, Nat2Z.inj_succ, <- IH by (intros; apply Hin; by right).
    assert (0 ≤ l < Z.of_nat G) as Hl by (apply Hin; left).
    transitivity (sum_Z ((fun c : nat =>
        (if decide (Z.to_nat l = c) then 1 else 0)
        + Z.of_nat (occ cells (Z.of_nat c))) <$> seq 0 G)).
    + f_equal. apply list_fmap_ext. intros _ c _.
      rewrite occ_cons.
      destruct (decide (l = Z.of_nat c)), (decide (Z.to_nat l = c)); lia.
    + rewrite (sum_Z_fmap_add (fun c : nat => if decide (Z.to_nat l = c) then 1 else 0)).
      rewrite sum_Z_indicator. rewrite decide_True by lia. lia.
Qed.

(** ** The cumulative sum *)

Lemma prefix_sum_cons y a j : prefix_sum (y :: a) (S j) = y + prefix_sum a j.
Proof. reflexivity. Qed.

Lemma length_cumsum_from acc a : length (cumsum_from acc a) = length a.
Proof. revert acc. induction a as [|y a IH]; intros acc; simpl; [done|]. by rewrite IH. Qed.

Lemma cumsum_from_lookup a : ∀ acc k x,
  a !! k = Some x →
  (∀ j, (j ≤ length a)%nat → int64_min ≤ acc + prefix_sum a j ≤ int64_max) →
  cumsum_from acc a !! k = Some (acc + prefix_sum a (S k)).
Proof.
  induction a as [|y a IH]; intros acc k x Hk Hr; [done|].
  assert (wrap64 (acc + y) = acc + y) as Hw.
  { apply wrap64_id. specialize (Hr 1%nat). rewrite prefix_sum_cons, prefix_sum_0 in Hr.
    rewrite length_cons in Hr. replace (acc + (y + 0)) with (acc + y) in Hr by lia.
    apply Hr. lia. }
  cbn [cumsum_from]. rewrite Hw. destruct k as [|k].
  - simpl. rewrite prefix_sum_cons, prefix_sum_0. f_equal. lia.
  - simpl in Hk. rewrite lookup_cons_ne_0 by done. simpl.
    rewrite (IH _ _ x Hk).
    + rewrite (prefix_sum_cons y a (S k)). f_equal. lia.
    + intros j Hj. specialize (Hr (S j)). rewrite prefix_sum_cons in Hr.
      rewrite length_cons in Hr. replace (acc + y + prefix_sum a j) with (acc + (y + prefix_sum a j)) by lia.
      apply Hr. lia.
Qed.

(** ** Placing the points *)

Section placement.
Variable cells : list Z.
Variable G : nat.
Hypothesis cells_in_grid : ∀ l, l ∈ cells → 0 ≤ l < Z.of_nat G.
Hypothesis size_fits : Z.of_nat (length cells) ≤ int64_max.

Local Abbreviation cc := (counts_of cells G).

Lemma block_end_start c :
  (c < G)%nat →
  block_end cells G c = block_start cells G c + Z.of_nat (occ cells (Z.of_nat c)).
Proof.
  intros Hc. unfold block_end, block_start.
  apply prefix_sum_S. by apply counts_of_lookup.
Qed.

Lemma block_start_nonneg c : 0 ≤ block_start cells G c.
Proof.
  unfold block_start. rewrite <- (prefix_sum_0 cc).
  apply prefix_sum_mono; [apply counts_of_nonneg | lia].
Qed.

Lemma block_end_le_size c : block_end cells G c ≤ Z.of_nat (length cells).
Proof.
  unfold block_end.
  rewrite <- (sum_counts_of cells G cells_in_grid).
  rewrite <- (prefix_sum_ge (counts_of cells G) (S c `max` G)).
  - apply prefix_sum_mono; [apply counts_of_nonneg | lia].
  - rewrite length_counts_of. lia.
Qed.

Lemma block_end_le_start c c' : (c < c')%nat → block_end cells G c ≤ block_start cells G c'.
Proof.
  intros H. unfold block_end, block_start.
  apply prefix_sum_mono; [apply counts_of_nonneg | lia].
Qed.

Lemma position_in_block i c :
  cells !! i = Some (Z.of_nat c) →
  block_start cells G c ≤ position cells G i c < block_end cells G c.
Proof.
  intros Hi. unfold position.
  assert (c < G)%nat as Hc.
  { apply list_elem_of_lookup_2, cells_in_grid in Hi. lia. }
  rewrite (block_end_start c Hc).
  pose proof (occ_take_lt_total cells i _ Hi). lia.
Qed.

Lemma position_inj i j c d :
  cells !! i = Some (Z.of_nat c) → cells !! j = Some (Z.of_nat d) →
  position cells G i c = position cells G j d → i = j.
Proof.
  intros Hi Hj Hp.
  pose proof (position_in_block i c Hi) as Bi.
  pose proof (position_in_block j d Hj) as Bj.
  destruct (Nat.lt_trichotomy c d) as [Hcd|[->|Hcd]].
  - pose proof (block_end_le_start c d Hcd). lia.
  - unfold position in Hp.
    destruct (Nat.lt_trichotomy i j) as [Hij|[->|Hij]]; [|done|].
    + pose proof (occ_take_lt cells i j _ Hij Hi). lia.
    + pose proof (occ_take_lt cells j i _ Hij Hj). lia.
  - pose proof (block_end_le_start d c Hcd). lia.
Qed.

Lemma place_point_step k state l :
  cells !! k = Some l → placed cells G k state →
  ∃ state', place_point state (Z.of_nat k, l) = Ok state' ∧ placed cells G (S k) state'.
Proof.
  destruct state as [pi co]. intros Hk (Hlpi & Hlco & Hco & Hpi).
  assert (0 ≤ l < Z.of_nat G) as Hl by (by eapply cells_in_grid, list_elem_of_lookup_2).
  remember (Z.to_nat l) as c eqn:Ec.
  assert (l = Z.of_nat c) as -> by lia. clear Ec.
  assert (c < G)%nat as Hc by lia.
  pose proof (position_in_block k c Hk) as Hpos.
  pose proof (block_start_nonneg c) as Hs0.
  pose proof (block_end_le_size c) as HeN.
  rewrite int64_max_eq in size_fits.
  exists (<[Z.to_nat (position cells G k c) := Z.of_nat k]> pi,
          <[c := block_end cells G c - Z.of_nat (occ (take (S k) cells) (Z.of_nat c))]> co).
  split.
  - unfold place_point.
    rewrite (getitem_nat co c _ (Hco c Hc)). simpl_result.
    rewrite wrap64_id by (rewrite int64_min_eq, int64_max_eq; unfold position in Hpos; lia).
    replace (block_end cells G c - Z.of_nat (occ (take k cells) (Z.of_nat c)) - 1)
      with (position cells G k c) by (unfold position; lia).
    rewrite setitem_Z by lia. simpl_result.
    rewrite setitem_nat by lia.
    do 3 f_equal. unfold position.
    rewrite (occ_take_S _ _ _ _ Hk), decide_True by done. lia.
  - split_and!.
    + by rewrite length_insert.
    + by rewrite length_insert.
    + intros d Hd. destruct (decide (c = d)) as [<-|Hne].
      * by rewrite list_lookup_insert_eq by lia.
      * rewrite list_lookup_insert_ne by done. rewrite (Hco d Hd).
        rewrite (occ_take_S _ _ _ _ Hk), decide_False by lia.
        do 2 f_equal. lia.
    + intros i d Hi Hid. destruct (decide (i = k)) as [->|Hne].
      * assert (d = c) as -> by (rewrite Hk in Hid; injection Hid; lia).
        apply list_lookup_insert_eq. lia.
      * rewrite list_lookup_insert_ne.
        { apply Hpi; [lia | done]. }
        intros Heq. apply Hne. symmetry.
        apply (position_inj k i c d Hk Hid).
        pose proof (position_in_block i d Hid).
        pose proof (block_start_nonneg d). lia.
Qed.

Lemma place_points_spec (points_indices : list Z) :
  length points_indices = length cells →
  ∃ pi co,
    foldM place_point (enumerate cells) (points_indices, np_cumsum cc) = Ok (pi, co) ∧
    placed cells G (length cells) (pi, co).
Proof.
  intros Hlen.
  destruct (foldM_invariant (placed cells G) place_point (enumerate cells)
              (points_indices, np_cumsum cc)) as ([pi co] & Hf & Hp).
  - split_and!; [done | | | intros; lia].
    + unfold np_cumsum. by rewrite length_cumsum_from, length_counts_of.
    + intros c Hc. rewrite take_0, occ_nil, Z.sub_0_r.
      unfold np_cumsum.
      rewrite (cumsum_from_lookup _ _ _ _ (counts_of_lookup cells G c Hc)); [done|].
      intros j _. rewrite Z.add_0_l.
      pose proof (block_start_nonneg j). pose proof (block_end_le_size j).
      pose proof (prefix_sum_mono cc j (S j) (counts_of_nonneg _ _)).
      unfold block_start, block_end in *.
      rewrite int64_min_eq. lia.
  - intros k state p Hp Hst.
    apply enumerate_lookup_inv in Hp as (l & -> & Hl).
    by apply place_point_step.
  - exists pi, co. split; [done|]. by rewrite length_enumerate in Hp.
Qed.
End placement.

(** ** The points of a cell *)

Lemma points_of_cell_snoc cells l c :
  points_of_cell (cells ++ [l]) c
  = points_of_cell cells c ++ (if decide (l = c) then [length cells] else []).
Proof.
  unfold points_of_cell.
  rewrite length_app, Nat.add_1_r, seq_S, filter_app. simpl. f_equal.
  - apply filter_agree. intros i Hi%elem_of_seq.
    rewrite lookup_app_l by lia. done.
  - rewrite filter_cons, filter_nil.
    rewrite lookup_app_r, Nat.sub_diag by lia. simpl.
    destruct (decide (l = c)) as [->|Hne].
    + by rewrite decide_True.
    + rewrite decide_False; [done | congruence].
Qed.

Lemma length_points_of_cell cells c : length (points_of_cell cells c) = occ cells c.
Proof.
  induction cells as [|l cells IH] using rev_ind; [done|].
  rewrite points_of_cell_snoc, length_app, IH, occ_app, occ_cons, occ_nil.
  destruct (decide (l = c)); simpl; lia.
Qed.

Lemma points_of_cell_lookup cells c r i :
  points_of_cell cells c !! r = Some i →
  cells !! i = Some c ∧ occ (take i cells) c = r.
Proof.
  revert r i. induction cells as [|l cells IH] using rev_ind; intros r i H; [done|].
  rewrite points_of_cell_snoc in H.
  apply lookup_app_Some in H as [H|[Hr H]].
  - destruct (IH _ _ H) as [Hi <-].
    pose proof (lookup_lt_Some _ _ _ Hi).
    split; [by apply lookup_app_l_Some|].
    by rewrite take_app_le by lia.
  - rewrite length_points_of_cell in Hr, H.
    destruct (decide (l = c)) as [->|]; [|done].
    apply list_lookup_singleton_Some in H as [Hr0 <-].
    split.
    + rewrite lookup_app_r, Nat.sub_diag by lia. done.
    + rewrite take_app_length. lia.
Qed.

Lemma elem_of_points_of_cell cells c i :
  i ∈ points_of_cell cells c ↔ cells !! i = Some c.
Proof.
  unfold points_of_cell. rewrite list_elem_of_filter, elem_of_seq.
  split; [tauto|]. intros H. split; [done|].
  apply lookup_lt_Some in H. lia.
Qed.

(** ** The layout that [add_to_cells] returns *)

Section layout.
Variable cells : list Z.
Variable G : nat.
Hypothesis cells_in_grid : ∀ l, l ∈ cells → 0 ≤ l < Z.of_nat G.
Hypothesis size_fits : Z.of_nat (length cells) ≤ int64_max.
Variables points_indices cells_offset : list Z.
Hypothesis Hplaced : placed cells G (length cells) (points_indices, cells_offset).

Lemma final_offset c :
  (c < G)%nat → cells_offset !! c = Some (block_start cells G c).
Proof.
  intros Hc. destruct Hplaced as (_ & _ & Hco & _).
  rewrite (Hco c Hc), take_ge by lia.
  by rewrite (block_end_start cells G c Hc), Z.add_simpl_r.
Qed.

(** The block of a cell holds its points, the last one first. *)
Lemma block_of_cell c :
  (c < G)%nat →
  take (occ cells (Z.of_nat c)) (drop (Z.to_nat (block_start cells G c)) points_indices)
  = Z.of_nat <$> reverse (points_of_cell cells (Z.of_nat c)).
Proof.
  intros Hc. destruct Hplaced as (Hlpi & _ & _ & Hpi).
  pose proof (block_start_nonneg cells G c) as Hs0.
  apply list_eq. intros t.
  rewrite list_lookup_fmap.
  destruct (decide (t < occ cells (Z.of_nat c))%nat) as [Ht|Ht].
  - rewrite lookup_take_lt, lookup_drop by done.
    rewrite reverse_lookup by (rewrite length_points_of_cell; lia).
    rewrite length_points_of_cell.
    destruct (lookup_lt_is_Some_2 (points_of_cell cells (Z.of_nat c))
                (occ cells (Z.of_nat c) - S t)) as [i Hi].
    { rewrite length_points_of_cell. lia. }
    rewrite Hi. simpl.
    destruct (points_of_cell_lookup _ _ _ _ Hi) as [Hci Hrank].
    rewrite <- (Hpi i c); [|by eapply lookup_lt_Some|done].
    f_equal. unfold position. rewrite Hrank.
    rewrite (block_end_start cells G c Hc). lia.
  - rewrite lookup_take_ge by lia.
    symmetry. apply fmap_None, lookup_ge_None.
    rewrite length_reverse, length_points_of_cell. lia.
Qed.

Lemma points_indices_permutation :
  points_indices ≡ₚ Z.of_nat <$> seq 0 (length cells).
Proof.
  destruct Hplaced as (Hlpi & _ & _ & Hpi).
  symmetry. apply submseteq_length_Permutation.
  - apply NoDup_submseteq.
    + apply NoDup_fmap_2; [apply _ | apply NoDup_seq].
    + intros x Hx. apply list_elem_of_fmap in Hx as (i & -> & Hi%elem_of_seq).
      destruct (lookup_lt_is_Some_2 cells i) as [l Hl]; [lia|].
      assert (0 ≤ l < Z.of_nat G) as Hr
        by (by eapply cells_in_grid, list_elem_of_lookup_2).
      eapply (list_elem_of_lookup_2 _ (Z.to_nat (position cells G i (Z.to_nat l)))).
      apply Hpi; [lia|]. rewrite Z2Nat.id by lia. done.
  - rewrite length_fmap, length_seq. lia.
Qed.
End layout.

(** ** The ranges of the indices *)

Lemma getitem2_nat (points : points_t) (i j : nat) row p :
  points !! i = Some row → row !! j = Some p →
  getitem2 points (Z.of_nat i) (Z.of_nat j) = Ok p.
Proof.
  intros Hi Hj. unfold getitem2.
  rewrite (getitem_nat _ _ _ Hi). simpl_result. by apply getitem_nat.
Qed.

Lemma update_range_step (points : points_t) cell_size (i : nat) row mn mx t state :
  points !! i = Some row →
  length mn = length row → length mx = length row →
  (t < length row)%nat →
  ranges_upto mn mx (coordinates cell_size row) t state →
  ∃ state', update_range points cell_size (Z.of_nat i) state (Z.of_nat t) = Ok state' ∧
            ranges_upto mn mx (coordinates cell_size row) (S t) state'.
Proof.
  intros Hi Hmn Hmx Ht. destruct state as [mn' mx']. intros (Hl1 & Hl2 & Hinv).
  unfold coordinates in *. rewrite length_fmap in Hl1, Hl2.
  destruct (lookup_lt_is_Some_2 row t Ht) as [p Hp].
  destruct (lookup_lt_is_Some_2 mn t) as [m Hm]; [lia|].
  destruct (lookup_lt_is_Some_2 mx t) as [M HM]; [lia|].
  set (x := cell_coordinate cell_size p).
  assert ((cell_coordinate cell_size <$> row) !! t = Some x) as Hx
    by (by rewrite list_lookup_fmap, Hp).
  destruct (Hinv t m M x Hm HM Hx) as [Hlo Hhi].
  rewrite decide_False in Hlo, Hhi by lia.
  exists (if x <? m then <[t := x]> mn' else mn',
          if x >? M then <[t := x]> mx' else mx').
  split.
  - unfold update_range. rewrite (getitem2_nat _ _ _ _ _ Hi Hp). simpl_result.
    fold x. rewrite (getitem_nat _ _ _ Hlo). simpl_result.
    assert ((if x <? m then setitem mn' (Z.of_nat t) x else Ok mn')
            = Ok (if x <? m then <[t := x]> mn' else mn')) as ->.
    { destruct (x <? m); [apply setitem_nat; lia | done]. }
    simpl_result.
    rewrite (getitem_nat _ _ _ Hhi). simpl_result.
    assert ((if x >? M then setitem mx' (Z.of_nat t) x else Ok mx')
            = Ok (if x >? M then <[t := x]> mx' else mx')) as ->.
    { destruct (x >? M); [apply setitem_nat; lia | done]. }
    done.
  - split_and!.
    + rewrite length_fmap. destruct (x <? m); by rewrite ?length_insert.
    + rewrite length_fmap. destruct (x >? M); by rewrite ?length_insert.
    + intros j m' M' x' Hm' HM' Hx'.
      destruct (Hinv j m' M' x' Hm' HM' Hx') as [Hlo' Hhi'].
      destruct (decide (j = t)) as [->|Hne].
      * assert (m' = m) as -> by congruence.
        assert (M' = M) as -> by congruence.
        assert (x' = x) as -> by congruence.
        rewrite !decide_True by lia. split.
        -- destruct (Z.ltb_spec x m).
           ++ rewrite list_lookup_insert_eq by lia. f_equal. lia.
           ++ rewrite Hlo. f_equal. lia.
        -- destruct (Z.gtb_spec x M).
           ++ rewrite list_lookup_insert_eq by lia. f_equal. lia.
           ++ rewrite Hhi. f_equal. lia.
      * assert ((if x <? m then <[t := x]> mn' else mn') !! j = mn' !! j) as ->.
        { destruct (x <? m); [by apply list_lookup_insert_ne | done]. }
        assert ((if x >? M then <[t := x]> mx' else mx') !! j = mx' !! j) as ->.
        { destruct (x >? M); [by apply list_lookup_insert_ne | done]. }
        rewrite Hlo', Hhi'.
        destruct (decide (j < t)%nat), (decide (j < S t)%nat); try done; lia.
Qed.

Lemma update_range_row (points : points_t) cell_size (i : nat) row mn mx :
  points !! i = Some row →
  length mn = length row → length mx = length row →
  foldM (update_range points cell_size (Z.of_nat i))
        (range 0 (Z.of_nat (length row))) (mn, mx)
  = Ok (zip_with Z.min mn (coordinates cell_size row),
        zip_with Z.max mx (coordinates cell_size row)).
Proof.
  intros Hi Hmn Hmx.
  destruct (foldM_invariant (ranges_upto mn mx (coordinates cell_size row))
              (update_range points cell_size (Z.of_nat i))
              (range 0 (Z.of_nat (length row))) (mn, mx)) as ([mn' mx'] & Hf & Hp).
  - unfold ranges_upto, coordinates. rewrite length_fmap. split_and!; [done..|].
    intros j m M x Hm HM Hx. by rewrite !decide_False by lia.
  - intros k state x Hk Hst. rewrite range_0 in Hk.
    rewrite list_lookup_fmap in Hk.
    destruct (seq 0 (length row) !! k) as [k'|] eqn:Hs; [|done].
    apply lookup_seq in Hs as [-> Hlt]. simpl in Hk. injection Hk as <-.
    by eapply update_range_step.
  - rewrite Hf. f_equal.
    rewrite range_0, length_fmap, length_seq in Hp.
    destruct Hp as (Hl1 & Hl2 & Hinv).
    unfold coordinates in *. rewrite length_fmap in Hl1, Hl2.
    f_equal; apply list_eq; intros j; rewrite lookup_zip_with.
    + destruct (decide (j < length row)%nat) as [Hj|Hj].
      * destruct (lookup_lt_is_Some_2 row j Hj) as [p Hp].
        destruct (lookup_lt_is_Some_2 mn j) as [m Hm]; [lia|].
        destruct (lookup_lt_is_Some_2 mx j) as [M HM]; [lia|].
        destruct (Hinv j m M (cell_coordinate cell_size p) Hm HM) as [-> _].
        { by rewrite list_lookup_fmap, Hp. }
        rewrite decide_True by done.
        rewrite Hm, list_lookup_fmap, Hp. done.
      * rewrite (lookup_ge_None_2 mn'), (lookup_ge_None_2 mn) by lia. done.
    + destruct (decide (j < length row)%nat) as [Hj|Hj].
      * destruct (lookup_lt_is_Some_2 row j Hj) as [p Hp].
        destruct (lookup_lt_is_Some_2 mn j) as [m Hm]; [lia|].
        destruct (lookup_lt_is_Some_2 mx j) as [M HM]; [lia|].
        destruct (Hinv j m M (cell_coordinate cell_size p) Hm HM) as [_ ->].
        { by rewrite list_lookup_fmap, Hp. }
        rewrite decide_True by done.
        rewrite HM, list_lookup_fmap, Hp. done.
      * rewrite (lookup_ge_None_2 mx'), (lookup_ge_None_2 mx) by lia. done.
Qed.

Lemma length_foldl_zip_with (f : Z → Z → Z) (D : nat) X : ∀ r : list Z,
  length r = D → Forall (fun xs => length xs = D) X →
  length (foldl (zip_with f) r X) = D.
Proof.
  induction X as [|xs X IH]; intros r Hr HX; [done|].
  apply Forall_cons in HX as [Hxs HX]. simpl. apply IH; [|done].
  rewrite length_zip_with. lia.
Qed.

Lemma index_ranges_spec (points : points_t) cell_size (D : nat) :
  points ≠ [] → Forall (fun row => length row = D) points →
  index_ranges points cell_size (Z.of_nat (length points)) (dimensions_of points)
  = Ok (lowest (coordinates cell_size <$> points),
        highest (coordinates cell_size <$> points)).
Proof.
  destruct points as [|r0 rest]; [done|]. intros _ Hrect.
  apply Forall_cons in Hrect as [Hr0 Hrest].
  unfold index_ranges. rewrite (getitem_Z (r0 :: rest) 0 r0) by done.
  simpl_result. cbn [dimensions_of lowest highest fmap list_fmap].
  change (list_fmap _ _ (coordinates cell_size) rest) with (coordinates cell_size <$> rest).
  fold (coordinates cell_size r0).
  set (xs0 := coordinates cell_size r0).
  set (X := coordinates cell_size <$> rest).
  assert (Forall (fun xs => length xs = D) X) as HX.
  { apply Forall_fmap. eapply Forall_impl; [exact Hrest|].
    intros row Hrow. simpl. unfold coordinates. by rewrite length_fmap. }
  assert (length xs0 = D) as Hxs0 by (unfold xs0, coordinates; by rewrite length_fmap).
  rewrite length_cons.
  change 1 with (Z.of_nat 1). change (S (length rest)) with (1 + length rest)%nat.
  rewrite range_nat.
  destruct (foldM_invariant
    (fun k state => state = (foldl (zip_with Z.min) xs0 (take k X),
                             foldl (zip_with Z.max) xs0 (take k X)))
    (fun ranges i => foldM (update_range (r0 :: rest) cell_size i)
                       (range 0 (Z.of_nat (length r0))) ranges)
    (Z.of_nat <$> seq 1 (length rest)) (xs0, xs0)) as (state & Hf & Hp).
  - done.
  - intros k state i Hk ->.
    rewrite list_lookup_fmap in Hk.
    destruct (seq 1 (length rest) !! k) as [i'|] eqn:Hs; [|done].
    apply lookup_seq in Hs as [-> Hlt]. simpl in Hk. injection Hk as <-.
    destruct (lookup_lt_is_Some_2 rest k Hlt) as [row Hrow].
    assert (length row = D) as HrowD.
    { eapply (proj1 (Forall_lookup _ _) Hrest); done. }
    eexists. split.
    + replace (length r0) with (length row) by lia.
      apply (update_range_row (r0 :: rest) cell_size (1 + k) row); [done| |].
      * rewrite HrowD. apply length_foldl_zip_with; [done|]. by apply Forall_take.
      * rewrite HrowD. apply length_foldl_zip_with; [done|]. by apply Forall_take.
    + assert (X !! k = Some (coordinates cell_size row)) as HXk.
      { unfold X. by rewrite list_lookup_fmap, Hrow. }
      rewrite (take_S_r _ _ _ HXk), !foldl_app. done.
  - rewrite Hf, Hp. rewrite length_fmap, length_seq.
    rewrite take_ge; [done|]. unfold X. rewrite length_fmap. lia.
Qed.

Lemma foldl_min_lookup X : ∀ (r : list Z) j m,
  foldl (zip_with Z.min) r X !! j = Some m →
  (∃ x0, r !! j = Some x0 ∧ m ≤ x0) ∧
  (∀ xs x, xs ∈ X → xs !! j = Some x → m ≤ x) ∧
  (r !! j = Some m ∨ ∃ xs, xs ∈ X ∧ xs !! j = Some m).
Proof.
  induction X as [|xs X IH]; intros r j m H.
  - simpl in H. split_and!; [exists m; split; [done|lia] | | by left].
    intros xs x Hxs. by apply elem_of_nil in Hxs.
  - simpl in H. destruct (IH _ _ _ H) as ((x0 & Hx0 & Hle) & Hall & Hatt).
    apply lookup_zip_with_Some in Hx0 as (a & b & -> & Ha & Hb).
    split_and!.
    + exists a. split; [done|lia].
    + intros ys y [->|Hys]%elem_of_cons Hy.
      * assert (y = b) as -> by congruence. lia.
      * by eapply Hall.
    + destruct Hatt as [Hatt|(ys & Hys & Hy)].
      * apply lookup_zip_with_Some in Hatt as (a' & b' & Hm & Ha' & Hb').
        assert (a' = a) as -> by congruence. assert (b' = b) as -> by congruence.
        destruct (Z.min_spec a b) as [[_ Hmin]|[_ Hmin]].
        -- left. congruence.
        -- right. exists xs. split; [left | congruence].
      * right. exists ys. split; [by right | done].
Qed.

Lemma foldl_max_lookup X : ∀ (r : list Z) j m,
  foldl (zip_with Z.max) r X !! j = Some m →
  (∃ x0, r !! j = Some x0 ∧ x0 ≤ m) ∧
  (∀ xs x, xs ∈ X → xs !! j = Some x → x ≤ m) ∧
  (r !! j = Some m ∨ ∃ xs, xs ∈ X ∧ xs !! j = Some m).
Proof.
  induction X as [|xs X IH]; intros r j m H.
  - simpl in H. split_and!; [exists m; split; [done|lia] | | by left].
    intros xs x Hxs. by apply elem_of_nil in Hxs.
  - simpl in H. destruct (IH _ _ _ H) as ((x0 & Hx0 & Hle) & Hall & Hatt).
    apply lookup_zip_with_Some in Hx0 as (a & b & -> & Ha & Hb).
    split_and!.
    + exists a. split; [done|lia].
    + intros ys y [->|Hys]%elem_of_cons Hy.
      * assert (y = b) as -> by congruence. lia.
      * by eapply Hall.
    + destruct Hatt as [Hatt|(ys & Hys & Hy)].
      * apply lookup_zip_with_Some in Hatt as (a' & b' & Hm & Ha' & Hb').
        assert (a' = a) as -> by congruence. assert (b' = b) as -> by congruence.
        destruct (Z.max_spec a b) as [[_ Hmax]|[_ Hmax]].
        -- right. exists xs. split; [left | congruence].
        -- left. congruence.
      * right. exists ys. split; [by right | done].
Qed.

(** [lowest] and [highest] are the least and the greatest coordinate of
    every dimension. *)
Lemma lowest_spec (X : list (list Z)) j m :
  lowest X !! j = Some m →
  (∀ xs x, xs ∈ X → xs !! j = Some x → m ≤ x) ∧
  (∃ xs, xs ∈ X ∧ xs !! j = Some m).
Proof.
  destruct X as [|r X]; [done|]. simpl. intros H.
  destruct (foldl_min_lookup _ _ _ _ H) as ((x0 & Hx0 & Hle) & Hall & Hatt). split.
  - intros xs x [->|Hxs]%elem_of_cons Hx.
    + assert (x = x0) as -> by congruence. done.
    + by eapply Hall.
  - destruct Hatt as [Hatt|(xs & Hxs & Hm)].
    + exists r. split; [left | done].
    + exists xs. split; [by right | done].
Qed.

Lemma highest_spec (X : list (list Z)) j m :
  highest X !! j = Some m →
  (∀ xs x, xs ∈ X → xs !! j = Some x → x ≤ m) ∧
  (∃ xs, xs ∈ X ∧ xs !! j = Some m).
Proof.
  destruct X as [|r X]; [done|]. simpl. intros H.
  destruct (foldl_max_lookup _ _ _ _ H) as ((x0 & Hx0 & Hle) & Hall & Hatt). split.
  - intros xs x [->|Hxs]%elem_of_cons Hx.
    + assert (x = x0) as -> by congruence. done.
    + by eapply Hall.
  - destruct Hatt as [Hatt|(xs & Hxs & Hm)].
    + exists r. split; [left | done].
    + exists xs. split; [by right | done].
Qed.

Lemma length_lowest (X : list (list Z)) D :
  X ≠ [] → Forall (fun xs => length xs = D) X → length (lowest X) = D.
Proof.
  destruct X as [|r X]; [done|]. intros _ [Hr HX]%Forall_cons.
  by apply length_foldl_zip_with.
Qed.

Lemma length_highest (X : list (list Z)) D :
  X ≠ [] → Forall (fun xs => length xs = D) X → length (highest X) = D.
Proof.
  destruct X as [|r X]; [done|]. intros _ [Hr HX]%Forall_cons.
  by apply length_foldl_zip_with.
Qed.

Lemma length_extent (X : list (list Z)) D :
  X ≠ [] → Forall (fun xs => length xs = D) X → length (extent X) = D.
Proof.
  intros H0 HX. unfold extent.
  rewrite length_zip_with, (length_lowest X D), (length_highest X D) by done. lia.
Qed.

(** Every coordinate lies between the bounds of its dimension, and the
    grid has at least three cells in every dimension. *)
Lemma coordinate_bounds (X : list (list Z)) D xs j x :
  Forall (fun xs => length xs = D) X → xs ∈ X → xs !! j = Some x →
  ∃ lo hi, lowest X !! j = Some lo ∧ highest X !! j = Some hi ∧
           extent X !! j = Some (hi - lo + 3) ∧ lo ≤ x ≤ hi.
Proof.
  intros HX Hxs Hx.
  assert (X ≠ []) as H0 by (intros ->; by apply elem_of_nil in Hxs).
  assert (j < D)%nat as Hj.
  { rewrite <- (proj1 (Forall_forall _ _) HX xs Hxs). by eapply lookup_lt_Some. }
  destruct (lookup_lt_is_Some_2 (lowest X) j) as [lo Hlo].
  { by rewrite (length_lowest X D). }
  destruct (lookup_lt_is_Some_2 (highest X) j) as [hi Hhi].
  { by rewrite (length_highest X D). }
  exists lo, hi. split_and!; [done..| | |].
  - unfold extent. apply lookup_zip_with_Some. by exists hi, lo.
  - by eapply (proj1 (lowest_spec X j lo Hlo)).
  - by eapply (proj1 (highest_spec X j hi Hhi)).
Qed.

Lemma extent_ge_3 (X : list (list Z)) D n :
  Forall (fun xs => length xs = D) X → n ∈ extent X → 3 ≤ n.
Proof.
  intros HX [j Hj]%list_elem_of_lookup.
  unfold extent in Hj.
  apply lookup_zip_with_Some in Hj as (hi & lo & -> & Hhi & Hlo).
  destruct (proj2 (lowest_spec X j lo Hlo)) as (xs & Hxs & Hx).
  destruct (coordinate_bounds X D xs j lo HX Hxs Hx) as (lo' & hi' & ? & ? & _ & ?).
  assert (lo' = lo) as -> by congruence. assert (hi' = hi) as -> by congruence. lia.
Qed.

(** ** The shape and the size of the grid *)

Lemma product_Z_cons x a : product_Z (x :: a) = x * product_Z a.
Proof. reflexivity. Qed.

Lemma product_Z_app a b : product_Z (a ++ b) = product_Z a * product_Z b.
Proof.
  induction a as [|x a IH]; [unfold product_Z; simpl; lia|].
  rewrite <- app_comm_cons, !product_Z_cons, IH. lia.
Qed.

Lemma product_Z_pos a : Forall (fun n => 1 ≤ n) a → 1 ≤ product_Z a.
Proof.
  induction 1 as [|x a Hx _ IH]; [done|]. rewrite product_Z_cons. nia.
Qed.

Lemma product_Z_take_le a t :
  Forall (fun n => 1 ≤ n) a → product_Z (take t a) ≤ product_Z a.
Proof.
  intros Ha. rewrite <- (take_drop t a) at 2. rewrite product_Z_app.
  pose proof (product_Z_pos (take t a) (Forall_take _ _ _ Ha)).
  pose proof (product_Z_pos (drop t a) (Forall_drop _ _ _ Ha)). nia.
Qed.

Lemma elem_le_product_Z a n :
  Forall (fun n => 1 ≤ n) a → n ∈ a → n ≤ product_Z a.
Proof.
  intros Ha [j Hj]%list_elem_of_lookup.
  rewrite <- (take_drop_middle a j n Hj), product_Z_app, product_Z_cons.
  pose proof (product_Z_pos (take j a) (Forall_take _ _ _ Ha)).
  pose proof (product_Z_pos (drop (S j) a) (Forall_drop _ _ _ Ha)).
  assert (1 ≤ n) by (eapply (proj1 (Forall_lookup _ _) Ha); done).
  set (pt := product_Z (take j a)) in *. set (pd := product_Z (drop (S j) a)) in *.
  assert (n ≤ n * pd) by nia. assert (n * pd ≤ pt * (n * pd)) by nia. lia.
Qed.

Lemma np_prod_from a : ∀ p,
  1 ≤ p → Forall (fun n => 1 ≤ n) a → p * product_Z a ≤ int64_max →
  fold_left (fun p x => wrap64 (p * x)) a p = p * product_Z a.
Proof.
  induction a as [|x a IH]; intros p Hp Ha Hmax.
  - unfold product_Z. simpl. lia.
  - apply Forall_cons in Ha as [Hx Ha]. rewrite product_Z_cons in *.
    pose proof (product_Z_pos a Ha). simpl.
    rewrite wrap64_id by (rewrite int64_min_eq; nia).
    rewrite IH; [lia | nia | done | lia].
Qed.

Lemma np_prod_spec a :
  Forall (fun n => 1 ≤ n) a → product_Z a ≤ int64_max → np_prod a = product_Z a.
Proof.
  intros Ha Hmax. unfold np_prod. rewrite np_prod_from; [lia.. | done | lia].
Qed.

(** ** Mixed-radix numbers *)

Lemma mix_snoc l dns d n : mix l (dns ++ [(d, n)]) = mix l dns * n + d.
Proof. unfold mix. by rewrite fold_left_app. Qed.

Lemma mix_cons l d n dns : mix l ((d, n) :: dns) = mix (l * n + d) dns.
Proof. reflexivity. Qed.

Lemma mix_bounds dns : ∀ l P,
  0 ≤ l < P → Forall (fun dn => 0 ≤ dn.1 < dn.2) dns →
  0 ≤ mix l dns < P * product_Z (dns.*2).
Proof.
  induction dns as [|[d n] dns IH]; intros l P Hl Hd.
  - unfold product_Z. simpl. lia.
  - apply Forall_cons in Hd as [Hdn Hd]. simpl in Hdn.
    rewrite mix_cons, fmap_cons, product_Z_cons. simpl.
    replace (P * (n * product_Z (dns.*2))) with ((P * n) * product_Z (dns.*2)) by lia.
    apply IH; [nia | done].
Qed.

(** ** The cells of the points *)

Section located.
Variable points : points_t.
Variable cell_size : float.
Variable D : nat.
Hypothesis points_nonempty : points ≠ [].
Hypothesis rectangular : Forall (fun row => length row = D) points.
Hypothesis dimensions_pos : (0 < D)%nat.
Hypothesis fits : fits_int64 points cell_size.

Local Abbreviation X := (coordinates cell_size <$> points).

Lemma X_nonempty : X ≠ [].
Proof. generalize points_nonempty. generalize points. by intros [|r0 rest]. Qed.

Lemma X_rectangular : Forall (fun xs => length xs = D) X.
Proof.
  apply Forall_fmap. eapply Forall_impl; [exact rectangular|].
  intros row Hrow. simpl. unfold coordinates. by rewrite length_fmap.
Qed.

Lemma extent_ge_1 : Forall (fun n => 1 ≤ n) (extent X).
Proof.
  apply Forall_forall. intros n Hn.
  pose proof (extent_ge_3 X D n X_rectangular Hn). lia.
Qed.

Lemma dimensions_of_points : dimensions_of points = Z.of_nat D.
Proof.
  generalize rectangular points_nonempty. generalize points.
  intros [|r0 rest] Hr Hne; [done|].
  apply Forall_cons in Hr as [<- _]. done.
Qed.

Lemma shape_of_spec : shape_of (lowest X) (highest X) = extent X.
Proof.
  unfold shape_of, extent. apply list_eq. intros j.
  rewrite !lookup_zip_with.
  destruct (highest X !! j) as [hi|] eqn:Hhi; [|done].
  destruct (lowest X !! j) as [lo|] eqn:Hlo; [|done]. simpl. f_equal.
  assert (hi - lo + 3 ∈ extent X) as Hin.
  { apply list_elem_of_lookup. exists j. unfold extent.
    apply lookup_zip_with_Some. by exists hi, lo. }
  pose proof (extent_ge_3 X D _ X_rectangular Hin).
  pose proof (elem_le_product_Z _ _ extent_ge_1 Hin).
  destruct fits as [_ Hmax]. rewrite int64_max_eq in Hmax.
  unwrap (hi - lo). unwrap (hi - lo + 1). unwrap (hi - lo + 1 + 2). lia.
Qed.

Lemma grid_size_spec : np_prod (extent X) = product_Z (extent X).
Proof. apply np_prod_spec; [apply extent_ge_1 | apply fits]. Qed.

Section point.
Variable i : nat.
Variable row : list float.
Hypothesis Hrow : points !! i = Some row.

Local Abbreviation xs := (coordinates cell_size row).
Local Abbreviation digits := (normalized_coordinates (lowest X) xs).

Lemma xs_in_X : xs ∈ X.
Proof. apply list_elem_of_fmap_2. by eapply list_elem_of_lookup_2. Qed.

Lemma length_row : length row = D.
Proof. by eapply (proj1 (Forall_lookup _ _) rectangular). Qed.

Lemma length_digits : length digits = D.
Proof.
  unfold normalized_coordinates. rewrite length_zip_with.
  rewrite (length_lowest X D X_nonempty X_rectangular).
  unfold coordinates at 1. rewrite length_fmap, length_row. lia.
Qed.

(** A normalised coordinate lies inside the grid, off the ghost cells. *)
Lemma digit_bounds j d :
  digits !! j = Some d → ∃ n, extent X !! j = Some n ∧ 1 ≤ d ≤ n - 2.
Proof.
  intros Hd. unfold normalized_coordinates in Hd.
  apply lookup_zip_with_Some in Hd as (x & lo & -> & Hx & Hlo).
  destruct (coordinate_bounds X D xs j x X_rectangular xs_in_X Hx)
    as (lo' & hi & Hlo' & Hhi & Hn & Hb).
  assert (lo' = lo) as -> by congruence.
  exists (hi - lo + 3). split; [done | lia].
Qed.

Lemma normalized_spec (j : nat) d :
  digits !! j = Some d →
  normalized points cell_size (lowest X) (Z.of_nat i) (Z.of_nat j) = Ok d.
Proof.
  intros Hd. destruct (digit_bounds j d Hd) as (n & Hn & Hb).
  unfold normalized_coordinates in Hd.
  apply lookup_zip_with_Some in Hd as (x & lo & -> & Hx & Hlo).
  unfold coordinates in Hx. rewrite list_lookup_fmap in Hx.
  destruct (row !! j) as [p|] eqn:Hp; [|done]. simpl in Hx. injection Hx as <-.
  unfold normalized. rewrite (getitem2_nat _ _ _ _ _ Hrow Hp). simpl_result.
  rewrite (getitem_nat _ _ _ Hlo). simpl_result.
  assert (n ≤ int64_max) as Hmax.
  { etrans; [|apply fits]. apply elem_le_product_Z; [apply extent_ge_1|].
    by eapply list_elem_of_lookup_2. }
  rewrite int64_max_eq in Hmax.
  set (x := cell_coordinate cell_size p) in *.
  unwrap (x - lo). unwrap (x - lo + 1). done.
Qed.

Lemma cell_id_bounds : 0 ≤ cell_id X xs < product_Z (extent X).
Proof.
  unfold cell_id, flat_index.
  pose proof length_digits as Hld.
  pose proof (length_extent X D X_nonempty X_rectangular) as Hle.
  destruct digits as [|d0 ds] eqn:Ed; [simpl in Hld; lia|].
  destruct (extent X) as [|n0 ns] eqn:En; [simpl in Hle; lia|].
  simpl tail. rewrite product_Z_cons.
  assert (snd <$> zip ds ns = ns) as Hsnd.
  { apply snd_zip. simpl in Hld, Hle. lia. }
  pose proof (mix_bounds (zip ds ns) d0 n0) as Hmix. rewrite Hsnd in Hmix.
  apply Hmix.
  - destruct (digit_bounds 0 d0) as (n & Hn & Hb); [by rewrite Ed|].
    rewrite En in Hn. simpl in Hn. injection Hn as ->. lia.
  - apply Forall_lookup. intros t [d n] Ht.
    apply lookup_zip_with_Some in Ht as (d' & n' & [= <- <-] & Hd & Hn).
    destruct (digit_bounds (S t) d) as (n' & Hn' & Hb); [by rewrite Ed|].
    rewrite En in Hn'. simpl in Hn'. assert (n' = n) as -> by congruence.
    simpl. lia.
Qed.

Lemma cell_of_point_spec :
  cell_of_point points cell_size (lowest X) (extent X) (Z.of_nat D) (Z.of_nat i)
  = Ok (cell_id X xs).
Proof.
  unfold cell_id, flat_index.
  pose proof length_digits as Hld.
  pose proof (length_extent X D X_nonempty X_rectangular) as Hle.
  pose proof normalized_spec as Hnorm. pose proof digit_bounds as Hdb.
  destruct digits as [|d0 ds] eqn:Ed; [simpl in Hld; lia|].
  pose proof extent_ge_1 as Hge1.
  destruct fits as [_ Hmax]. rewrite int64_max_eq in Hmax.
  destruct (extent X) as [|n0 ns] eqn:En; [simpl in Hle; lia|].
  simpl tail. simpl in Hld, Hle.
  apply Forall_cons in Hge1 as [Hn0 Hns]. rewrite product_Z_cons in Hmax.
  unfold cell_of_point.
  change 0 with (Z.of_nat 0). rewrite (Hnorm 0%nat d0) by done. simpl_result.
  replace (Z.of_nat D) with (Z.of_nat (1 + (D - 1))) by lia.
  change 1 with (Z.of_nat 1). rewrite range_nat.
  set (dns := zip ds ns).
  assert (Forall (fun dn => 0 ≤ dn.1 < dn.2) dns) as Hdns.
  { apply Forall_lookup. intros t [d n] Ht.
    apply lookup_zip_with_Some in Ht as (d' & n' & [= <- <-] & Hd & Hn).
    destruct (Hdb (S t) d Hd) as (n' & Hn' & Hb).
    simpl in Hn'. assert (n' = n) as -> by congruence. simpl. lia. }
  assert (0 ≤ d0 < n0) as Hd0.
  { destruct (Hdb 0%nat d0 eq_refl) as (n & [= ->] & Hb). lia. }
  assert (∀ t, 0 ≤ mix d0 (take t dns) < n0 * product_Z ns) as Hbound.
  { intros t.
    pose proof (mix_bounds (take t dns) d0 n0 Hd0 (Forall_take _ _ _ Hdns)) as Hb.
    rewrite fmap_take in Hb.
    replace (dns.*2) with ns in Hb by (symmetry; apply snd_zip; lia).
    pose proof (product_Z_take_le ns t Hns). nia. }
  destruct (foldM_invariant (fun t l => l = mix d0 (take t dns))
    (fun l j =>
       n ← getitem (n0 :: ns) j;
       c ← normalized points cell_size (lowest X) (Z.of_nat i) j;
       Ok (wrap64 (wrap64 (l * n) + c)))
    (Z.of_nat <$> seq 1 (D - 1)) d0) as (l & Hf & Hl).
  - done.
  - intros t l j Hj ->. rewrite list_lookup_fmap in Hj.
    destruct (seq 1 (D - 1) !! t) as [j'|] eqn:Hs; [|done].
    apply lookup_seq in Hs as [-> Hlt]. simpl in Hj. injection Hj as <-.
    destruct (lookup_lt_is_Some_2 ds t) as [d Hd]; [lia|].
    destruct (lookup_lt_is_Some_2 ns t) as [n Hn]; [lia|].
    assert (dns !! t = Some (d, n)) as Hdn.
    { apply lookup_zip_with_Some. by exists d, n. }
    exists (mix d0 (take (S t) dns)). split; [|done].
    rewrite (getitem_nat (n0 :: ns) (S t) n) by done. simpl_result.
    rewrite (Hnorm (S t) d) by done. simpl_result.
    rewrite (take_S_r _ _ _ Hdn), mix_snoc. f_equal.
    pose proof (Hbound t) as Hbt. pose proof (Hbound (S t)) as HbS.
    rewrite (take_S_r _ _ _ Hdn), mix_snoc in HbS.
    set (l := mix d0 (take t dns)) in *.
    assert (1 ≤ n) by (eapply (proj1 (Forall_lookup _ _) Hns); done).
    assert (1 ≤ d).
    { destruct (Hdb (S t) d Hd) as (n' & _ & Hb). lia. }
    assert (0 ≤ l * n) by nia.
    unwrap (l * n). unwrap (l * n + d). done.
  - rewrite length_fmap, length_seq in Hl.
    replace (foldM _ _ d0) with (Ok (A:=Z) l).
    rewrite Hl, take_ge; [done|]. unfold dns. rewrite length_zip_with. lia.
Qed.
End point.

Local Abbreviation cells := (cell_id X <$> X).
Local Abbreviation G := (Z.to_nat (product_Z (extent X))).

Lemma locate_points_spec :
  locate_points points cell_size = Ok (lowest X, extent X, cells).
Proof.
  unfold locate_points.
  rewrite (index_ranges_spec points cell_size D points_nonempty rectangular).
  simpl_result. rewrite shape_of_spec, dimensions_of_points.
  rewrite range_0.
  rewrite (mapM_Ok _ (fun i =>
    cell_id X (coordinates cell_size (default [] (points !! Z.to_nat i))))).
  - simpl_result. do 2 f_equal. apply list_eq. intros i.
    rewrite !list_lookup_fmap.
    destruct (points !! i) as [row|] eqn:Hrow.
    + rewrite lookup_seq_lt by (by eapply lookup_lt_Some). simpl.
      by rewrite Nat2Z.id, Hrow.
    + rewrite lookup_seq_ge; [done|]. by apply lookup_ge_None.
  - intros x (i & -> & Hi%elem_of_seq)%list_elem_of_fmap.
    destruct (lookup_lt_is_Some_2 points i) as [row Hrow]; [lia|].
    rewrite Nat2Z.id, Hrow. simpl. by apply cell_of_point_spec.
Qed.

Lemma cell_ids_in_grid l : l ∈ cells → 0 ≤ l < Z.of_nat G.
Proof.
  intros (xs & -> & (row & -> & Hrow)%list_elem_of_fmap)%list_elem_of_fmap.
  apply list_elem_of_lookup in Hrow as [i Hi].
  pose proof (cell_id_bounds i row Hi). lia.
Qed.

Lemma length_cells : length cells = length points.
Proof. by rewrite !length_fmap. Qed.

Lemma add_to_cells_spec uninit :
  float_pos cell_size = true →
  ∃ points_indices cells_offset,
    add_to_cells uninit points cell_size
    = Ok (points_indices, counts_of cells G, cells_offset, extent X) ∧
    placed cells G (length cells) (points_indices, cells_offset).
Proof.
  intros Hpos. unfold add_to_cells. rewrite Hpos. cbn [negb].
  rewrite locate_points_spec. simpl_result.
  rewrite grid_size_spec.
  pose proof (product_Z_pos _ extent_ge_1) as HG.
  destruct fits as [HN _].
  assert (count_cells cells (product_Z (extent X)) = Ok (counts_of cells G)) as ->.
  { rewrite <- (count_cells_spec cells G).
    - f_equal. lia.
    - apply cell_ids_in_grid.
    - by rewrite length_cells. }
  simpl_result. unfold np_empty.
  destruct (Z.ltb_spec (Z.of_nat (length points)) 0); [lia|]. simpl_result.
  destruct (place_points_spec cells G cell_ids_in_grid
              ltac:(by rewrite length_cells)
              (uninit <$> seq 0 (Z.to_nat (Z.of_nat (length points)))))
    as (pi & co & Hf & Hp).
  { by rewrite length_fmap, length_seq, Nat2Z.id, length_cells. }
  exists pi, co. split; [|done]. by rewrite Hf.
Qed.
End located.

(** ** The Cartesian product *)

Lemma product_S n base :
  product (S n) base = base ≫= (fun x => cons x <$> product n base).
Proof. reflexivity. Qed.

Lemma length_bind_const {A B} (f : A → list B) (l : list A) (k : nat) :
  (∀ x, x ∈ l → length (f x) = k) → length (l ≫= f) = (length l * k)%nat.
Proof.
  induction l as [|x l IH]; intros H; [done|].
  rewrite bind_cons, length_app, IH, (H x) by (intros; apply H; by right) || by left.
  simpl. lia.
Qed.

Lemma length_product n base :
  length (product n base) = (length base ^ n)%nat.
Proof.
  induction n as [|n IH]; [done|].
  rewrite product_S, (length_bind_const _ _ (length base ^ n)%nat).
  - simpl. lia.
  - intros x _. by rewrite length_fmap.
Qed.

Lemma elem_of_product n base delta :
  delta ∈ product n base ↔ length delta = n ∧ Forall (fun x => x ∈ base) delta.
Proof.
  revert delta. induction n as [|n IH]; intros delta.
  - simpl. rewrite list_elem_of_singleton. split.
    + intros ->. by split.
    + intros [Hl _]. by apply nil_length_inv.
  - rewrite product_S, list_elem_of_bind. split.
    + intros (x & (tl & -> & Htl)%list_elem_of_fmap & Hx).
      apply IH in Htl as [Hl Hall]. split; [simpl; lia | by constructor].
    + intros [Hl Hall]. destruct delta as [|x tl]; [done|].
      apply Forall_cons in Hall as [Hx Htl]. exists x. split; [|done].
      apply list_elem_of_fmap_2, IH. split; [simpl in Hl; lia | done].
Qed.

Lemma NoDup_product n base : NoDup base → NoDup (product n base).
Proof.
  intros Hb. induction n as [|n IH]; [apply NoDup_singleton|].
  rewrite product_S. apply NoDup_bind; [| |done].
  - intros x1 x2 y _ _ (t1 & -> & _)%list_elem_of_fmap (t2 & [= -> _] & _)%list_elem_of_fmap.
    done.
  - intros x _. apply NoDup_fmap_2; [|done]. by intros ?? [=].
Qed.

Lemma reverse_bind {A B} (f : A → list B) (l : list A) :
  reverse (l ≫= f) = reverse l ≫= (fun x => reverse (f x)).
Proof.
  induction l as [|x l IH]; [done|].
  rewrite bind_cons, reverse_app, IH, reverse_cons, bind_app, bind_singleton. done.
Qed.

Lemma bind_negate (P : list (list Z)) (l : list Z) :
  reverse P = negate <$> P →
  l ≫= (fun x => reverse (cons (- x) <$> P))
  = negate <$> (l ≫= fun x => cons x <$> P).
Proof.
  intros HP. induction l as [|y l IH]; [done|].
  rewrite !bind_cons, fmap_app, IH. f_equal.
  rewrite <- fmap_reverse, HP, <- !list_fmap_compose.
  apply list_fmap_ext. intros _ t _. reflexivity.
Qed.

(** Reading the product backwards negates its tuples. *)
Lemma reverse_product n base :
  reverse base = Z.opp <$> base →
  reverse (product n base) = negate <$> product n base.
Proof.
  intros Hb. induction n as [|n IH]; [done|].
  rewrite product_S, reverse_bind, Hb, list_fmap_bind.
  by apply bind_negate.
Qed.

Lemma elem_of_range lo hi x : x ∈ range lo hi ↔ lo ≤ x < hi.
Proof. unfold range. rewrite elem_of_seqZ. lia. Qed.

Lemma length_range lo hi : length (range lo hi) = Z.to_nat (hi - lo).
Proof. apply length_seqZ. Qed.

Lemma reverse_range_symmetric d :
  reverse (range (- d) (d + 1)) = Z.opp <$> range (- d) (d + 1).
Proof.
  apply list_eq. intros i. rewrite list_lookup_fmap.
  destruct (decide (i < length (range (- d) (d + 1)))%nat) as [Hi|Hi].
  - rewrite reverse_lookup by done. rewrite length_range in *.
    unfold range. rewrite !lookup_seqZ_lt by lia. simpl. f_equal. lia.
  - rewrite (lookup_ge_None_2 (range _ _)) by lia.
    apply lookup_ge_None_2. rewrite length_reverse. lia.
Qed.

(** ** The middle of the product and its two halves *)

Lemma odd_pow (k n : nat) : ∃ m, ((2 * k + 1) ^ n = 2 * m + 1)%nat.
Proof.
  induction n as [|n [m IH]]; [by exists 0%nat|].
  exists (2 * k * m + k + m)%nat. rewrite Nat.pow_succ_r', IH. lia.
Qed.

Section halves.
Variable D : nat.
Variable distance : Z.
Hypothesis distance_pos : 1 ≤ distance.

Local Abbreviation base := (range (- distance) (distance + 1)).
Local Abbreviation prod := (product D base).
Local Abbreviation kept := (kept_tuples D distance).

Lemma length_base : length base = (2 * Z.to_nat distance + 1)%nat.
Proof. rewrite length_range. lia. Qed.

Lemma length_prod_odd : ∃ m, length prod = (2 * m + 1)%nat.
Proof. rewrite length_product, length_base. apply odd_pow. Qed.

Lemma reverse_prod : reverse prod = negate <$> prod.
Proof. apply reverse_product, reverse_range_symmetric. Qed.

Lemma NoDup_prod : NoDup prod.
Proof. apply NoDup_product, NoDup_seqZ. Qed.

Lemma elem_of_prod delta :
  delta ∈ prod ↔
  length delta = D ∧ Forall (fun x => - distance ≤ x ≤ distance) delta.
Proof.
  rewrite elem_of_product. split; intros [Hl Hall]; (split; [done|]);
    eapply Forall_impl; try exact Hall; intros x; simpl;
    rewrite elem_of_range; lia.
Qed.

(** The tuple at the mirrored position is the opposite tuple. *)
Lemma prod_mirror k delta :
  prod !! k = Some delta → prod !! (length prod - S k)%nat = Some (negate delta).
Proof.
  intros Hk. pose proof (lookup_lt_Some _ _ _ Hk) as Hlt.
  rewrite <- reverse_lookup by done.
  rewrite reverse_prod, list_lookup_fmap, Hk. done.
Qed.

Lemma negate_fixed delta : negate delta = delta → delta = replicate (length delta) 0.
Proof.
  induction delta as [|x delta IH]; [done|].
  intros [= Hx Hd]. simpl. f_equal; [lia | by apply IH].
Qed.

Lemma negate_zero n : negate (replicate n 0) = replicate n 0.
Proof. unfold negate. by rewrite fmap_replicate. Qed.

Lemma negate_involutive delta : negate (negate delta) = delta.
Proof.
  unfold negate. rewrite <- list_fmap_compose.
  rewrite <- (list_fmap_id delta) at 2. apply list_fmap_ext.
  intros _ x _. simpl. lia.
Qed.

(** The middle element of the product is the zero offset. *)
Lemma prod_middle : prod !! (length prod / 2)%nat = Some (replicate D 0).
Proof.
  destruct length_prod_odd as [m Hm].
  assert (length prod / 2 = m)%nat as ->.
  { rewrite Hm. replace (2 * m + 1)%nat with (1 + m * 2)%nat by lia.
    rewrite Nat.div_add by lia. done. }
  destruct (lookup_lt_is_Some_2 prod m) as [delta Hd]; [lia|].
  pose proof (prod_mirror m delta Hd) as Hmirror.
  replace (length prod - S m)%nat with m in Hmirror by lia.
  assert (negate delta = delta) as Hfix by congruence.
  apply negate_fixed in Hfix. rewrite Hd, Hfix. do 2 f_equal.
  apply list_elem_of_lookup_2, elem_of_prod in Hd. tauto.
Qed.

Lemma elem_of_kept delta :
  delta ∈ kept ↔ ∃ k, (length prod / 2 < k)%nat ∧ prod !! k = Some delta.
Proof.
  unfold kept_tuples. rewrite list_elem_of_lookup. split.
  - intros [i Hi]. rewrite lookup_drop in Hi. eexists. split; [|exact Hi]. lia.
  - intros (k & Hk & Hd). exists (k - (length prod / 2 + 1))%nat.
    rewrite lookup_drop. rewrite <- Hd. f_equal. lia.
Qed.

Lemma kept_in_prod delta : delta ∈ kept → delta ∈ prod.
Proof. intros (k & _ & Hk)%elem_of_kept. by eapply list_elem_of_lookup_2. Qed.

Lemma NoDup_kept : NoDup kept.
Proof.
  unfold kept_tuples. pose proof NoDup_prod as Hn.
  rewrite <- (take_drop (length prod / 2 + 1) prod) in Hn.
  by apply NoDup_app in Hn as (_ & _ & Hn).
Qed.

Lemma zero_not_kept : replicate D 0 ∉ kept.
Proof.
  intros (k & Hk & Hd)%elem_of_kept.
  pose proof (NoDup_lookup _ _ _ _ NoDup_prod Hd prod_middle). lia.
Qed.

(** Of a non-zero tuple and its opposite, exactly one is kept. *)
Lemma kept_half delta :
  delta ∈ prod → delta ≠ replicate D 0 →
  (delta ∈ kept ∧ ¬ (negate delta ∈ kept)) ∨
  (¬ (delta ∈ kept) ∧ negate delta ∈ kept).
Proof.
  intros [k Hk]%list_elem_of_lookup Hnz.
  destruct length_prod_odd as [m Hm].
  assert (length prod / 2 = m)%nat as Hhalf.
  { rewrite Hm. replace (2 * m + 1)%nat with (1 + m * 2)%nat by lia.
    rewrite Nat.div_add by lia. done. }
  pose proof (lookup_lt_Some _ _ _ Hk) as Hlt.
  pose proof (prod_mirror k delta Hk) as Hmirror.
  assert (k ≠ m) as Hkm.
  { intros ->. pose proof prod_middle as Hmid. rewrite Hhalf in Hmid. congruence. }
  destruct (decide (m < k)%nat) as [Hgt|Hle].
  - left. split.
    + apply elem_of_kept. exists k. split; [lia | done].
    + intros (k' & Hk' & Hd')%elem_of_kept.
      pose proof (NoDup_lookup _ _ _ _ NoDup_prod Hd' Hmirror). lia.
  - right. split.
    + intros (k' & Hk' & Hd')%elem_of_kept.
      pose proof (NoDup_lookup _ _ _ _ NoDup_prod Hd' Hk). lia.
    + apply elem_of_kept. eexists. split; [|exact Hmirror]. lia.
Qed.

Lemma length_kept : length kept = (length prod / 2)%nat.
Proof.
  destruct length_prod_odd as [m Hm]. unfold kept_tuples.
  rewrite length_drop.
  assert (length prod / 2 = m)%nat as ->; [|lia].
  rewrite Hm. replace (2 * m + 1)%nat with (1 + m * 2)%nat by lia.
  rewrite Nat.div_add by lia. done.
Qed.

Lemma length_kept_Z :
  Z.of_nat (length kept) = ((2 * distance + 1) ^ Z.of_nat D - 1) / 2.
Proof.
  rewrite length_kept. destruct length_prod_odd as [m Hm].
  assert ((2 * distance + 1) ^ Z.of_nat D = Z.of_nat (length prod)) as ->.
  { rewrite length_product, length_base, Nat2Z.inj_pow. f_equal. lia. }
  rewrite Hm. replace (2 * m + 1)%nat with (1 + m * 2)%nat by lia.
  rewrite Nat.div_add by lia. simpl (1 / 2)%nat.
  replace (Z.of_nat (1 + m * 2) - 1) with (Z.of_nat m * 2) by lia.
  rewrite Z.div_mul by lia. lia.
Qed.
End halves.

(** ** [neighboring_cells] *)

Lemma slice_from_1 {A} (a : list A) : slice_from a 1 = tail a.
Proof.
  unfold slice_from. change 1 with (Z.of_nat 1). rewrite resolve_bound_nat.
  by destruct a.
Qed.

Lemma flat_offset_spec grid_shape row :
  row ≠ [] → flat_offset grid_shape row = Ok (offset_of grid_shape row).
Proof.
  destruct row as [|i0 is_]; [done|]. intros _. unfold flat_offset.
  rewrite (getitem_Z _ 0 i0) by done. simpl_result.
  by rewrite !slice_from_1.
Qed.

Lemma neighboring_cells_spec grid_shape distance :
  grid_shape ≠ [] → 1 ≤ distance →
  neighboring_cells grid_shape distance
  = Ok (offset_of grid_shape <$> kept_tuples (length grid_shape) distance).
Proof.
  intros Hne Hd. unfold neighboring_cells.
  destruct (Z.leb_spec 1 distance); [|lia]. cbn [negb].
  set (prod := product (length grid_shape) (range (- distance) (distance + 1))).
  destruct (length_prod_odd (length grid_shape) distance Hd) as [m Hm].
  fold prod in Hm.
  assert (slice_from prod (Z.of_nat (length prod) / 2 + 1)
          = kept_tuples (length grid_shape) distance) as ->.
  { unfold slice_from, kept_tuples. fold prod. f_equal.
    change 2 with (Z.of_nat 2). rewrite <- Nat2Z.inj_div.
    change 1 with (Z.of_nat 1). rewrite <- Nat2Z.inj_add, resolve_bound_nat.
    assert (length prod / 2 = m)%nat as ->; [|lia].
    rewrite Hm. replace (2 * m + 1)%nat with (1 + m * 2)%nat by lia.
    rewrite Nat.div_add by lia. done. }
  pose proof (length_kept (length grid_shape) distance Hd) as Hlk. fold prod in Hlk.
  assert (3 ≤ length prod)%nat as Hl3.
  { unfold prod. rewrite length_product, length_base by done.
    destruct grid_shape as [|n0 ns]; [done|]. simpl length.
    rewrite Nat.pow_succ_r'.
    assert (1 ≤ (2 * Z.to_nat distance + 1) ^ length ns)%nat.
    { apply Nat.neq_0_lt_0, Nat.pow_nonzero. lia. }
    nia. }
  rewrite bool_decide_eq_false_2.
  - unfold _neighboring_cells. apply mapM_Ok.
    intros row Hrow%kept_in_prod%elem_of_prod.
    apply flat_offset_spec. destruct Hrow as [Hl _].
    destruct row; [|done]. destruct grid_shape; done.
  - intros Hnil. rewrite Hnil in Hlk. cbn [length] in Hlk.
    assert (length prod / 2 = m)%nat as Hhalf.
    { rewrite Hm. replace (2 * m + 1)%nat with (1 + m * 2)%nat by lia.
      rewrite Nat.div_add by lia. done. }
    lia.
Qed.

(** ** Arithmetic of the flat indices *)

(** Without overflow the offset of a tuple is its mixed-radix number. *)
Lemma wrapped_mix dns : ∀ l P,
  - P < l < P →
  Forall (fun dn => - (dn.2 - 1) ≤ dn.1 ≤ dn.2 - 1 ∧ 1 ≤ dn.2) dns →
  P * product_Z (dns.*2) ≤ int64_max →
  fold_left (fun l '(i, n) => wrap64 (wrap64 (l * n) + i)) dns l = mix l dns ∧
  - (P * product_Z (dns.*2)) < mix l dns < P * product_Z (dns.*2).
Proof.
  induction dns as [|[d n] dns IH]; intros l P Hl Hd Hmax.
  - unfold product_Z. simpl. split; [done | lia].
  - apply Forall_cons in Hd as [[Hdn Hn] Hd]. simpl in Hdn, Hn.
    rewrite fmap_cons, product_Z_cons in *. simpl in Hmax. cbn [fold_left snd].
    assert (1 ≤ product_Z (dns.*2)) as Hp.
    { apply product_Z_pos, Forall_fmap. eapply Forall_impl; [exact Hd|].
      intros [??]. simpl. lia. }
    rewrite int64_max_eq in Hmax.
    assert (- (P * n) < l * n + d < P * n) as Hb by nia.
    assert (P * n ≤ P * n * product_Z (dns.*2)) by nia.
    assert (- (P * n) < l * n < P * n) by nia.
    unwrap (l * n). unwrap (l * n + d).
    replace (P * (n * product_Z (dns.*2))) with (P * n * product_Z (dns.*2)) by lia.
    rewrite mix_cons. apply IH; [done | done | rewrite int64_max_eq; lia].
Qed.

Lemma offset_of_flat_index shape row :
  length row = length shape →
  Forall (fun n => 2 ≤ n) shape →
  Forall (fun i => -1 ≤ i ≤ 1) row →
  product_Z shape ≤ int64_max →
  offset_of shape row = flat_index shape row ∧
  - product_Z shape < flat_index shape row < product_Z shape.
Proof.
  intros Hlen Hshape Hrow Hmax.
  destruct row as [|i0 is_], shape as [|n0 ns]; try done.
  apply Forall_cons in Hshape as [Hn0 Hns]. apply Forall_cons in Hrow as [Hi0 His].
  simpl in Hlen. unfold offset_of, flat_index. simpl tail.
  rewrite product_Z_cons in *.
  pose proof (wrapped_mix (zip is_ ns) i0 n0) as H.
  rewrite snd_zip in H by lia. apply H; [lia | | done].
  apply Forall_lookup. intros k [d n] Hk.
  apply lookup_zip_with_Some in Hk as (d' & n' & [= <- <-] & Hd & Hn). simpl.
  pose proof (proj1 (Forall_lookup _ _) His _ _ Hd) as Hd1.
  pose proof (proj1 (Forall_lookup _ _) Hns _ _ Hn) as Hn1. simpl in *. lia.
Qed.

Lemma mix_add ns : ∀ ds ds' l l',
  length ds = length ns → length ds' = length ns →
  mix (l + l') (zip (zip_with Z.add ds ds') ns)
  = mix l (zip ds ns) + mix l' (zip ds' ns).
Proof.
  induction ns as [|n ns IH]; intros ds ds' l l' H1 H2.
  - destruct ds, ds'; try done.
  - destruct ds as [|d ds], ds' as [|d' ds']; try done.
    cbn [zip_with]. rewrite !mix_cons.
    replace ((l + l') * n + (d + d')) with ((l * n + d) + (l' * n + d')) by lia.
    apply IH; simpl in *; lia.
Qed.

Lemma flat_index_add shape a b :
  length a = length shape → length b = length shape →
  flat_index shape (zip_with Z.add a b) = flat_index shape a + flat_index shape b.
Proof.
  intros Ha Hb. destruct a as [|a0 a], b as [|b0 b], shape as [|n0 ns]; try done.
  unfold flat_index. cbn [zip_with tail]. apply mix_add; simpl in *; lia.
Qed.

(** Digits that differ by less than the radix determine the number. *)
Lemma mix_inj ns : ∀ ds ds' l l',
  length ds = length ns → length ds' = length ns →
  (∀ k x y n, ds !! k = Some x → ds' !! k = Some y → ns !! k = Some n →
     - n < x - y < n) →
  mix l (zip ds ns) = mix l' (zip ds' ns) → l = l' ∧ ds = ds'.
Proof.
  induction ns as [|n ns IH]; intros ds ds' l l' H1 H2 Hd Heq.
  - destruct ds, ds'; try done.
  - destruct ds as [|d ds], ds' as [|d' ds']; try done.
    cbn [zip_with] in Heq. rewrite !mix_cons in Heq.
    apply IH in Heq as [Hl ->]; [| simpl in *; lia.. |].
    + specialize (Hd 0%nat d d' n eq_refl eq_refl eq_refl).
      assert (l = l') by nia. split; [done|]. f_equal. nia.
    + intros k x y m Hx Hy Hm. apply (Hd (S k)); done.
Qed.

Lemma flat_index_inj shape a b :
  length a = length shape → length b = length shape →
  (∀ k x y n, a !! S k = Some x → b !! S k = Some y → shape !! S k = Some n →
     - n < x - y < n) →
  flat_index shape a = flat_index shape b → a = b.
Proof.
  intros Ha Hb Hd Heq.
  destruct a as [|a0 a], b as [|b0 b], shape as [|n0 ns]; try done.
  unfold flat_index in Heq. cbn [tail] in Heq.
  apply mix_inj in Heq as [-> ->]; [done | simpl in *; lia.. |].
  intros k x y n Hx Hy Hn. by apply (Hd k).
Qed.

(** With or without overflow the offset of a tuple is its mixed-radix
    number modulo [2 ^ 64]. *)
Lemma wrap64_mod z : wrap64 z mod 2 ^ 64 = z mod 2 ^ 64.
Proof.
  unfold wrap64. rewrite Zminus_mod, Z.mod_mod by lia.
  rewrite <- Zminus_mod. f_equal. lia.
Qed.

Lemma wrapped_mix_mod dns : ∀ l l',
  l mod 2 ^ 64 = l' mod 2 ^ 64 →
  fold_left (fun l '(i, n) => wrap64 (wrap64 (l * n) + i)) dns l mod 2 ^ 64
  = mix l' dns mod 2 ^ 64.
Proof.
  induction dns as [|[d n] dns IH]; intros l l' Hl; [done|].
  cbn [fold_left]. rewrite mix_cons. apply IH.
  rewrite wrap64_mod, Z.add_mod, wrap64_mod by lia.
  rewrite (Z.mul_mod l), Hl, <- Z.mul_mod, <- Z.add_mod by lia. done.
Qed.

Lemma offset_of_mod shape row :
  offset_of shape row mod 2 ^ 64 = flat_index shape row mod 2 ^ 64.
Proof. destruct row as [|i0 is_]; [done|]. by apply wrapped_mix_mod. Qed.

(** ** The pairs of one cell and of two cells *)

Lemma slice_to_last {A} (a : list A) : slice_to a (-1) = take (length a - 1) a.
Proof.
  unfold slice_to, resolve_bound. f_equal.
  destruct (Z.ltb_spec (-1) 0); lia.
Qed.

Lemma slice_from_nat {A} (a : list A) (k : nat) : slice_from a (Z.of_nat k) = drop k a.
Proof.
  unfold slice_from. rewrite resolve_bound_nat.
  destruct (decide (k ≤ length a)%nat).
  - by rewrite Nat.min_l.
  - rewrite Nat.min_r by lia. by rewrite !drop_ge by lia.
Qed.

Lemma bind_pair {A B} (i : A) (l : list B) : (l ≫= fun j => [(i, j)]) = pair i <$> l.
Proof. induction l as [|x l IH]; [done|]. rewrite bind_cons, IH. done. Qed.

Lemma cross_pairs_eq l l' : cross_pairs l l' = l ≫= fun i => pair i <$> l'.
Proof.
  unfold cross_pairs. apply list_bind_ext; [|done]. intros i. apply bind_pair.
Qed.

Lemma elem_of_cross_pairs l l' i j : (i, j) ∈ cross_pairs l l' ↔ i ∈ l ∧ j ∈ l'.
Proof.
  rewrite cross_pairs_eq, list_elem_of_bind. split.
  - intros (x & (y & [= -> ->] & Hy)%list_elem_of_fmap & Hx). done.
  - intros [Hi Hj]. exists i. split; [|done]. by apply list_elem_of_fmap_2.
Qed.

Lemma NoDup_cross_pairs l l' : NoDup l → NoDup l' → NoDup (cross_pairs l l').
Proof.
  intros Hl Hl'. rewrite cross_pairs_eq. apply NoDup_bind; [| |done].
  - intros x1 x2 y _ _ (? & -> & _)%list_elem_of_fmap (? & [= -> _] & _)%list_elem_of_fmap.
    done.
  - intros x _. apply NoDup_fmap_2; [|done]. by intros ?? [=].
Qed.

Lemma inside_pairs_eq (l : list Z) :
  Z.of_nat (length l) ≤ int64_max →
  inside_pairs l
  = enumerate (take (length l - 1) l) ≫= fun ki => pair ki.2 <$> drop (S (Z.to_nat ki.1)) l.
Proof.
  intros Hmax. unfold inside_pairs. rewrite slice_to_last.
  apply Forall_bind_ext. apply Forall_forall. intros [k i] Hki.
  apply list_elem_of_lookup in Hki as [t Ht].
  apply enumerate_lookup_inv in Ht as (x & [= -> ->] & Hx).
  apply lookup_lt_Some in Hx. rewrite length_take in Hx.
  rewrite int64_max_eq in Hmax. unwrap (Z.of_nat t + 1).
  replace (Z.of_nat t + 1) with (Z.of_nat (S t)) by lia.
  rewrite slice_from_nat, bind_pair. simpl. by rewrite Nat2Z.id.
Qed.

Lemma elem_of_inside_pairs (l : list Z) i j :
  Z.of_nat (length l) ≤ int64_max →
  (i, j) ∈ inside_pairs l ↔ before l i j.
Proof.
  intros Hmax. rewrite inside_pairs_eq by done. rewrite list_elem_of_bind.
  unfold before. split.
  - intros ([k x] & (y & [= -> ->] & Hy)%list_elem_of_fmap & Hk).
    apply list_elem_of_lookup in Hk as [t Ht].
    apply enumerate_lookup_inv in Ht as (x' & [= -> ->] & Hx).
    apply list_elem_of_lookup in Hy as [b Hb]. simpl in Hb.
    rewrite Nat2Z.id, lookup_drop in Hb.
    apply lookup_take_Some in Hx as [Hx _].
    exists t, (S t + b)%nat. split_and!; [lia | done | done].
  - intros (k & b & Hkb & Hk & Hb).
    exists (Z.of_nat k, i). split.
    + simpl. rewrite Nat2Z.id. apply list_elem_of_fmap_2.
      apply list_elem_of_lookup. exists (b - S k)%nat.
      rewrite lookup_drop. rewrite <- Hb. f_equal. lia.
    + apply list_elem_of_lookup. exists k. apply enumerate_lookup.
      apply lookup_take_Some. split; [done|].
      apply lookup_lt_Some in Hb. lia.
Qed.

Lemma NoDup_enumerate {A} (a : list A) : NoDup (enumerate a).
Proof.
  apply (NoDup_fmap_1 fst). unfold enumerate.
  rewrite fst_zip.
  - apply NoDup_fmap_2; [apply _ | apply NoDup_seq].
  - rewrite length_fmap, length_seq. lia.
Qed.

Lemma NoDup_inside_pairs (l : list Z) :
  Z.of_nat (length l) ≤ int64_max → NoDup l → NoDup (inside_pairs l).
Proof.
  intros Hmax Hl. rewrite inside_pairs_eq by done. apply NoDup_bind.
  - intros [k1 x1] [k2 x2] y Hk1 Hk2 (? & -> & _)%list_elem_of_fmap
      (? & [= Hx _] & _)%list_elem_of_fmap. simpl in Hx. subst x2.
    apply list_elem_of_lookup in Hk1 as [t1 Ht1], Hk2 as [t2 Ht2].
    apply enumerate_lookup_inv in Ht1 as (? & [= -> ->] & Hx1).
    apply enumerate_lookup_inv in Ht2 as (? & [= -> ->] & Hx2).
    apply lookup_take_Some in Hx1 as [Hx1 _], Hx2 as [Hx2 _].
    by rewrite (NoDup_lookup _ _ _ _ Hl Hx1 Hx2).
  - intros [k x] _. apply NoDup_fmap_2; [by intros ?? [=]|].
    rewrite <- (take_drop (S (Z.to_nat k)) l) in Hl.
    by apply NoDup_app in Hl as (_ & _ & Hl).
  - apply NoDup_enumerate.
Qed.

Lemma before_irrefl l i : NoDup l → ¬ before l i i.
Proof.
  intros Hl (k & b & Hkb & Hk & Hb).
  pose proof (NoDup_lookup _ _ _ _ Hl Hk Hb). lia.
Qed.

Lemma before_asym l i j : NoDup l → before l i j → ¬ before l j i.
Proof.
  intros Hl (k & b & Hkb & Hk & Hb) (k' & b' & Hkb' & Hk' & Hb').
  pose proof (NoDup_lookup _ _ _ _ Hl Hk Hb').
  pose proof (NoDup_lookup _ _ _ _ Hl Hb Hk'). lia.
Qed.

Lemma before_total l i j : i ∈ l → j ∈ l → i ≠ j → before l i j ∨ before l j i.
Proof.
  intros [k Hk]%list_elem_of_lookup [b Hb]%list_elem_of_lookup Hne.
  destruct (Nat.lt_trichotomy k b) as [H|[->|H]].
  - left. by exists k, b.
  - congruence.
  - right. by exists b, k.
Qed.

Lemma before_elem l i j : before l i j → i ∈ l ∧ j ∈ l.
Proof.
  intros (k & b & _ & Hk & Hb). split; by eapply list_elem_of_lookup_2.
Qed.

(** ** The blocks of the cells *)

Lemma elem_of_block_of cells c x :
  x ∈ block_of cells c ↔ ∃ i : nat, x = Z.of_nat i ∧ cells !! i = Some c.
Proof.
  unfold block_of. rewrite list_elem_of_fmap.
  split; intros (i & -> & Hi); exists i; (split; [done|]).
  - by apply elem_of_points_of_cell, elem_of_reverse.
  - by apply elem_of_reverse, elem_of_points_of_cell.
Qed.

Lemma NoDup_block_of cells c : NoDup (block_of cells c).
Proof.
  unfold block_of. apply NoDup_fmap_2; [apply _|].
  rewrite reverse_Permutation. unfold points_of_cell. apply NoDup_filter, NoDup_seq.
Qed.

Lemma length_block_of cells c : length (block_of cells c) = occ cells c.
Proof.
  unfold block_of. by rewrite length_fmap, length_reverse, length_points_of_cell.
Qed.

Lemma slice_Z {A} (a : list A) (s e : Z) :
  0 ≤ s ≤ e → e ≤ Z.of_nat (length a) →
  slice a s e = take (Z.to_nat (e - s)) (drop (Z.to_nat s) a).
Proof.
  intros Hs He.
  rewrite <- (Z2Nat.id s), <- (Z2Nat.id e) at 1 by lia.
  rewrite slice_nat by lia. f_equal. lia.
Qed.

Section enumeration.
Variable cells : list Z.
Variable G : nat.
Hypothesis cells_in_grid : ∀ l, l ∈ cells → 0 ≤ l < Z.of_nat G.
Hypothesis size_fits : Z.of_nat (length cells) ≤ int64_max.
Variables points_indices cells_offset : list Z.
Hypothesis Hplaced : placed cells G (length cells) (points_indices, cells_offset).

Local Abbreviation cells_count := (counts_of cells G).

Lemma find_points_in_cell_spec (c : nat) :
  (c < G)%nat →
  find_points_in_cell (Z.of_nat c) points_indices cells_count cells_offset
  = Ok (block_of cells (Z.of_nat c)).
Proof.
  intros Hc. unfold find_points_in_cell.
  rewrite (getitem_nat _ _ _ (final_offset cells G _ _ Hplaced c Hc)). simpl_result.
  rewrite (getitem_nat _ _ _ (counts_of_lookup cells G c Hc)). simpl_result.
  pose proof (block_start_nonneg cells G c) as Hs.
  pose proof (block_end_le_size cells G cells_in_grid c) as He.
  rewrite (block_end_start cells G c Hc) in He.
  rewrite int64_max_eq in size_fits.
  unwrap (block_start cells G c + Z.of_nat (occ cells (Z.of_nat c))).
  destruct Hplaced as (Hlpi & _).
  rewrite slice_Z by lia. f_equal. unfold block_of.
  rewrite <- (block_of_cell cells G _ _ Hplaced c Hc). f_equal. lia.
Qed.

Variable offs : list Z.
Hypothesis offs_in_grid :
  ∀ c o, (0 < occ cells c)%nat → o ∈ offs → 0 ≤ c + o < Z.of_nat G.
Hypothesis G_fits : Z.of_nat G ≤ int64_max.

Lemma pairs_of_cell_spec (c : nat) :
  (c < G)%nat →
  pairs_of_cell offs points_indices cells_count cells_offset (Z.of_nat c)
  = Ok (cell_pairs cells offs (Z.of_nat c)).
Proof.
  intros Hc. unfold pairs_of_cell, cell_pairs.
  rewrite (getitem_nat _ _ _ (counts_of_lookup cells G c Hc)). simpl_result.
  destruct (decide (occ cells (Z.of_nat c) = 0%nat)) as [H0|H0].
  - rewrite H0. done.
  - destruct (Z.eqb_spec (Z.of_nat (occ cells (Z.of_nat c))) 0); [lia|].
    rewrite (find_points_in_cell_spec c Hc). simpl_result.
    rewrite (yieldM_Ok _ (fun o =>
      cross_pairs (block_of cells (Z.of_nat c)) (block_of cells (Z.of_nat c + o)))).
    + done.
    + intros o Ho.
      pose proof (offs_in_grid (Z.of_nat c) o ltac:(lia) Ho) as Hb.
      rewrite int64_max_eq in G_fits. unwrap (Z.of_nat c + o).
      rewrite <- (Z2Nat.id (Z.of_nat c + o)) at 1 by lia.
      rewrite find_points_in_cell_spec by lia. simpl_result.
      by rewrite Z2Nat.id by lia.
Qed.

(** All the pairs that the generator yields over the whole grid. *)
Lemma iter_nearest_neighbors_spec :
  iter_nearest_neighbors (np_arange (Z.of_nat G)) offs points_indices
    cells_count cells_offset
  = Ok (range 0 (Z.of_nat G) ≫= cell_pairs cells offs).
Proof.
  unfold iter_nearest_neighbors, np_arange. apply yieldM_Ok.
  intros c Hc. rewrite range_0 in Hc.
  apply list_elem_of_fmap in Hc as (k & -> & Hk%elem_of_seq).
  apply pairs_of_cell_spec. lia.
Qed.
End enumeration.

(** ** Which pairs are yielded, and how often *)

Lemma count_two {A} `{EqDecision A} (l : list A) (a b : A) :
  NoDup l → a ≠ b →
  length (filter (fun p => p = a ∨ p = b) l)
  = ((if decide (a ∈ l) then 1 else 0) + (if decide (b ∈ l) then 1 else 0))%nat.
Proof.
  intros Hl Hab. induction Hl as [|x l Hx Hl IH].
  - rewrite !decide_False; [done | apply not_elem_of_nil..].
  - rewrite filter_cons.
    assert (∀ y, y ∈ x :: l ↔ x = y ∨ y ∈ l) as Hcons.
    { intros y. rewrite elem_of_cons. split; intros [?|?]; auto. }
    destruct (decide (x = a ∨ x = b)) as [Hxab|Hxab].
    + cbn [length]. rewrite IH.
      destruct Hxab as [->| ->].
      * destruct (decide (a ∈ a :: l)) as [_|Hn]; [|exfalso; apply Hn; left].
        destruct (decide (a ∈ l)); [done|].
        destruct (decide (b ∈ l)) as [Hb|Hb], (decide (b ∈ a :: l)) as [Hb'|Hb'];
          try done.
        -- exfalso. apply Hb'. by right.
        -- exfalso. apply Hcons in Hb' as [?|?]; done.
      * destruct (decide (b ∈ b :: l)) as [_|Hn]; [|exfalso; apply Hn; left].
        destruct (decide (b ∈ l)); [done|].
        destruct (decide (a ∈ l)) as [Ha|Ha], (decide (a ∈ b :: l)) as [Ha'|Ha'];
          try done; try lia.
        -- exfalso. apply Ha'. by right.
        -- exfalso. apply Hcons in Ha' as [?|?]; done.
    + rewrite IH.
      destruct (decide (a ∈ l)) as [Ha|Ha], (decide (a ∈ x :: l)) as [Ha'|Ha'],
        (decide (b ∈ l)) as [Hb|Hb], (decide (b ∈ x :: l)) as [Hb'|Hb'];
        try done; exfalso;
        repeat match goal with
               | H : ¬ (_ ∈ _ :: _) |- _ => rewrite Hcons in H
               | H : _ ∈ _ :: _ |- _ => rewrite Hcons in H
               end; intuition congruence.
Qed.

Section emitted.
Variable cells : list Z.
Variable G : nat.
Variable offs : list Z.
Hypothesis cells_in_grid : ∀ l, l ∈ cells → 0 ≤ l < Z.of_nat G.
Hypothesis size_fits : Z.of_nat (length cells) ≤ int64_max.
Hypothesis NoDup_offs : NoDup offs.
Hypothesis zero_not_offs : ¬ (0 ∈ offs).

Local Abbreviation emitted := (range 0 (Z.of_nat G) ≫= cell_pairs cells offs).

Lemma block_fits c : Z.of_nat (length (block_of cells c)) ≤ int64_max.
Proof. rewrite length_block_of. pose proof (occ_le_length cells c). lia. Qed.

Lemma block_of_inj c d x : x ∈ block_of cells c → x ∈ block_of cells d → c = d.
Proof.
  intros (i & -> & Hi)%elem_of_block_of (j & Hij & Hj)%elem_of_block_of.
  assert (i = j) as -> by lia. congruence.
Qed.

Lemma elem_of_cell_pairs c x y :
  (x, y) ∈ cell_pairs cells offs c ↔
  x ∈ block_of cells c ∧
  (before (block_of cells c) x y ∨ ∃ o, o ∈ offs ∧ y ∈ block_of cells (c + o)).
Proof.
  unfold cell_pairs. destruct (decide (occ cells c = 0%nat)) as [H0|H0].
  - split; [by intros ?%elem_of_nil|]. intros [Hx _].
    apply list_elem_of_lookup in Hx as [k Hk%lookup_lt_Some].
    rewrite length_block_of in Hk. lia.
  - rewrite elem_of_app, elem_of_inside_pairs by apply block_fits.
    rewrite list_elem_of_bind. split.
    + intros [Hb|(o & [Hx Hy]%elem_of_cross_pairs & Ho)].
      * split; [by apply before_elem in Hb as [? _] | by left].
      * split; [done|]. right. by exists o.
    + intros [Hx [Hb|(o & Ho & Hy)]]; [by left|].
      right. exists o. split; [|done]. by apply elem_of_cross_pairs.
Qed.

Lemma NoDup_cell_pairs c : NoDup (cell_pairs cells offs c).
Proof.
  unfold cell_pairs. destruct (decide (occ cells c = 0%nat)); [apply NoDup_nil_2|].
  apply NoDup_app. split_and!.
  - apply NoDup_inside_pairs; [apply block_fits | apply NoDup_block_of].
  - intros [x y] Hin%elem_of_inside_pairs; [|apply block_fits].
    intros (o & [Hx Hy]%elem_of_cross_pairs & Ho)%list_elem_of_bind.
    apply before_elem in Hin as [_ Hy'].
    pose proof (block_of_inj _ _ _ Hy' Hy) as Hc.
    apply zero_not_offs. by replace 0 with o by lia.
  - apply NoDup_bind; [| |done].
    + intros o1 o2 [x y] _ _ [_ Hy1]%elem_of_cross_pairs [_ Hy2]%elem_of_cross_pairs.
      pose proof (block_of_inj _ _ _ Hy1 Hy2). lia.
    + intros o _. apply NoDup_cross_pairs; apply NoDup_block_of.
Qed.

Lemma NoDup_emitted : NoDup emitted.
Proof.
  apply NoDup_bind.
  - intros c1 c2 [x y] _ _ [H1 _]%elem_of_cell_pairs [H2 _]%elem_of_cell_pairs.
    by eapply block_of_inj.
  - intros c _. apply NoDup_cell_pairs.
  - apply NoDup_seqZ.
Qed.

(** A pair is yielded when its points are in one cell, the first one
    before the second in the block, or when the cell of the second is a
    neighbour, by one of the offsets, of the cell of the first. *)
Lemma elem_of_emitted x y :
  (x, y) ∈ emitted ↔
  ∃ (i j : nat) ci cj,
    x = Z.of_nat i ∧ y = Z.of_nat j ∧
    cells !! i = Some ci ∧ cells !! j = Some cj ∧
    ((ci = cj ∧ before (block_of cells ci) x y) ∨ cj - ci ∈ offs).
Proof.
  rewrite list_elem_of_bind. split.
  - intros (c & [Hx Hy]%elem_of_cell_pairs & Hc).
    pose proof Hx as (i & -> & Hi)%elem_of_block_of.
    destruct Hy as [Hb|(o & Ho & Hy)].
    + pose proof Hb as [_ (j & -> & Hj)%elem_of_block_of]%before_elem.
      exists i, j, c, c. split_and!; try done. by left.
    + apply elem_of_block_of in Hy as (j & -> & Hj).
      exists i, j, c, (c + o). split_and!; try done.
      right. by replace (c + o - c) with o by lia.
  - intros (i & j & ci & cj & -> & -> & Hi & Hj & H).
    exists ci. split.
    + apply elem_of_cell_pairs. split; [apply elem_of_block_of; by exists i|].
      destruct H as [[-> Hb]|Ho]; [by left|].
      right. exists (cj - ci). split; [done|].
      replace (ci + (cj - ci)) with cj by lia.
      apply elem_of_block_of. by exists j.
    + apply elem_of_range.
      pose proof (cells_in_grid ci (list_elem_of_lookup_2 _ _ _ Hi)). lia.
Qed.

Hypothesis offs_asym : ∀ o, o ∈ offs → ¬ (- o ∈ offs).

(** Two distinct points are yielded as a pair once when their cells are
    equal or neighbours, and never otherwise. *)
Lemma count_emitted (i j : nat) ci cj :
  i ≠ j → cells !! i = Some ci → cells !! j = Some cj →
  length (filter (fun p => p = (Z.of_nat i, Z.of_nat j) ∨ p = (Z.of_nat j, Z.of_nat i))
                 emitted)
  = if decide (ci = cj ∨ cj - ci ∈ offs ∨ ci - cj ∈ offs) then 1%nat else 0%nat.
Proof.
  intros Hij Hi Hj.
  rewrite count_two; [|apply NoDup_emitted | intros [=]; lia].
  assert (∀ (a b : nat) ca cb, cells !! a = Some ca → cells !! b = Some cb →
    ((Z.of_nat a, Z.of_nat b) ∈ emitted ↔
     (ca = cb ∧ before (block_of cells ca) (Z.of_nat a) (Z.of_nat b)) ∨ cb - ca ∈ offs))
    as Hchar.
  { intros a b ca cb Ha Hb. rewrite elem_of_emitted. split.
    - intros (a' & b' & ca' & cb' & Ea & Eb & Ha' & Hb' & H).
      assert (a' = a) as -> by lia. assert (b' = b) as -> by lia.
      assert (ca' = ca) as -> by congruence. assert (cb' = cb) as -> by congruence.
      done.
    - intros H. by exists a, b, ca, cb. }
  pose proof (Hchar i j ci cj Hi Hj) as HA.
  pose proof (Hchar j i cj ci Hj Hi) as HB. clear Hchar.
  assert (Z.of_nat i ∈ block_of cells ci) as Hbi by (apply elem_of_block_of; by exists i).
  assert (Z.of_nat j ∈ block_of cells cj) as Hbj by (apply elem_of_block_of; by exists j).
  set (A := (Z.of_nat i, Z.of_nat j) ∈ emitted) in *.
  set (B := (Z.of_nat j, Z.of_nat i) ∈ emitted) in *.
  assert (A → B → False) as Hexcl.
  { intros [[<- Hb]|Ho]%HA [[Heq Hb']|Ho']%HB.
    - by eapply before_asym; [apply NoDup_block_of | exact Hb | exact Hb'].
    - apply zero_not_offs. by rewrite Z.sub_diag in Ho'.
    - subst cj. apply zero_not_offs. by rewrite Z.sub_diag in Ho.
    - apply (offs_asym _ Ho). by replace (- (cj - ci)) with (ci - cj) by lia. }
  assert (ci = cj ∨ cj - ci ∈ offs ∨ ci - cj ∈ offs → A ∨ B) as Hcompl.
  { intros [<-|[Ho|Ho]].
    - destruct (before_total (block_of cells ci) (Z.of_nat i) (Z.of_nat j)) as [Hb|Hb];
        [done | done | lia | |].
      + left. apply HA. by left.
      + right. apply HB. by left.
    - left. apply HA. by right.
    - right. apply HB. by right. }
  assert (A ∨ B → ci = cj ∨ cj - ci ∈ offs ∨ ci - cj ∈ offs) as Hsound.
  { intros [[[<- _]|Ho]%HA|[[<- _]|Ho]%HB]; auto. }
  destruct (decide A), (decide B),
    (decide (ci = cj ∨ cj - ci ∈ offs ∨ ci - cj ∈ offs)); try done; tauto.
Qed.
End emitted.

(** ** Flat indices of shifted cells *)

Lemma flat_index_bounds shape digits :
  shape ≠ [] → length digits = length shape →
  (∀ k d n, digits !! k = Some d → shape !! k = Some n → 0 ≤ d < n) →
  0 ≤ flat_index shape digits < product_Z shape.
Proof.
  intros Hne Hlen Hd.
  destruct digits as [|d0 ds], shape as [|n0 ns]; try done.
  unfold flat_index. cbn [tail]. rewrite product_Z_cons.
  pose proof (mix_bounds (zip ds ns) d0 n0) as H.
  rewrite snd_zip in H by (simpl in Hlen; lia). apply H.
  - by apply (Hd 0%nat).
  - apply Forall_lookup. intros k [d n] Hk.
    apply lookup_zip_with_Some in Hk as (d' & n' & [= <- <-] & Hdk & Hnk).
    simpl. by apply (Hd (S k)).
Qed.

Lemma zip_with_add_zero (xs : list Z) :
  zip_with Z.add xs (replicate (length xs) 0) = xs.
Proof. induction xs as [|x xs IH]; [done|]. simpl. rewrite IH. f_equal. lia. Qed.

Lemma flat_index_zero shape : flat_index shape (replicate (length shape) 0) = 0.
Proof.
  pose proof (flat_index_add shape (replicate (length shape) 0)
                (replicate (length shape) 0)) as H.
  rewrite !length_replicate in H. specialize (H eq_refl eq_refl).
  rewrite <- (length_replicate (length shape) 0) in H at 2.
  rewrite zip_with_add_zero in H. lia.
Qed.

Lemma zip_with_add_negate (xs : list Z) :
  zip_with Z.add xs (negate xs) = replicate (length xs) 0.
Proof. induction xs as [|x xs IH]; [done|]. simpl. rewrite IH. f_equal. lia. Qed.

Lemma length_negate xs : length (negate xs) = length xs.
Proof. unfold negate. by rewrite length_fmap. Qed.

Lemma flat_index_negate shape delta :
  length delta = length shape →
  flat_index shape (negate delta) = - flat_index shape delta.
Proof.
  intros Hlen.
  pose proof (flat_index_add shape delta (negate delta) Hlen) as H.
  rewrite length_negate in H. specialize (H Hlen).
  rewrite zip_with_add_negate, Hlen, flat_index_zero in H. lia.
Qed.

Lemma adjacent_shift xs ys :
  adjacent xs ys ↔
  ∃ delta, length delta = length xs ∧ Forall (fun d => -1 ≤ d ≤ 1) delta ∧
           ys = zip_with Z.add xs delta.
Proof.
  unfold adjacent. split.
  - induction 1 as [|x y xs ys Hxy _ (delta & Hl & Hd & ->)].
    + by exists [].
    + exists ((y - x) :: delta). split_and!.
      * simpl. lia.
      * by constructor.
      * simpl. f_equal. lia.
  - intros (delta & Hl & Hd & ->). revert delta Hl Hd.
    induction xs as [|x xs IH]; intros [|d delta] Hl Hd; try done.
    apply Forall_cons in Hd as [Hd1 Hd]. simpl. constructor; [lia|].
    apply IH; [simpl in Hl; lia | done].
Qed.

Lemma adjacent_sym xs ys : adjacent xs ys → adjacent ys xs.
Proof. unfold adjacent. induction 1; constructor; [lia | done]. Qed.

Lemma occ_pos_elem cells c : (0 < occ cells c)%nat → c ∈ cells.
Proof.
  unfold occ. intros H.
  destruct (filter (fun l => l = c) cells) as [|x l] eqn:E; [simpl in H; lia|].
  assert (x ∈ filter (fun l => l = c) cells) as Hx by (rewrite E; left).
  apply list_elem_of_filter in Hx as [-> Hx]. done.
Qed.

(** ** The neighbours of the cells of the points *)

Section neighbours.
Variable points : points_t.
Variable cell_size : float.
Variable D : nat.
Hypothesis points_nonempty : points ≠ [].
Hypothesis rectangular : Forall (fun row => length row = D) points.
Hypothesis dimensions_pos : (0 < D)%nat.
Hypothesis fits : fits_int64 points cell_size.

Local Abbreviation X := (coordinates cell_size <$> points).
Local Abbreviation shape := (extent X).
Local Abbreviation cells := (cell_id X <$> X).
Local Abbreviation G := (Z.to_nat (product_Z shape)).
Local Abbreviation prod := (product D (range (Z.opp 1) (1 + 1))).
Local Abbreviation kept := (kept_tuples D 1).
Local Abbreviation offs := (offset_of shape <$> kept).

Lemma length_shape : length shape = D.
Proof.
  apply length_extent; [by apply X_nonempty | by apply X_rectangular].
Qed.

Lemma shape_ge_3 : Forall (fun n => 3 ≤ n) shape.
Proof.
  apply Forall_forall. intros n Hn.
  by eapply extent_ge_3; [apply X_rectangular|].
Qed.

Lemma shape_nonempty : shape ≠ [].
Proof. intros H. pose proof length_shape as Hl. rewrite H in Hl. simpl in Hl. lia. Qed.

Lemma prod_spec delta :
  delta ∈ prod ↔ length delta = D ∧ Forall (fun x => -1 ≤ x ≤ 1) delta.
Proof. apply (elem_of_prod D 1). Qed.

Lemma offset_in_prod delta :
  delta ∈ prod →
  offset_of shape delta = flat_index shape delta.
Proof.
  intros [Hl Hd]%prod_spec.
  apply offset_of_flat_index; [by rewrite length_shape | | done | apply fits].
  eapply Forall_impl; [apply shape_ge_3|]. intros n. simpl. lia.
Qed.

Lemma offs_flat : offs = flat_index shape <$> kept.
Proof.
  apply Forall_fmap_ext, Forall_forall. intros delta Hd.
  by apply offset_in_prod, kept_in_prod.
Qed.

Lemma flat_index_prod_inj delta delta' :
  delta ∈ prod → delta' ∈ prod →
  flat_index shape delta = flat_index shape delta' → delta = delta'.
Proof.
  intros [Hl Hd]%prod_spec [Hl' Hd']%prod_spec.
  apply flat_index_inj; [by rewrite length_shape.. |].
  intros k x y n Hx Hy Hn.
  pose proof (proj1 (Forall_lookup _ _) Hd _ _ Hx) as Hx1.
  pose proof (proj1 (Forall_lookup _ _) Hd' _ _ Hy) as Hy1.
  pose proof (proj1 (Forall_lookup _ _) shape_ge_3 _ _ Hn) as Hn3.
  simpl in *. lia.
Qed.

Lemma zero_in_prod : replicate D 0 ∈ prod.
Proof.
  apply prod_spec. split; [apply length_replicate|].
  apply Forall_replicate. lia.
Qed.

Lemma negate_in_prod delta : delta ∈ prod → negate delta ∈ prod.
Proof.
  intros [Hl Hd]%prod_spec. apply prod_spec.
  split; [by rewrite length_negate|].
  unfold negate. apply Forall_fmap. eapply Forall_impl; [exact Hd|].
  intros x. simpl. lia.
Qed.

Lemma elem_of_offs o :
  o ∈ offs ↔ ∃ delta, delta ∈ kept ∧ o = flat_index shape delta.
Proof.
  rewrite offs_flat, list_elem_of_fmap. split; intros (d & ? & ?); by exists d.
Qed.

Lemma NoDup_offs : NoDup offs.
Proof.
  rewrite offs_flat. apply NoDup_fmap_2_strong; [|apply NoDup_kept].
  intros d d' Hd Hd'. apply flat_index_prod_inj; by apply kept_in_prod.
Qed.

Lemma zero_not_offs : ¬ (0 ∈ offs).
Proof.
  intros (delta & Hd & H0)%elem_of_offs.
  rewrite <- (flat_index_zero shape), length_shape in H0.
  apply flat_index_prod_inj in H0; [|apply zero_in_prod | by apply kept_in_prod].
  subst delta. by apply (zero_not_kept D 1).
Qed.

Lemma offs_asym o : o ∈ offs → ¬ (- o ∈ offs).
Proof.
  intros (delta & Hd & ->)%elem_of_offs (delta' & Hd' & Heq)%elem_of_offs.
  pose proof (kept_in_prod _ _ _ Hd) as Hp.
  pose proof Hp as [Hl _]%prod_spec.
  rewrite <- flat_index_negate in Heq by (by rewrite length_shape).
  apply flat_index_prod_inj in Heq;
    [| by apply negate_in_prod | by apply kept_in_prod].
  subst delta'.
  destruct (kept_half D 1 ltac:(lia) delta Hp) as [[_ Hn]|[Hn _]]; [|done..].
  intros ->. by apply (zero_not_kept D 1).
Qed.

Lemma cells_lookup i row :
  points !! i = Some row →
  cells !! i = Some (cell_id X (coordinates cell_size row)).
Proof. intros Hrow. by rewrite !list_lookup_fmap, Hrow. Qed.

Lemma elem_of_cells c :
  c ∈ cells ↔ ∃ i row, points !! i = Some row ∧ c = cell_id X (coordinates cell_size row).
Proof.
  split.
  - intros (xs & -> & (row & -> & [i Hi]%list_elem_of_lookup)%list_elem_of_fmap)%list_elem_of_fmap.
    by exists i, row.
  - intros (i & row & Hrow & ->). eapply list_elem_of_lookup_2, cells_lookup, Hrow.
Qed.

Lemma length_lows : length (lowest X) = D.
Proof. apply length_lowest; [by apply X_nonempty | by apply X_rectangular]. Qed.

Lemma normalized_add lows xs delta :
  normalized_coordinates lows (zip_with Z.add xs delta)
  = zip_with Z.add (normalized_coordinates lows xs) delta.
Proof.
  unfold normalized_coordinates. revert lows delta.
  induction xs as [|x xs IH]; intros [|lo lows] [|d delta]; try done.
  simpl. rewrite IH. f_equal. lia.
Qed.

Lemma normalized_inj lows xs ys :
  length xs = length lows → length ys = length lows →
  normalized_coordinates lows xs = normalized_coordinates lows ys → xs = ys.
Proof.
  unfold normalized_coordinates. revert xs ys.
  induction lows as [|lo lows IH]; intros [|x xs] [|y ys] Hx Hy H; try done.
  simpl in H. injection H as Hxy H. f_equal; [lia|].
  apply IH; simpl in *; (lia || done).
Qed.

Section two_points.
Variables (i j : nat) (row_i row_j : list float).
Hypothesis Hi : points !! i = Some row_i.
Hypothesis Hj : points !! j = Some row_j.

Local Abbreviation xs_i := (coordinates cell_size row_i).
Local Abbreviation xs_j := (coordinates cell_size row_j).
Local Abbreviation u := (normalized_coordinates (lowest X) xs_i).
Local Abbreviation v := (normalized_coordinates (lowest X) xs_j).

Lemma length_xs_i : length xs_i = D.
Proof.
  unfold coordinates. rewrite length_fmap.
  by eapply (proj1 (Forall_lookup _ _) rectangular).
Qed.

Lemma length_u : length u = D.
Proof. by eapply length_digits. Qed.

(** The cell of [j] is the cell of [i] shifted by [delta] exactly when
    the coordinates are shifted by [delta]. *)
Lemma cell_shift delta :
  delta ∈ prod →
  cell_id X xs_j = cell_id X xs_i + flat_index shape delta ↔
  xs_j = zip_with Z.add xs_i delta.
Proof.
  intros Hp. pose proof Hp as [Hl Hd]%prod_spec.
  unfold cell_id.
  rewrite <- flat_index_add by (by rewrite length_shape, ?length_u).
  rewrite <- normalized_add. split.
  - intros Heq. apply flat_index_inj in Heq.
    + apply normalized_inj in Heq; [done | |].
      * rewrite length_lows. unfold coordinates. rewrite length_fmap.
        by eapply (proj1 (Forall_lookup _ _) rectangular).
      * rewrite length_zip_with, length_xs_i, length_lows. lia.
    + rewrite length_shape. by eapply length_digits.
    + rewrite normalized_add, length_zip_with, length_u, length_shape. lia.
    + intros k x y n Hx Hy Hn. rewrite normalized_add in Hy.
      apply lookup_zip_with_Some in Hy as (a & d & -> & Ha & Hdk).
      destruct (digit_bounds points cell_size D rectangular dimensions_pos
                  j row_j Hj _ _ Hx) as (n1 & Hn1 & Hb1).
      destruct (digit_bounds points cell_size D rectangular dimensions_pos
                  i row_i Hi _ _ Ha) as (n2 & Hn2 & Hb2).
      assert (n1 = n) as -> by congruence. assert (n2 = n) as -> by congruence.
      pose proof (proj1 (Forall_lookup _ _) Hd _ _ Hdk) as Hd1. simpl in Hd1. lia.
  - by intros <-.
Qed.

Lemma cell_eq : cell_id X xs_j = cell_id X xs_i ↔ xs_j = xs_i.
Proof.
  pose proof (cell_shift (replicate D 0) zero_in_prod) as H.
  rewrite <- length_shape, flat_index_zero, Z.add_0_r in H at 1.
  rewrite <- length_xs_i, zip_with_add_zero in H. exact H.
Qed.

(** A neighbour of the cell of a point lies in the grid. *)
Lemma neighbour_in_grid delta :
  delta ∈ prod →
  0 ≤ cell_id X xs_i + flat_index shape delta < product_Z shape.
Proof.
  intros [Hl Hd]%prod_spec. unfold cell_id.
  rewrite <- flat_index_add by (by rewrite length_shape, ?length_u).
  apply flat_index_bounds; [apply shape_nonempty | |].
  - rewrite length_zip_with, length_u, length_shape. lia.
  - intros k d n Hk Hn.
    apply lookup_zip_with_Some in Hk as (a & b & -> & Ha & Hb).
    destruct (digit_bounds points cell_size D rectangular dimensions_pos
                i row_i Hi _ _ Ha) as (n2 & Hn2 & Hb2).
    assert (n2 = n) as -> by congruence.
    pose proof (proj1 (Forall_lookup _ _) Hd _ _ Hb) as Hd1. simpl in Hd1. lia.
Qed.
End two_points.

Lemma Z_of_nat_G : Z.of_nat G = product_Z shape.
Proof.
  pose proof (product_Z_pos shape
    (extent_ge_1 points cell_size D rectangular dimensions_pos)). lia.
Qed.

(** Every offset added to a cell that holds a point stays in the grid. *)
Lemma offs_in_grid c o :
  (0 < occ cells c)%nat → o ∈ offs → 0 ≤ c + o < Z.of_nat G.
Proof.
  intros (i & row & Hrow & ->)%occ_pos_elem%elem_of_cells
         (delta & Hd & ->)%elem_of_offs.
  rewrite Z_of_nat_G. apply (neighbour_in_grid i row Hrow).
  by apply (kept_in_prod D 1).
Qed.

(** The cells of two points are equal or differ by an offset, one way
    or the other, exactly when they are adjacent. *)
Lemma neighbours_adjacent (i j : nat) row_i row_j :
  points !! i = Some row_i → points !! j = Some row_j →
  let ci := cell_id X (coordinates cell_size row_i) in
  let cj := cell_id X (coordinates cell_size row_j) in
  (ci = cj ∨ cj - ci ∈ offs ∨ ci - cj ∈ offs) ↔
  adjacent (coordinates cell_size row_i) (coordinates cell_size row_j).
Proof.
  intros Hi Hj ci cj. split.
  - intros [Heq|[(delta & Hd & Ho)%elem_of_offs|(delta & Hd & Ho)%elem_of_offs]].
    + symmetry in Heq. apply (cell_eq i j row_i row_j Hi Hj) in Heq.
      rewrite Heq. apply adjacent_shift.
      exists (replicate (length (coordinates cell_size row_i)) 0).
      split_and!; [apply length_replicate | apply Forall_replicate; lia |].
      by rewrite zip_with_add_zero.
    + pose proof (kept_in_prod _ _ _ Hd) as Hp.
      pose proof Hp as [Hl Hall]%prod_spec.
      apply adjacent_shift. exists delta. split_and!; [|done|].
      * by rewrite (length_xs_i i row_i Hi).
      * apply (cell_shift i j row_i row_j Hi Hj delta Hp). fold ci cj. lia.
    + pose proof (kept_in_prod _ _ _ Hd) as Hp.
      pose proof Hp as [Hl Hall]%prod_spec.
      apply adjacent_sym, adjacent_shift. exists delta. split_and!; [|done|].
      * by rewrite (length_xs_i j row_j Hj).
      * apply (cell_shift j i row_j row_i Hj Hi delta Hp). fold ci cj. lia.
  - intros (delta & Hl & Hall & Heq)%adjacent_shift.
    rewrite (length_xs_i i row_i Hi) in Hl.
    assert (delta ∈ prod) as Hp by (by apply prod_spec).
    apply (cell_shift i j row_i row_j Hi Hj delta Hp) in Heq. fold ci cj in Heq.
    destruct (decide (delta = replicate D 0)) as [->|Hnz].
    + left. rewrite <- length_shape, flat_index_zero in Heq. lia.
    + right.
      destruct (kept_half D 1 ltac:(lia) delta Hp Hnz) as [[Hk _]|[_ Hk]].
      * left. apply elem_of_offs. exists delta. split; [done | lia].
      * right. apply elem_of_offs. exists (negate delta). split; [done|].
        rewrite flat_index_negate by (by rewrite length_shape). lia.
Qed.
End neighbours.

(** * The properties of the four operations *)

(** ** [add_to_cells]: the bucketed layout *)

Lemma slice_block cells G points_indices cells_offset (c : nat) :
  (∀ l, l ∈ cells → 0 ≤ l < Z.of_nat G) →
  placed cells G (length cells) (points_indices, cells_offset) →
  (c < G)%nat →
  slice points_indices (block_start cells G c)
        (block_start cells G c + Z.of_nat (occ cells (Z.of_nat c)))
  = block_of cells (Z.of_nat c).
Proof.
  intros Hin Hplaced Hc.
  pose proof (block_start_nonneg cells G c) as Hs.
  pose proof (block_end_le_size cells G Hin c) as He.
  rewrite (block_end_start cells G c Hc) in He.
  pose proof Hplaced as (Hlpi & _).
  rewrite slice_Z by lia. unfold block_of.
  rewrite <- (block_of_cell cells G _ _ Hplaced c Hc). f_equal. lia.
Qed.


Lemma four_points_valid :
  four_points ≠ [] ∧ Forall (fun row => length row = 2%nat) four_points ∧
  (0 < 2)%nat ∧ float_pos (float_of_int 1) = true ∧
  fits_int64 four_points (float_of_int 1).
Proof.
  split_and!; [done | repeat constructor | lia | reflexivity |].
  split; vm_compute; discriminate.
Defined.


(** ** [add_to_cells]: the order inside the blocks *)

(** C7, as the code has it. The placement is not stable: within the block
    of every cell the indices of the points appear in the reverse of the
    order of the input, because the points are visited in increasing order
    and the slots of a block are filled from the last to the first. *)
Theorem add_to_cells_blocks_reversed (uninit : nat → Z) (points : points_t)
    (cell_size : float) (D : nat) :
  points ≠ [] → Forall (fun row => length row = D) points → (0 < D)%nat →
  float_pos cell_size = true → fits_int64 points cell_size →
  blocks_reversed uninit points cell_size.
Proof.
  intros Hne Hrect HD Hpos Hfit.
  set (X := coordinates cell_size <$> points).
  destruct (add_to_cells_spec points cell_size D Hne Hrect HD Hfit uninit Hpos)
    as (pi & co & Hadd & Hplaced).
  fold X in Hadd, Hplaced.
  set (cells := cell_id X <$> X) in *.
  set (G := Z.to_nat (product_Z (extent X))) in *.
  pose proof (cell_ids_in_grid points cell_size D Hne Hrect HD) as Hin.
  fold X cells G in Hin.
  exists (lowest X), cells, pi, (counts_of cells G), co, (extent X).
  split_and!.
  - by apply (locate_points_spec points cell_size D).
  - done.
  - intros c start count Hstart Hcount.
    assert (c < G)%nat as Hc.
    { apply lookup_lt_Some in Hcount. by rewrite length_counts_of in Hcount. }
    rewrite (final_offset cells G pi co Hplaced c Hc) in Hstart.
    rewrite (counts_of_lookup cells G c Hc) in Hcount.
    injection Hstart as <-. injection Hcount as <-.
    apply (slice_block cells G pi co c Hin Hplaced Hc).
Qed.

Lemma add_to_cells_blocks_reversed_witness :
  (four_points ≠ [] ∧ Forall (fun row => length row = 2%nat) four_points ∧
   (0 < 2)%nat ∧ float_pos (float_of_int 1) = true ∧
   fits_int64 four_points (float_of_int 1)) ∧
  blocks_reversed zeroed four_points (float_of_int 1).
Proof.
  split; [exact four_points_valid|].
  destruct four_points_valid as (H1 & H2 & H3 & H4 & H5).
  exact (add_to_cells_blocks_reversed zeroed four_points (float_of_int 1) 2
           H1 H2 H3 H4 H5).
Defined.

(** C7, as the specification states it, fails: two points of one cell are
    placed in the order [1, 0]. *)
Lemma placement_not_stable : ¬ blocks_stable zeroed two_points (float_of_int 1).
Proof.
  intros (x_min & cells & pi & cc & co & gs & Hloc & Hadd & Hblocks).
  vm_compute in Hloc. vm_compute in Hadd.
  injection Hloc as _ _ <-. injection Hadd as <- <- <- _.
  specialize (Hblocks 1%nat 0 2 eq_refl eq_refl).
  vm_compute in Hblocks. discriminate.
Qed.

(** ** [add_to_cells]: the cell coordinates *)

(** C5. The code converts the quotient with [np.int64], which rounds toward
    zero and not down: the point [-0.5] with the cell size [1] gets the
    coordinate [0] where [floor] gives [-1], so the points [-0.5] and [0.5]
    share a cell of a grid of shape [[3]]. *)
Theorem cell_coordinate_truncates :
  cell_coordinate (float_of_int 1) f8_minus_0_5 = 0 ∧
  floor_coordinate (float_of_int 1) f8_minus_0_5 = Some (-1) ∧
  locate_points straddling_points (float_of_int 1) = Ok ([0], [3], [1; 1]).
Proof. split_and!; reflexivity. Qed.

(** ** [add_to_cells]: the precondition *)

Lemma float_le_zero_not_pos (x : float) :
  SFleb x (S754_zero false) = true → float_pos x = false.
Proof. by destruct x as [[]|[]| |[] m e]. Qed.

(** The assertion covers the cell size: [add_to_cells] raises the assertion
    error whenever [cell_size > 0] does not hold, whatever the points are. *)
Lemma add_to_cells_precondition (uninit : nat → Z) (points : points_t)
    (cell_size : float) :
  float_pos cell_size = false →
  add_to_cells uninit points cell_size = Raise AssertionError.
Proof. intros H. unfold add_to_cells. by rewrite H. Qed.

(** C8. The assertion does not look at the number of rows.  An array
    without rows passes it for every positive cell size, and the statement
    that follows, [points[0, :]], is an access outside the array: the call
    is not refused by a precondition error.  (Under checked indexing the
    access is an [IndexError]; the compiled code, which does not check it,
    reads on and returns a grid.) *)
Theorem add_to_cells_zero_rows (uninit : nat → Z) (cell_size : float) :
  float_pos cell_size = true →
  add_to_cells uninit [] cell_size = Raise OutOfBounds.
Proof. intros H. unfold add_to_cells. by rewrite H. Qed.

Lemma add_to_cells_zero_rows_witness :
  float_pos (float_of_int 1) = true ∧
  add_to_cells zeroed [] (float_of_int 1) = Raise OutOfBounds.
Proof.
  split; [reflexivity|].
  exact (add_to_cells_zero_rows zeroed (float_of_int 1) eq_refl).
Defined.

(** ** The scenario of the four points *)

(** C9. The four points [(0,0), (0.1,0), (2,2), (2.1,2)] with the cell size
    [1]: the grid has the shape [[5, 5]], the counts sum to [4], and the
    enumeration over all the cells with the offsets of distance [1] yields
    two pairs, the points [0] and [1] of the cell [6] and the points [2] and
    [3] of the cell [18], and no pair of two cells. *)
Theorem four_points_scenario (uninit : nat → Z) :
  ∃ x_min points_indices cells_count cells_offset neigh_cells,
    locate_points four_points (float_of_int 1) = Ok (x_min, [5; 5], [6; 6; 18; 18]) ∧
    add_to_cells uninit four_points (float_of_int 1)
    = Ok (points_indices, cells_count, cells_offset, [5; 5]) ∧
    sum_Z cells_count = 4 ∧
    neighboring_cells [5; 5] 1 = Ok neigh_cells ∧
    iter_nearest_neighbors (np_arange (Z.of_nat (length cells_count))) neigh_cells
      points_indices cells_count cells_offset
    = Ok [(1, 0); (3, 2)].
Proof.
  eexists _, _, _, _, _. split_and!.
  - vm_compute. reflexivity.
  - vm_compute. reflexivity.
  - reflexivity.
  - vm_compute. reflexivity.
  - vm_compute. reflexivity.
Qed.

(** ** [neighboring_cells] *)

(** C4. For a grid shape of [D >= 1] dimensions and a distance of at least
    [1], [neighboring_cells] returns [((2 * distance + 1) ^ D - 1) / 2]
    offsets: those of the tuples that come after the middle of the product
    of [D] copies of [-distance .. distance], the middle being the zero
    tuple, each encoded with the strides of the grid shape; so of every
    non-zero tuple of the neighbourhood and its opposite exactly one is
    kept. *)
Theorem neighboring_cells_symmetric_half (grid_shape : list Z) (distance : Z) :
  grid_shape ≠ [] → 1 ≤ distance → symmetric_half grid_shape distance.
Proof.
  intros Hne Hd. unfold symmetric_half.
  exists (offset_of grid_shape <$> kept_tuples (length grid_shape) distance).
  split_and!.
  - by apply neighboring_cells_spec.
  - rewrite length_fmap. by apply length_kept_Z.
  - by apply prod_middle.
  - done.
  - intros delta _. apply offset_of_mod.
  - apply NoDup_kept.
  - intros delta Hl Hall Hnz.
    apply (kept_half (length grid_shape) distance Hd delta); [|done].
    by apply elem_of_prod.
Qed.

Lemma neighboring_cells_symmetric_half_witness :
  ([5; 5] ≠ [] ∧ 1 ≤ 1) ∧ symmetric_half [5; 5] 1.
Proof.
  split; [split; [discriminate | lia]|].
  exact (neighboring_cells_symmetric_half [5; 5] 1
           ltac:(discriminate) ltac:(lia)).
Defined.

(** ** [iter_nearest_neighbors] over the grid of [add_to_cells] *)

Section enumeration_of_grid.
Variable uninit : nat → Z.
Variable points : points_t.
Variable cell_size : float.
Variable D : nat.
Hypothesis points_nonempty : points ≠ [].
Hypothesis rectangular : Forall (fun row => length row = D) points.
Hypothesis dimensions_pos : (0 < D)%nat.
Hypothesis cell_size_pos : float_pos cell_size = true.
Hypothesis fits : fits_int64 points cell_size.

Local Abbreviation X := (coordinates cell_size <$> points).
Local Abbreviation shape := (extent X).
Local Abbreviation cells := (cell_id X <$> X).
Local Abbreviation G := (Z.to_nat (product_Z shape)).
Local Abbreviation offs := (offset_of shape <$> kept_tuples D 1).

Lemma cells_in_G l : l ∈ cells → 0 ≤ l < Z.of_nat G.
Proof. by apply (cell_ids_in_grid points cell_size D). Qed.

Lemma size_fits_int64 : Z.of_nat (length cells) ≤ int64_max.
Proof. rewrite length_cells. apply fits. Qed.

Lemma G_fits_int64 : Z.of_nat G ≤ int64_max.
Proof. rewrite (Z_of_nat_G points cell_size D) by done. apply fits. Qed.

Lemma neighboring_cells_of_grid : neighboring_cells shape 1 = Ok offs.
Proof.
  rewrite neighboring_cells_spec; [| by apply (shape_nonempty points cell_size D) | lia].
  by rewrite (length_shape points cell_size D).
Qed.

Lemma enumeration_of_grid_spec points_indices cells_offset :
  placed cells G (length cells) (points_indices, cells_offset) →
  iter_nearest_neighbors (np_arange (Z.of_nat (length (counts_of cells G)))) offs
    points_indices (counts_of cells G) cells_offset
  = Ok (range 0 (Z.of_nat G) ≫= cell_pairs cells offs).
Proof.
  intros Hplaced. rewrite length_counts_of.
  apply iter_nearest_neighbors_spec;
    [apply cells_in_G | apply size_fits_int64 | done | | apply G_fits_int64].
  intros c o. by apply (offs_in_grid points cell_size D).
Qed.
End enumeration_of_grid.





(** ** [partition_cells] *)

(** The loop that records the splits ends within [len + 1] iterations: it
    returns the splits or reads outside [interactions_cumsum]. *)
Lemma split_loop_terminates fuel : ∀ n size (cumsum : list Z) part_index i splits,
  Z.of_nat (length cumsum) ≤ int64_max → 0 ≤ i →
  (Z.to_nat (Z.of_nat (length cumsum) - i) < fuel)%nat →
  ∃ r, split_loop fuel n size cumsum part_index i splits = Some r.
Proof.
  induction fuel as [|fuel IH]; intros n size cumsum part_index i splits Hmax Hi Hfuel;
    [lia|].
  cbn [split_loop]. destruct (part_index <? n); [|by eexists].
  destruct (decide (i < Z.of_nat (length cumsum))) as [Hlt|Hge].
  - destruct (lookup_lt_is_Some_2 cumsum (Z.to_nat i)) as [c Hc]; [lia|].
    rewrite (getitem_Z _ _ c) by done.
    rewrite int64_max_eq in Hmax. unwrap (i + 1).
    destruct (wrap64 (part_index * size) <=? c).
    + destruct (setitem splits part_index i); [|by eexists].
      apply IH; [rewrite int64_max_eq; lia | lia | lia].
    + apply IH; [rewrite int64_max_eq; lia | lia | lia].
  - unfold getitem, resolve_index.
    destruct (Z.ltb_spec i 0); [lia|].
    destruct (Z.leb_spec 0 i); [|lia].
    destruct (Z.ltb_spec i (Z.of_nat (length cumsum))); [lia|].
    simpl. by eexists.
Qed.

(** C6. With more parts than cells that hold a point the loop that records
    the splits runs past the end of [interactions_cumsum]: for three parts
    and the single cell of two points it records the split [0] and then
    reads [interactions_cumsum[1]], outside the array, whatever the
    uninitialised memory holds and however long the loop may run. *)
Theorem partition_cells_out_of_bounds (k : nat) (uninit : nat → nat → Z) :
  partition_cells (2 + k) uninit 3 [2] [] = Some (Raise OutOfBounds).
Proof. vm_compute. reflexivity. Qed.

Lemma split_loop_two_parts (k : nat) (g0 g2 s1 : Z) :
  split_loop (3 + k) 2 3 [g0; 4; g2; 5] 1 0 [0; s1; 4]
  = Some (Ok [0; if 3 <=? g0 then 0 else 1; 4]).
Proof.
  change (3 + k)%nat with (S (S (S k))). cbn [split_loop].
  change (1 <? 2) with true. cbv iota.
  change (getitem [g0; 4; g2; 5] 0) with (Ok g0). cbv iota.
  change (wrap64 (1 * 3)) with 3.
  destruct (3 <=? g0).
  - change (setitem [0; s1; 4] 1 0) with (Ok [0; 0; 4]). cbv iota.
    reflexivity.
  - change (wrap64 (0 + 1)) with 1. reflexivity.
Qed.

(** C10. [partition_cells(2, [0, 3, 0, 2], [])] returns [[0, b, 4]] where
    [b] is [0] when the uninitialised [interactions_cumsum[0]] holds at
    least [3] and [1] otherwise; either way the first range costs [0] and
    the second [5], which differ by more than the cost [4] of the dearest
    cell. *)
Theorem partition_cells_scenario (k : nat) (uninit : nat → nat → Z) :
  ∃ b,
    partition_cells (3 + k) uninit 2 [0; 3; 0; 2] [] = Some (Ok [0; b; 4]) ∧
    b = (if 3 <=? uninit 0%nat 0%nat then 0 else 1) ∧
    range_cost [0; 3; 0; 2] 0 b = 0 ∧
    range_cost [0; 3; 0; 2] b 4 = 5 ∧
    Forall (fun count => cell_cost count ≤ 4) [0; 3; 0; 2].
Proof.
  eexists. split_and!; [|reflexivity| | |].
  - unfold partition_cells. change (negb (0 <? 2)) with false. cbv iota.
    change (foldM _ _ _) with
      (Ok (5, [uninit 0%nat 0%nat; 4; uninit 0%nat 2%nat; 5])).
    cbv iota beta.
    change (np_int64 _) with 3.
    change (np_empty (uninit 1%nat) (wrap64 (2 + 1)) ≫= _) with
      (Ok [0; uninit 1%nat 1%nat; 4]).
    cbv iota. apply split_loop_two_parts.
  - by destruct (3 <=? uninit 0%nat 0%nat).
  - by destruct (3 <=? uninit 0%nat 0%nat).
  - repeat constructor; vm_compute; discriminate.
Qed.

(** ** [add_to_cells]: the arrays in closed form *)

(** The blocks of the cells follow one another in [points_indices]. *)
Lemma blocks_concatenated cells G points_indices cells_offset :
  (∀ l, l ∈ cells → 0 ≤ l < Z.of_nat G) →
  placed cells G (length cells) (points_indices, cells_offset) →
  points_indices = range 0 (Z.of_nat G) ≫= block_of cells.
Proof.
  intros Hin Hplaced.
  assert (∀ k, (k ≤ G)%nat →
            take (Z.to_nat (block_start cells G k)) points_indices
            = (Z.of_nat <$> seq 0 k) ≫= block_of cells) as Hk.
  { induction k as [|k IH]; intros Hle.
    - unfold block_start. rewrite prefix_sum_0. done.
    - rewrite seq_S, fmap_app, bind_app, <- IH by lia. simpl.
      rewrite app_nil_r.
      change (block_start cells G (S k)) with (block_end cells G k).
      rewrite (block_end_start cells G k) by lia.
      pose proof (block_start_nonneg cells G k).
      rewrite Z2Nat.inj_add, Nat2Z.id by lia.
      rewrite <- take_take_drop. f_equal.
      unfold block_of.
      by rewrite <- (block_of_cell cells G _ _ Hplaced k) by lia. }
  rewrite range_0, <- Hk by done.
  destruct Hplaced as (Hlen & _).
  rewrite take_ge; [done|].
  unfold block_start. rewrite prefix_sum_ge by (by rewrite length_counts_of).
  rewrite sum_counts_of by done. lia.
Qed.

(** The offsets that [add_to_cells] returns are the sums of the counts of
    the cells before. *)
Lemma offsets_prefix_sums cells G points_indices cells_offset :
  placed cells G (length cells) (points_indices, cells_offset) →
  length cells_offset = G ∧
  ∀ c start, cells_offset !! c = Some start →
             start = prefix_sum (counts_of cells G) c.
Proof.
  intros Hplaced. pose proof Hplaced as (_ & Hlen & _). split; [done|].
  intros c start Hc.
  assert (c < G)%nat as Hlt by (apply lookup_lt_Some in Hc; lia).
  rewrite (final_offset cells G _ _ Hplaced c Hlt) in Hc.
  by injection Hc as <-.
Qed.

(** What [add_to_cells] returns, in terms of the cell coordinates of the
    points. *)
Lemma add_to_cells_result (uninit : nat → Z) (points : points_t)
    (cell_size : float) (D : nat) :
  points ≠ [] → Forall (fun row => length row = D) points → (0 < D)%nat →
  float_pos cell_size = true → fits_int64 points cell_size →
  let X := coordinates cell_size <$> points in
  let cells := cell_id X <$> X in
  let G := Z.to_nat (product_Z (extent X)) in
  ∃ points_indices cells_offset,
    locate_points points cell_size = Ok (lowest X, extent X, cells) ∧
    add_to_cells uninit points cell_size
    = Ok (points_indices, counts_of cells G, cells_offset, extent X) ∧
    placed cells G (length cells) (points_indices, cells_offset) ∧
    (∀ l, l ∈ cells → 0 ≤ l < Z.of_nat G) ∧
    length cells = length points ∧
    Z.of_nat G = product_Z (extent X).
Proof.
  intros Hne Hrect HD Hpos Hfit X cells G.
  destruct (add_to_cells_spec points cell_size D Hne Hrect HD Hfit uninit Hpos)
    as (pi & co & Hadd & Hplaced).
  exists pi, co. split_and!; try done.
  - by apply (locate_points_spec points cell_size D).
  - apply (cell_ids_in_grid points cell_size D Hne Hrect HD).
  - apply length_cells.
  - apply (Z_of_nat_G points cell_size D Hrect HD).
Qed.

(** X1. After the placement [cells_offset[c]] is the start of the block of
    the cell [c]: the sum of the counts of the cells before [c]. *)
Theorem add_to_cells_offsets_cumulative (uninit : nat → Z) (points : points_t)
    (cell_size : float) (D : nat) :
  points ≠ [] → Forall (fun row => length row = D) points → (0 < D)%nat →
  float_pos cell_size = true → fits_int64 points cell_size →
  ∃ points_indices cells_count cells_offset grid_shape,
    add_to_cells uninit points cell_size
    = Ok (points_indices, cells_count, cells_offset, grid_shape) ∧
    length cells_offset = length cells_count ∧
    ∀ c start, cells_offset !! c = Some start →
               start = prefix_sum cells_count c.
Proof.
  intros Hne Hrect HD Hpos Hfit.
  destruct (add_to_cells_result uninit points cell_size D Hne Hrect HD Hpos Hfit)
    as (pi & co & _ & Hadd & Hplaced & _).
  eexists _, _, _, _. split; [exact Hadd|].
  rewrite length_counts_of.
  by apply (offsets_prefix_sums _ _ pi).
Qed.

Lemma add_to_cells_offsets_cumulative_witness :
  (four_points ≠ [] ∧ Forall (fun row => length row = 2%nat) four_points ∧
   (0 < 2)%nat ∧ float_pos (float_of_int 1) = true ∧
   fits_int64 four_points (float_of_int 1)) ∧
  ∃ points_indices cells_count cells_offset grid_shape,
    add_to_cells zeroed four_points (float_of_int 1)
    = Ok (points_indices, cells_count, cells_offset, grid_shape) ∧
    length cells_offset = length cells_count ∧
    ∀ c start, cells_offset !! c = Some start →
               start = prefix_sum cells_count c.
Proof.
  split; [exact four_points_valid|].
  destruct four_points_valid as (H1 & H2 & H3 & H4 & H5).
  exact (add_to_cells_offsets_cumulative zeroed four_points (float_of_int 1) 2
           H1 H2 H3 H4 H5).
Defined.

(** X2. [points_indices] lists the points cell after cell, in the order of
    the cell indices, and the points of one cell from the last one of the
    input to the first one. *)
Theorem add_to_cells_sorted_by_cell (uninit : nat → Z) (points : points_t)
    (cell_size : float) (D : nat) :
  points ≠ [] → Forall (fun row => length row = D) points → (0 < D)%nat →
  float_pos cell_size = true → fits_int64 points cell_size →
  ∃ x_min cells points_indices cells_count cells_offset grid_shape,
    locate_points points cell_size = Ok (x_min, grid_shape, cells) ∧
    add_to_cells uninit points cell_size
    = Ok (points_indices, cells_count, cells_offset, grid_shape) ∧
    points_indices
    = range 0 (Z.of_nat (length cells_count)) ≫= fun c =>
        Z.of_nat <$> reverse (points_of_cell cells c).
Proof.
  intros Hne Hrect HD Hpos Hfit.
  destruct (add_to_cells_result uninit points cell_size D Hne Hrect HD Hpos Hfit)
    as (pi & co & Hloc & Hadd & Hplaced & Hin & _).
  eexists _, _, _, _, _, _. split; [exact Hloc|]. split; [exact Hadd|].
  rewrite length_counts_of.
  by apply (blocks_concatenated _ _ pi co).
Qed.

Lemma add_to_cells_sorted_by_cell_witness :
  (four_points ≠ [] ∧ Forall (fun row => length row = 2%nat) four_points ∧
   (0 < 2)%nat ∧ float_pos (float_of_int 1) = true ∧
   fits_int64 four_points (float_of_int 1)) ∧
  ∃ x_min cells points_indices cells_count cells_offset grid_shape,
    locate_points four_points (float_of_int 1) = Ok (x_min, grid_shape, cells) ∧
    add_to_cells zeroed four_points (float_of_int 1)
    = Ok (points_indices, cells_count, cells_offset, grid_shape) ∧
    points_indices
    = range 0 (Z.of_nat (length cells_count)) ≫= fun c =>
        Z.of_nat <$> reverse (points_of_cell cells c).
Proof.
  split; [exact four_points_valid|].
  destruct four_points_valid as (H1 & H2 & H3 & H4 & H5).
  exact (add_to_cells_sorted_by_cell zeroed four_points (float_of_int 1) 2
           H1 H2 H3 H4 H5).
Defined.

(** X3. The result of [add_to_cells] does not depend on what [np.empty]
    finds in the memory: every entry of the arrays is written. *)
Theorem add_to_cells_ignores_uninit (uninit uninit' : nat → Z)
    (points : points_t) (cell_size : float) (D : nat) :
  points ≠ [] → Forall (fun row => length row = D) points → (0 < D)%nat →
  float_pos cell_size = true → fits_int64 points cell_size →
  add_to_cells uninit points cell_size = add_to_cells uninit' points cell_size.
Proof.
  intros Hne Hrect HD Hpos Hfit.
  destruct (add_to_cells_result uninit points cell_size D Hne Hrect HD Hpos Hfit)
    as (pi & co & _ & -> & Hplaced & Hin & _).
  destruct (add_to_cells_result uninit' points cell_size D Hne Hrect HD Hpos Hfit)
    as (pi' & co' & _ & -> & Hplaced' & _).
  rewrite (blocks_concatenated _ _ pi co Hin Hplaced).
  rewrite (blocks_concatenated _ _ pi' co' Hin Hplaced').
  do 3 f_equal.
  apply list_eq. intros c.
  pose proof Hplaced as (_ & Hlen & _). pose proof Hplaced' as (_ & Hlen' & _).
  destruct (decide (c < Z.to_nat (product_Z (extent (coordinates cell_size <$> points))))%nat)
    as [Hc|Hc].
  - rewrite (final_offset _ _ _ _ Hplaced c Hc).
    by rewrite (final_offset _ _ _ _ Hplaced' c Hc).
  - rewrite !lookup_ge_None_2 by lia. done.
Qed.

Lemma add_to_cells_ignores_uninit_witness :
  (four_points ≠ [] ∧ Forall (fun row => length row = 2%nat) four_points ∧
   (0 < 2)%nat ∧ float_pos (float_of_int 1) = true ∧
   fits_int64 four_points (float_of_int 1)) ∧
  add_to_cells zeroed four_points (float_of_int 1)
  = add_to_cells (fun k => Z.of_nat k + 7) four_points (float_of_int 1).
Proof.
  split; [exact four_points_valid|].
  destruct four_points_valid as (H1 & H2 & H3 & H4 & H5).
  exact (add_to_cells_ignores_uninit zeroed (fun k => Z.of_nat k + 7)
           four_points (float_of_int 1) 2 H1 H2 H3 H4 H5).
Defined.

(** ** [add_to_cells]: the grid *)

(** X4. The cells on the border of the grid, the ghost cells, hold no
    point: a cell one of whose coordinates is [0] or the last one of its
    dimension has the count [0]. *)
Theorem add_to_cells_ghost_cells_empty (uninit : nat → Z) (points : points_t)
    (cell_size : float) (D : nat) :
  points ≠ [] → Forall (fun row => length row = D) points → (0 < D)%nat →
  float_pos cell_size = true → fits_int64 points cell_size →
  ∃ points_indices cells_count cells_offset grid_shape,
    add_to_cells uninit points cell_size
    = Ok (points_indices, cells_count, cells_offset, grid_shape) ∧
    ∀ digits : list Z,
      length digits = length grid_shape →
      (∀ k d n, digits !! k = Some d → grid_shape !! k = Some n → 0 ≤ d < n) →
      (∃ k d n, digits !! k = Some d ∧ grid_shape !! k = Some n ∧
                (d = 0 ∨ d = n - 1)) →
      cells_count !! Z.to_nat (flat_index grid_shape digits) = Some 0.
Proof.
  intros Hne Hrect HD Hpos Hfit.
  destruct (add_to_cells_result uninit points cell_size D Hne Hrect HD Hpos Hfit)
    as (pi & co & _ & Hadd & _ & _ & _ & HG).
  eexists _, _, _, _. split; [exact Hadd|].
  set (X := coordinates cell_size <$> points) in *.
  intros digits Hlen Hrange (k & d & n & Hd & Hn & Hghost).
  pose proof (shape_nonempty points cell_size D Hne Hrect HD) as Hshape.
  pose proof (length_shape points cell_size D Hne Hrect) as HlenS.
  fold X in Hshape, HlenS.
  pose proof (flat_index_bounds (extent X) digits Hshape Hlen Hrange) as Hb.
  rewrite counts_of_lookup by lia.
  rewrite Z2Nat.id by lia. do 2 f_equal.
  destruct (decide (occ (cell_id X <$> X) (flat_index (extent X) digits) = 0%nat))
    as [->|Hocc]; [done|exfalso].
  assert (flat_index (extent X) digits ∈ cell_id X <$> X) as Hc
    by (apply occ_pos_elem; lia).
  apply (elem_of_cells points cell_size) in Hc as (i & row & Hrow & Hc).
  fold X in Hc. unfold cell_id in Hc.
  pose proof (length_digits points cell_size D Hne Hrect HD i row Hrow) as Hlen'.
  fold X in Hlen'.
  apply flat_index_inj in Hc; [| lia | lia |].
  - subst digits.
    destruct (digit_bounds points cell_size D Hrect HD i row Hrow k d Hd)
      as (n' & Hn' & Hdn).
    fold X in Hn'. rewrite Hn in Hn'. injection Hn' as <-. lia.
  - intros t x y m Hx Hy Hm.
    pose proof (Hrange _ _ _ Hx Hm).
    destruct (digit_bounds points cell_size D Hrect HD i row Hrow _ _ Hy)
      as (m' & Hm' & Hym).
    fold X in Hm'. rewrite Hm in Hm'. injection Hm' as <-. lia.
Qed.

Lemma add_to_cells_ghost_cells_empty_witness :
  (four_points ≠ [] ∧ Forall (fun row => length row = 2%nat) four_points ∧
   (0 < 2)%nat ∧ float_pos (float_of_int 1) = true ∧
   fits_int64 four_points (float_of_int 1)) ∧
  ∃ points_indices cells_count cells_offset grid_shape,
    add_to_cells zeroed four_points (float_of_int 1)
    = Ok (points_indices, cells_count, cells_offset, grid_shape) ∧
    ∀ digits : list Z,
      length digits = length grid_shape →
      (∀ k d n, digits !! k = Some d → grid_shape !! k = Some n → 0 ≤ d < n) →
      (∃ k d n, digits !! k = Some d ∧ grid_shape !! k = Some n ∧
                (d = 0 ∨ d = n - 1)) →
      cells_count !! Z.to_nat (flat_index grid_shape digits) = Some 0.
Proof.
  split; [exact four_points_valid|].
  destruct four_points_valid as (H1 & H2 & H3 & H4 & H5).
  exact (add_to_cells_ghost_cells_empty zeroed four_points (float_of_int 1) 2
           H1 H2 H3 H4 H5).
Defined.

(** X5. In every dimension the shape of the grid is the spread of the cell
    coordinates [np.int64(p / cell_size)] of the points, plus one, plus the
    two ghost cells: at least three cells. *)
Theorem add_to_cells_grid_shape (uninit : nat → Z) (points : points_t)
    (cell_size : float) (D : nat) :
  points ≠ [] → Forall (fun row => length row = D) points → (0 < D)%nat →
  float_pos cell_size = true → fits_int64 points cell_size →
  ∃ points_indices cells_count cells_offset grid_shape,
    add_to_cells uninit points cell_size
    = Ok (points_indices, cells_count, cells_offset, grid_shape) ∧
    length grid_shape = D ∧
    ∀ j n, grid_shape !! j = Some n →
      ∃ lo hi,
        n = hi - lo + 3 ∧ 3 ≤ n ∧
        (∀ row p, row ∈ points → row !! j = Some p →
                  lo ≤ cell_coordinate cell_size p ≤ hi) ∧
        (∃ row p, row ∈ points ∧ row !! j = Some p ∧
                  cell_coordinate cell_size p = lo) ∧
        (∃ row p, row ∈ points ∧ row !! j = Some p ∧
                  cell_coordinate cell_size p = hi).
Proof.
  intros Hne Hrect HD Hpos Hfit.
  destruct (add_to_cells_result uninit points cell_size D Hne Hrect HD Hpos Hfit)
    as (pi & co & _ & Hadd & _).
  eexists _, _, _, _. split; [exact Hadd|].
  set (X := coordinates cell_size <$> points) in *.
  split; [apply (length_shape points cell_size D Hne Hrect)|].
  intros j n Hn.
  assert (∀ xs x, xs ∈ X → xs !! j = Some x →
            ∃ row p, row ∈ points ∧ row !! j = Some p ∧
                     cell_coordinate cell_size p = x) as Hback.
  { intros xs x (row & -> & Hrow)%list_elem_of_fmap Hx.
    unfold coordinates in Hx. rewrite list_lookup_fmap in Hx.
    destruct (row !! j) as [p|] eqn:Hp; [|done].
    injection Hx as <-. by exists row, p. }
  assert (∀ row p, row ∈ points → row !! j = Some p →
            coordinates cell_size row ∈ X ∧
            coordinates cell_size row !! j = Some (cell_coordinate cell_size p))
    as Hforth.
  { intros row p Hrow Hp. split.
    - by apply list_elem_of_fmap_2.
    - unfold coordinates. by rewrite list_lookup_fmap, Hp. }
  unfold extent in Hn.
  apply lookup_zip_with_Some in Hn as (hi & lo & -> & Hhi & Hlo).
  destruct (lowest_spec X j lo Hlo) as [Hlow (xs & Hxs & Hxlo)].
  destruct (highest_spec X j hi Hhi) as [Hhigh (ys & Hys & Hyhi)].
  exists lo, hi. split_and!.
  - done.
  - pose proof (Hhigh xs lo Hxs Hxlo). lia.
  - intros row p Hrow Hp. destruct (Hforth row p Hrow Hp) as [H1 H2].
    split; [by eapply Hlow | by eapply Hhigh].
  - exact (Hback xs lo Hxs Hxlo).
  - exact (Hback ys hi Hys Hyhi).
Qed.

Lemma add_to_cells_grid_shape_witness :
  (four_points ≠ [] ∧ Forall (fun row => length row = 2%nat) four_points ∧
   (0 < 2)%nat ∧ float_pos (float_of_int 1) = true ∧
   fits_int64 four_points (float_of_int 1)) ∧
  ∃ points_indices cells_count cells_offset grid_shape,
    add_to_cells zeroed four_points (float_of_int 1)
    = Ok (points_indices, cells_count, cells_offset, grid_shape) ∧
    length grid_shape = 2%nat ∧
    ∀ j n, grid_shape !! j = Some n →
      ∃ lo hi,
        n = hi - lo + 3 ∧ 3 ≤ n ∧
        (∀ row p, row ∈ four_points → row !! j = Some p →
                  lo ≤ cell_coordinate (float_of_int 1) p ≤ hi) ∧
        (∃ row p, row ∈ four_points ∧ row !! j = Some p ∧
                  cell_coordinate (float_of_int 1) p = lo) ∧
        (∃ row p, row ∈ four_points ∧ row !! j = Some p ∧
                  cell_coordinate (float_of_int 1) p = hi).
Proof.
  split; [exact four_points_valid|].
  destruct four_points_valid as (H1 & H2 & H3 & H4 & H5).
  exact (add_to_cells_grid_shape zeroed four_points (float_of_int 1) 2
           H1 H2 H3 H4 H5).
Defined.

(** X6. The cell of a point is the row-major index, in the grid, of its
    cell coordinates shifted so that the least one of every dimension is
    [1], and [cells_count[c]] is the number of the points of the cell [c]. *)
Theorem add_to_cells_cell_ids (uninit : nat → Z) (points : points_t)
    (cell_size : float) (D : nat) :
  points ≠ [] → Forall (fun row => length row = D) points → (0 < D)%nat →
  float_pos cell_size = true → fits_int64 points cell_size →
  ∃ x_min cells points_indices cells_count cells_offset grid_shape,
    locate_points points cell_size = Ok (x_min, grid_shape, cells) ∧
    add_to_cells uninit points cell_size
    = Ok (points_indices, cells_count, cells_offset, grid_shape) ∧
    length cells = length points ∧
    (∀ i row, points !! i = Some row →
       cells !! i
       = Some (flat_index grid_shape
                 (normalized_coordinates x_min (coordinates cell_size row)))) ∧
    Z.of_nat (length cells_count) = product_Z grid_shape ∧
    ∀ (c : nat) n, cells_count !! c = Some n →
                   n = Z.of_nat (occ cells (Z.of_nat c)).
Proof.
  intros Hne Hrect HD Hpos Hfit.
  destruct (add_to_cells_result uninit points cell_size D Hne Hrect HD Hpos Hfit)
    as (pi & co & Hloc & Hadd & _ & _ & Hlen & HG).
  eexists _, _, _, _, _, _.
  split; [exact Hloc|]. split; [exact Hadd|]. split; [exact Hlen|].
  split; [|split].
  - intros i row Hrow. by apply cells_lookup.
  - by rewrite length_counts_of.
  - intros c n Hn.
    assert (c < length (counts_of (cell_id (coordinates cell_size <$> points) <$>
                                     (coordinates cell_size <$> points))
                          (Z.to_nat (product_Z (extent (coordinates cell_size <$> points))))))%nat
      as Hc by (by eapply lookup_lt_Some).
    rewrite length_counts_of in Hc.
    rewrite counts_of_lookup in Hn by done. by injection Hn as <-.
Qed.

Lemma add_to_cells_cell_ids_witness :
  (four_points ≠ [] ∧ Forall (fun row => length row = 2%nat) four_points ∧
   (0 < 2)%nat ∧ float_pos (float_of_int 1) = true ∧
   fits_int64 four_points (float_of_int 1)) ∧
  ∃ x_min cells points_indices cells_count cells_offset grid_shape,
    locate_points four_points (float_of_int 1) = Ok (x_min, grid_shape, cells) ∧
    add_to_cells zeroed four_points (float_of_int 1)
    = Ok (points_indices, cells_count, cells_offset, grid_shape) ∧
    length cells = length four_points ∧
    (∀ i row, four_points !! i = Some row →
       cells !! i
       = Some (flat_index grid_shape
                 (normalized_coordinates x_min (coordinates (float_of_int 1) row)))) ∧
    Z.of_nat (length cells_count) = product_Z grid_shape ∧
    ∀ (c : nat) n, cells_count !! c = Some n →
                   n = Z.of_nat (occ cells (Z.of_nat c)).
Proof.
  split; [exact four_points_valid|].
  destruct four_points_valid as (H1 & H2 & H3 & H4 & H5).
  exact (add_to_cells_cell_ids zeroed four_points (float_of_int 1) 2
           H1 H2 H3 H4 H5).
Defined.

(** ** [neighboring_cells]: the tuples that are kept *)

Lemma range_split lo mid hi :
  lo ≤ mid ≤ hi → range lo hi = range lo mid ++ range mid hi.
Proof.
  intros H. unfold range.
  replace (hi - lo) with ((mid - lo) + (hi - mid)) by lia.
  rewrite seqZ_app by lia. do 2 f_equal. lia.
Qed.

Lemma range_cons lo hi : lo < hi → range lo hi = lo :: range (lo + 1) hi.
Proof.
  intros H. unfold range. rewrite seqZ_cons by lia.
  do 2 f_equal; lia.
Qed.

(** The tuples kept in [D + 1] dimensions: those that start with [0] and
    go on with a tuple kept in [D] dimensions, then all those that start
    with a positive number. *)
Lemma kept_tuples_S (D : nat) (distance : Z) :
  1 ≤ distance →
  kept_tuples (S D) distance
  = (cons 0 <$> kept_tuples D distance)
    ++ (range 1 (distance + 1) ≫= fun x =>
          cons x <$> product D (range (- distance) (distance + 1))).
Proof.
  intros Hd. unfold kept_tuples.
  set (base := range (- distance) (distance + 1)).
  set (P := product D base).
  rewrite product_S. fold P.
  destruct (length_prod_odd D distance Hd) as [m Hm]. fold base P in Hm.
  assert (length (product (S D) base) = ((2 * Z.to_nat distance + 1) * length P)%nat)
    as HS.
  { rewrite length_product. unfold base at 1.
    rewrite (length_base distance Hd). unfold P, base.
    by rewrite length_product, (length_base distance Hd). }
  rewrite product_S in HS. fold P in HS. rewrite HS, Hm.
  replace ((2 * Z.to_nat distance + 1) * (2 * m + 1) / 2)%nat
    with (Z.to_nat distance * (2 * m + 1) + m)%nat.
  2:{ apply (Nat.div_unique _ _ _ 1%nat); lia. }
  replace ((2 * m + 1) / 2)%nat with m
    by (apply (Nat.div_unique _ _ _ 1%nat); lia).
  unfold base at 1.
  rewrite (range_split (- distance) 0 (distance + 1)) by lia.
  rewrite (range_cons 0) by lia.
  rewrite bind_app, bind_cons. simpl (0 + 1).
  rewrite <- Nat.add_assoc.
  rewrite drop_app_add'.
  2:{ rewrite (length_bind_const _ _ (length P)).
      - rewrite length_range, Hm. f_equal. lia.
      - intros x _. by rewrite length_fmap. }
  rewrite drop_app_le by (rewrite length_fmap; lia).
  by rewrite fmap_drop.
Qed.

Lemma kept_tuples_0 (distance : Z) : kept_tuples 0 distance = [].
Proof. reflexivity. Qed.

(** The first component of a kept tuple that is not [0] is positive. *)
Lemma kept_positive (distance : Z) (D : nat) : ∀ delta,
  1 ≤ distance → delta ∈ kept_tuples D distance →
  ∃ (z : nat) x rest,
    delta = replicate z 0 ++ x :: rest ∧ 1 ≤ x ≤ distance ∧
    Forall (fun y => - distance ≤ y ≤ distance) rest.
Proof.
  induction D as [|D IH]; intros delta Hd Hin.
  - rewrite kept_tuples_0 in Hin. by apply elem_of_nil in Hin.
  - rewrite kept_tuples_S in Hin by done.
    apply elem_of_app in Hin as [Hin|Hin].
    + apply list_elem_of_fmap in Hin as (delta' & -> & Hin).
      destruct (IH delta' Hd Hin) as (z & x & rest & -> & Hx & Hrest).
      by exists (S z), x, rest.
    + apply list_elem_of_bind in Hin as (x & Hin & Hx).
      apply list_elem_of_fmap in Hin as (rest & -> & Hrest).
      apply elem_of_range in Hx.
      apply (elem_of_prod D distance) in Hrest as [_ Hrest].
      exists 0%nat, x, rest. split; [done|]. split; [lia|done].
Qed.

(** ** [neighboring_cells]: the offsets *)

Lemma mix_pos (d : Z) dns : ∀ l,
  0 ≤ d → 1 ≤ l →
  Forall (fun dn => - d ≤ dn.1 ≤ d ∧ 2 * d + 1 ≤ dn.2) dns →
  1 ≤ mix l dns.
Proof.
  induction dns as [|[i n] dns IH]; intros l Hd Hl Hdns; [done|].
  apply Forall_cons in Hdns as [[Hi Hn] Hdns]. simpl in Hi, Hn.
  rewrite mix_cons. apply IH; [done | nia | done].
Qed.

Lemma flat_index_skip_zero n0 shape delta :
  delta ≠ [] → length delta = length shape →
  flat_index (n0 :: shape) (0 :: delta) = flat_index shape delta.
Proof.
  intros Hne Hlen. destruct delta as [|d1 ds]; [done|].
  destruct shape as [|n1 ns]; [done|].
  unfold flat_index. cbn [tail zip zip_with]. rewrite mix_cons.
  f_equal.
Qed.

(** The flat index of a tuple whose first component that is not [0] is
    positive is positive. *)
Lemma flat_index_lex_pos (d : Z) (z : nat) : ∀ shape x rest,
  0 ≤ d → 1 ≤ x →
  Forall (fun y => - d ≤ y ≤ d) rest →
  Forall (fun n => 2 * d + 1 ≤ n) (tail shape) →
  length (replicate z 0 ++ x :: rest) = length shape →
  1 ≤ flat_index shape (replicate z 0 ++ x :: rest).
Proof.
  induction z as [|z IH]; intros shape x rest Hd Hx Hrest Hshape Hlen.
  - simpl. apply (mix_pos d); [done..|].
    apply Forall_lookup. intros k [i n] Hk.
    apply lookup_zip_with_Some in Hk as (i' & n' & [= <- <-] & Hi & Hn). simpl.
    split.
    + exact (proj1 (Forall_lookup _ _) Hrest _ _ Hi).
    + exact (proj1 (Forall_lookup _ _) Hshape _ _ Hn).
  - destruct shape as [|n0 shape]; [done|].
    cbn [replicate app]. rewrite flat_index_skip_zero.
    + simpl in Hshape. apply (IH shape); try done.
      * destruct shape; [done|]. by apply Forall_cons in Hshape as [_ ?].
      * simpl in Hlen. lia.
    + by destruct z.
    + simpl in Hlen. lia.
Qed.

Section offsets.
Variable grid_shape : list Z.
Variable distance : Z.
Hypothesis grid_shape_nonempty : grid_shape ≠ [].
Hypothesis distance_pos : 1 ≤ distance.
Hypothesis wide : Forall (fun n => 2 * distance + 1 ≤ n) (tail grid_shape).
Hypothesis fits :
  (distance + 1) * product_Z (tail grid_shape) ≤ int64_max.

Local Abbreviation D := (length grid_shape).
Local Abbreviation prod := (product D (range (- distance) (distance + 1))).
Local Abbreviation kept := (kept_tuples D distance).

Lemma digits_of_prod delta k i n :
  delta ∈ prod → delta !! S k = Some i → grid_shape !! S k = Some n →
  - distance ≤ i ≤ distance ∧ 2 * distance + 1 ≤ n.
Proof.
  intros [_ Hd]%elem_of_prod Hi Hn. split.
  - exact (proj1 (Forall_lookup _ _) Hd _ _ Hi).
  - rewrite <- lookup_tail in Hn.
    exact (proj1 (Forall_lookup _ _) wide _ _ Hn).
Qed.

(** No offset of the neighbourhood wraps around. *)
Lemma offset_of_prod delta :
  delta ∈ prod → offset_of grid_shape delta = flat_index grid_shape delta.
Proof.
  intros Hin. pose proof Hin as [Hlen Hd]%elem_of_prod.
  destruct delta as [|i0 is_], grid_shape as [|n0 ns] eqn:Hgs; try done.
  apply Forall_cons in Hd as [Hi0 His]. simpl in Hlen.
  unfold offset_of, flat_index. cbn [tail] in *.
  pose proof (wrapped_mix (zip is_ ns) i0 (distance + 1)) as H.
  rewrite snd_zip in H by lia. apply H; [lia | | done].
  apply Forall_lookup. intros k [i n] Hk.
  apply lookup_zip_with_Some in Hk as (i' & n' & [= <- <-] & Hi & Hn). simpl.
  pose proof (proj1 (Forall_lookup _ _) His _ _ Hi) as Hi1.
  pose proof (proj1 (Forall_lookup _ _) wide _ _ Hn) as Hn1.
  simpl in *. lia.
Qed.

Lemma flat_index_prod_injective delta delta' :
  delta ∈ prod → delta' ∈ prod →
  flat_index grid_shape delta = flat_index grid_shape delta' → delta = delta'.
Proof.
  intros Hin Hin'.
  pose proof Hin as [Hl _]%elem_of_prod. pose proof Hin' as [Hl' _]%elem_of_prod.
  apply flat_index_inj; [done.. |].
  intros k x y n Hx Hy Hn.
  pose proof (digits_of_prod _ _ _ _ Hin Hx Hn).
  pose proof (digits_of_prod _ _ _ _ Hin' Hy Hn). lia.
Qed.

Lemma flat_index_kept_pos delta :
  delta ∈ kept → 1 ≤ flat_index grid_shape delta.
Proof.
  intros Hin. pose proof (kept_in_prod _ _ _ Hin) as [Hlen _]%elem_of_prod.
  destruct (kept_positive distance D delta distance_pos Hin)
    as (z & x & rest & -> & Hx & Hrest).
  apply (flat_index_lex_pos distance); [lia | lia | done..].
Qed.

Lemma offsets_positive_distinct :
  ∃ offs,
    neighboring_cells grid_shape distance = Ok offs ∧
    Forall (fun o => 0 < o) offs ∧ NoDup offs.
Proof.
  eexists. split; [by apply neighboring_cells_spec|].
  assert (offset_of grid_shape <$> kept = flat_index grid_shape <$> kept) as ->.
  { apply Forall_fmap_ext, Forall_forall. intros delta Hd.
    by apply offset_of_prod, kept_in_prod. }
  split.
  - apply Forall_fmap, Forall_forall. intros delta Hd. simpl.
    pose proof (flat_index_kept_pos delta Hd). lia.
  - apply NoDup_fmap_2_strong; [|by apply NoDup_kept].
    intros d d' Hd Hd'. apply flat_index_prod_injective; by apply kept_in_prod.
Qed.
End offsets.

(** X7. The outcomes of [neighboring_cells]: the assertion fails exactly
    for a distance below [1]; an empty shape leaves no tuple to encode and
    is refused as a type error; every other call returns the offsets. *)
Theorem neighboring_cells_outcome (grid_shape : list Z) (distance : Z) :
  (neighboring_cells grid_shape distance = Raise AssertionError ↔ distance < 1) ∧
  (neighboring_cells grid_shape distance = Raise TypeError
   ↔ 1 ≤ distance ∧ grid_shape = []) ∧
  ((∃ offs, neighboring_cells grid_shape distance = Ok offs)
   ↔ 1 ≤ distance ∧ grid_shape ≠ []).
Proof.
  destruct (decide (distance < 1)) as [Hd|Hd].
  - assert (neighboring_cells grid_shape distance = Raise AssertionError) as ->.
    { unfold neighboring_cells. destruct (Z.leb_spec 1 distance); [lia|done]. }
    split_and!.
    + done.
    + split; [done | intros [? _]; lia].
    + split; [by intros [? ?] | intros [? _]; lia].
  - destruct grid_shape as [|n0 ns].
    + assert (neighboring_cells [] distance = Raise TypeError) as ->.
      { unfold neighboring_cells. destruct (Z.leb_spec 1 distance); [|lia]. done. }
      split_and!.
      * split; [done | lia].
      * split; [intros _; split; [lia|done] | done].
      * split; [by intros [? ?] | by intros [_ ?]].
    + rewrite neighboring_cells_spec by (done || lia).
      split_and!.
      * split; [done | lia].
      * split; [done | by intros [_ ?]].
      * split; [intros _; split; [lia|done] | intros _; by eexists].
Qed.

(** X8. The offsets do not depend on the number of cells of the first
    dimension. *)
Theorem neighboring_cells_first_dimension (n0 n0' : Z) (ns : list Z)
    (distance : Z) :
  neighboring_cells (n0 :: ns) distance = neighboring_cells (n0' :: ns) distance.
Proof.
  destruct (decide (distance < 1)) as [Hd|Hd].
  - unfold neighboring_cells. by destruct (Z.leb_spec 1 distance); [lia|].
  - rewrite !neighboring_cells_spec by (done || lia). reflexivity.
Qed.

(** X9. On a line the offsets of the distance [d] are [1, ..., d]. *)
Theorem neighboring_cells_line (n : Z) (distance : Z) :
  1 ≤ distance →
  neighboring_cells [n] distance = Ok (range 1 (distance + 1)).
Proof.
  intros Hd. rewrite neighboring_cells_spec by done. f_equal.
  simpl length. rewrite kept_tuples_S, kept_tuples_0 by done.
  simpl product. rewrite fmap_nil, app_nil_l.
  induction (range 1 (distance + 1)) as [|x l IH]; [done|].
  rewrite bind_cons, fmap_app, IH. done.
Qed.

Lemma neighboring_cells_line_witness :
  1 ≤ 2 ∧ neighboring_cells [7] 2 = Ok (range 1 (2 + 1)).
Proof. split; [lia|]. apply (neighboring_cells_line 7 2). lia. Defined.

(** X10. In the plane the offsets of the distance [1] are those of the
    four cells right, below left, below and below right: [1], [n - 1], [n]
    and [n + 1] for rows of [n] cells. *)
Theorem neighboring_cells_plane (m n : Z) :
  int64_min < n < int64_max →
  neighboring_cells [m; n] 1 = Ok [1; n - 1; n; n + 1].
Proof.
  intros Hn. rewrite neighboring_cells_spec by done. f_equal.
  change (kept_tuples (length [m; n]) 1) with [[0; 1]; [1; -1]; [1; 0]; [1; 1]].
  unfold offset_of. cbn [fmap list_fmap zip zip_with tail fold_left].
  rewrite Z.mul_0_l, Z.mul_1_l, Z.add_0_r.
  pose proof int64_min_eq. pose proof int64_max_eq.
  rewrite (wrap64_id 0), (wrap64_id n) by lia.
  rewrite !wrap64_id by lia.
  reflexivity.
Qed.

Lemma neighboring_cells_plane_witness :
  int64_min < 5 < int64_max ∧ neighboring_cells [5; 5] 1 = Ok [1; 5 - 1; 5; 5 + 1].
Proof.
  assert (int64_min < 5 < int64_max) as H by (split; reflexivity).
  split; [exact H|]. exact (neighboring_cells_plane 5 5 H).
Defined.

(** X11. When every dimension after the first one has more than twice the
    distance cells and the offsets fit in [i8], the offsets are positive
    and pairwise distinct: a cell looks only at cells with a greater index,
    and at none of them twice. *)
Theorem neighboring_cells_positive_distinct (grid_shape : list Z) (distance : Z) :
  grid_shape ≠ [] → 1 ≤ distance →
  Forall (fun n => 2 * distance + 1 ≤ n) (tail grid_shape) →
  (distance + 1) * product_Z (tail grid_shape) ≤ int64_max →
  ∃ offs,
    neighboring_cells grid_shape distance = Ok offs ∧
    Forall (fun o => 0 < o) offs ∧ NoDup offs.
Proof. apply offsets_positive_distinct. Qed.

Lemma neighboring_cells_positive_distinct_witness :
  ([3; 5; 7] ≠ [] ∧ 1 ≤ 2 ∧
   Forall (fun n => 2 * 2 + 1 ≤ n) (tail [3; 5; 7]) ∧
   (2 + 1) * product_Z (tail [3; 5; 7]) ≤ int64_max) ∧
  ∃ offs,
    neighboring_cells [3; 5; 7] 2 = Ok offs ∧
    Forall (fun o => 0 < o) offs ∧ NoDup offs.
Proof.
  assert ([3; 5; 7] ≠ [] ∧ 1 ≤ 2 ∧
          Forall (fun n => 2 * 2 + 1 ≤ n) (tail [3; 5; 7]) ∧
          (2 + 1) * product_Z (tail [3; 5; 7]) ≤ int64_max) as H.
  { split_and!; [done | lia | repeat constructor; lia | vm_compute; discriminate]. }
  split; [exact H|]. destruct H as (H1 & H2 & H3 & H4).
  exact (neighboring_cells_positive_distinct [3; 5; 7] 2 H1 H2 H3 H4).
Defined.

(** ** [iter_nearest_neighbors]: the cells, one after the other *)

Lemma getitem_in_range {A} (a : list A) (i : Z) :
  - Z.of_nat (length a) ≤ i < Z.of_nat (length a) → ∃ x, getitem a i = Ok x.
Proof.
  intros H. unfold getitem, resolve_index.
  set (k := if i <? 0 then i + Z.of_nat (length a) else i).
  assert (0 ≤ k < Z.of_nat (length a)) as Hk
    by (subst k; destruct (Z.ltb_spec i 0); lia).
  destruct (Z.leb_spec 0 k), (Z.ltb_spec k (Z.of_nat (length a))); try lia.
  simpl_result.
  destruct (lookup_lt_is_Some_2 a (Z.to_nat k)) as [x Hx]; [lia|].
  cbn [andb]. rewrite Hx. by exists x.
Qed.

Lemma yieldM_app {A B} (body : A → result (list B)) xs ys :
  yieldM body (xs ++ ys)
  = (ps ← yieldM body xs; qs ← yieldM body ys; Ok (ps ++ qs)).
Proof.
  induction xs as [|x xs IH]; simpl.
  - simpl_result. by destruct (yieldM body ys).
  - rewrite IH. simpl_result.
    destruct (body x) as [p|e]; [|done].
    destruct (yieldM body xs) as [ps|e]; [|done].
    destruct (yieldM body ys) as [qs|e]; [|done].
    by rewrite app_assoc.
Qed.

Lemma yieldM_skip {A B} (body : A → result (list B)) x xs :
  body x = Ok [] → yieldM body (x :: xs) = yieldM body xs.
Proof.
  intros H. simpl. rewrite H. simpl_result. by destruct (yieldM body xs).
Qed.

(** X13. A cell without points yields nothing and none of its neighbours
    is looked at: leaving the empty cells out of [cell_indices] changes
    neither the pairs nor the failure of the enumeration. *)
Theorem iter_nearest_neighbors_skips_empty
    (cell_indices neigh_cells points_indices cells_count cells_offset : list Z) :
  Forall (fun c => - Z.of_nat (length cells_count) ≤ c
                   < Z.of_nat (length cells_count)) cell_indices →
  iter_nearest_neighbors
    (filter (fun c => occupied cells_count c = true) cell_indices)
    neigh_cells points_indices cells_count cells_offset
  = iter_nearest_neighbors cell_indices neigh_cells points_indices
      cells_count cells_offset.
Proof.
  unfold iter_nearest_neighbors.
  induction cell_indices as [|c cs IH]; intros Hin; [done|].
  apply Forall_cons in Hin as [Hc Hcs].
  rewrite filter_cons. destruct (decide (occupied cells_count c = true)) as [Ho|Ho].
  - simpl. by rewrite IH.
  - rewrite IH by done. symmetry. apply yieldM_skip.
    unfold occupied in Ho. unfold pairs_of_cell.
    destruct (getitem cells_count c) as [n|e] eqn:Hg.
    + simpl_result. destruct (n =? 0); [done|]. by destruct Ho.
    + destruct (getitem_in_range cells_count c Hc) as [v Hv]. congruence.
Qed.

Lemma iter_nearest_neighbors_skips_empty_witness :
  Forall (fun c => - Z.of_nat (length [0; 2; 0]) ≤ c
                   < Z.of_nat (length [0; 2; 0])) [0; 1; 2; -2] ∧
  iter_nearest_neighbors
    (filter (fun c => occupied [0; 2; 0] c = true) [0; 1; 2; -2])
    [1] [1; 0] [0; 2; 0] [0; 0; 2]
  = iter_nearest_neighbors [0; 1; 2; -2] [1] [1; 0] [0; 2; 0] [0; 0; 2].
Proof.
  assert (Forall (fun c => - Z.of_nat (length [0; 2; 0]) ≤ c
                           < Z.of_nat (length [0; 2; 0])) [0; 1; 2; -2]) as H.
  { repeat constructor; simpl; lia. }
  split; [exact H|].
  exact (iter_nearest_neighbors_skips_empty [0; 1; 2; -2] [1] [1; 0] [0; 2; 0]
           [0; 0; 2] H).
Defined.

(** ** [iter_nearest_neighbors]: the order inside a pair *)

Lemma occ_take_mono cells (a b : nat) c :
  (a ≤ b)%nat → (occ (take a cells) c ≤ occ (take b cells) c)%nat.
Proof.
  intros Hab. replace (take a cells) with (take a (take b cells)).
  - apply occ_take_le.
  - rewrite take_take. f_equal. lia.
Qed.

(** The points of a cell are listed in increasing order. *)
Lemma points_of_cell_increasing cells c (r r' i i' : nat) :
  points_of_cell cells c !! r = Some i →
  points_of_cell cells c !! r' = Some i' →
  (r < r')%nat → (i < i')%nat.
Proof.
  intros [_ Hr]%points_of_cell_lookup [_ Hr']%points_of_cell_lookup Hlt.
  destruct (decide (i < i')%nat) as [|Hge]; [done|].
  pose proof (occ_take_mono cells i' i c). lia.
Qed.

(** In the block of a cell a point comes before the points of the cell that
    precede it in the input. *)
Lemma before_block_of cells c (i j : nat) :
  before (block_of cells c) (Z.of_nat i) (Z.of_nat j) → (j < i)%nat.
Proof.
  intros (k & b & Hkb & Hk & Hb). unfold block_of in Hk, Hb.
  rewrite list_lookup_fmap in Hk, Hb.
  destruct (reverse (points_of_cell cells c) !! k) as [i'|] eqn:Hi; [|done].
  destruct (reverse (points_of_cell cells c) !! b) as [j'|] eqn:Hj; [|done].
  injection Hk as Hk%Nat2Z.inj. injection Hb as Hb%Nat2Z.inj. subst i' j'.
  pose proof (lookup_lt_Some _ _ _ Hi) as Hlk.
  pose proof (lookup_lt_Some _ _ _ Hj) as Hlb.
  rewrite length_reverse in Hlk, Hlb.
  rewrite reverse_lookup in Hi, Hj by done.
  eapply points_of_cell_increasing; [exact Hj | exact Hi | lia].
Qed.



(** ** [iter_nearest_neighbors]: the number of pairs of a cell *)

Lemma enumerate_snoc {A} (a : list A) x :
  enumerate (a ++ [x]) = enumerate a ++ [(Z.of_nat (length a), x)].
Proof.
  unfold enumerate. rewrite length_app. simpl length.
  rewrite Nat.add_1_r, seq_S, fmap_app.
  rewrite zip_with_app; [done|].
  by rewrite length_fmap, length_seq.
Qed.

Lemma length_cross_pairs (l l' : list Z) :
  length (cross_pairs l l') = (length l * length l')%nat.
Proof.
  rewrite cross_pairs_eq. apply length_bind_const.
  intros i _. by rewrite length_fmap.
Qed.

(** A block of [k] points has [k (k - 1) / 2] pairs. *)
Lemma length_inside_pairs (l : list Z) :
  Z.of_nat (length l) ≤ int64_max →
  (2 * length (inside_pairs l) = length l * (length l - 1))%nat.
Proof.
  intros Hmax. rewrite inside_pairs_eq by done.
  assert (∀ n, (n ≤ length l)%nat →
            (2 * length (enumerate (take n l) ≫= fun ki =>
                           pair ki.2 <$> drop (S (Z.to_nat ki.1)) l)
               + n * (n + 1)
             = 2 * n * length l)%nat) as Hn.
  { induction n as [|n IH]; intros Hle; [done|].
    destruct (lookup_lt_is_Some_2 l n) as [x Hx]; [lia|].
    rewrite (take_S_r _ _ _ Hx), enumerate_snoc, bind_app, length_app.
    rewrite bind_singleton, length_fmap, length_drop, length_take. simpl.
    rewrite Nat2Z.id. specialize (IH ltac:(lia)).
    replace (n `min` length l)%nat with n by lia. nia. }
  destruct (length l) as [|k] eqn:Hl; [by destruct l|].
  specialize (Hn k ltac:(lia)).
  replace (S k - 1)%nat with k by lia. nia.
Qed.

Lemma length_across (f : Z → result (list Z)) (cur : list Z) neigh_cells :
  ∀ neighs,
  mapM f neigh_cells = Ok neighs →
  ∃ across,
    yieldM (fun o => points_neigh ← f o; Ok (cross_pairs cur points_neigh))
           neigh_cells = Ok across ∧
    Z.of_nat (length across)
    = Z.of_nat (length cur) * sum_Z ((fun l => Z.of_nat (length l)) <$> neighs).
Proof.
  induction neigh_cells as [|o os IH]; intros neighs Hm.
  - injection Hm as <-. exists []. split; [done|]. simpl. lia.
  - simpl in Hm. simpl_result.
    destruct (f o) as [pn|e] eqn:Ho; [|done].
    destruct (mapM f os) as [pns|e] eqn:Hos; [|done].
    injection Hm as <-.
    destruct (IH pns eq_refl) as (across & Hy & Hlen).
    exists (cross_pairs cur pn ++ across). split.
    + simpl. rewrite Ho. simpl_result.
      unfold mbind, result_bind in Hy. by rewrite Hy.
    + rewrite length_app, length_cross_pairs, fmap_cons.
      change (sum_Z (?x :: ?a)) with (x + sum_Z a). lia.
Qed.

(** X15. A cell with [k] points yields [k (k - 1) / 2] pairs inside the cell
    and, with every neighbouring cell of [m] points, [k m] further pairs. *)
Theorem pairs_of_cell_count
    (neigh_cells points_indices cells_count cells_offset : list Z)
    (cur_cell count : Z) (points_cur : list Z) (neighs : list (list Z)) :
  Z.of_nat (length points_indices) ≤ int64_max →
  getitem cells_count cur_cell = Ok count → count ≠ 0 →
  find_points_in_cell cur_cell points_indices cells_count cells_offset
  = Ok points_cur →
  mapM (fun neigh_cell =>
          find_points_in_cell (wrap64 (cur_cell + neigh_cell)) points_indices
            cells_count cells_offset) neigh_cells
  = Ok neighs →
  ∃ pairs,
    pairs_of_cell neigh_cells points_indices cells_count cells_offset cur_cell
    = Ok pairs ∧
    2 * Z.of_nat (length pairs)
    = Z.of_nat (length points_cur) * (Z.of_nat (length points_cur) - 1)
      + 2 * Z.of_nat (length points_cur)
          * sum_Z ((fun l => Z.of_nat (length l)) <$> neighs).
Proof.
  intros Hmax Hcount Hne Hcur Hneighs.
  destruct (length_across _ points_cur neigh_cells neighs Hneighs)
    as (across & Hy & Hlen).
  exists (inside_pairs points_cur ++ across). split.
  - unfold pairs_of_cell. rewrite Hcount. simpl_result.
    destruct (Z.eqb_spec count 0); [done|].
    rewrite Hcur. simpl_result.
    unfold mbind, result_bind in Hy. by rewrite Hy.
  - assert (length points_cur ≤ length points_indices)%nat as Hle.
    { unfold find_points_in_cell in Hcur. simpl_result.
      destruct (getitem cells_offset cur_cell); [|done].
      destruct (getitem cells_count cur_cell); [|done].
      injection Hcur as <-. unfold slice.
      rewrite length_take, length_drop. lia. }
    pose proof (length_inside_pairs points_cur ltac:(lia)) as Hin.
    rewrite length_app, Nat2Z.inj_add, Z.mul_add_distr_l, Hlen.
    destruct (length points_cur) as [|k]; [simpl in *; lia|]. nia.
Qed.

Lemma pairs_of_cell_count_witness :
  (Z.of_nat (length [2; 1; 0; 3]) ≤ int64_max ∧
   getitem [3; 1] 0 = Ok 3 ∧ 3 ≠ 0 ∧
   find_points_in_cell 0 [2; 1; 0; 3] [3; 1] [0; 3] = Ok [2; 1; 0] ∧
   mapM (fun neigh_cell =>
           find_points_in_cell (wrap64 (0 + neigh_cell)) [2; 1; 0; 3]
             [3; 1] [0; 3]) [1]
   = Ok [[3]]) ∧
  ∃ pairs,
    pairs_of_cell [1] [2; 1; 0; 3] [3; 1] [0; 3] 0 = Ok pairs ∧
    2 * Z.of_nat (length pairs)
    = Z.of_nat (length [2; 1; 0]) * (Z.of_nat (length [2; 1; 0]) - 1)
      + 2 * Z.of_nat (length [2; 1; 0])
          * sum_Z ((fun l => Z.of_nat (length l)) <$> [[3]]).
Proof.
  assert (Z.of_nat (length [2; 1; 0; 3]) ≤ int64_max) as H1
    by (vm_compute; discriminate).
  assert (getitem [3; 1] 0 = Ok 3) as H2 by reflexivity.
  assert (3 ≠ 0) as H3 by lia.
  assert (find_points_in_cell 0 [2; 1; 0; 3] [3; 1] [0; 3] = Ok [2; 1; 0]) as H4
    by reflexivity.
  assert (mapM (fun neigh_cell =>
                  find_points_in_cell (wrap64 (0 + neigh_cell)) [2; 1; 0; 3]
                    [3; 1] [0; 3]) [1]
          = Ok [[3]]) as H5 by reflexivity.
  split; [by split_and!|].
  exact (pairs_of_cell_count [1] [2; 1; 0; 3] [3; 1] [0; 3] 0 3 [2; 1; 0] [[3]]
           H1 H2 H3 H4 H5).
Defined.

(** ** [partition_cells]: the accumulation of the interactions *)

Lemma cross_interactions_ok (cells_count neigh_cells : list Z) (i count : Z) :
  (∀ j, j ∈ neigh_cells →
     - Z.of_nat (length cells_count) ≤ wrap64 (i + j)
     < Z.of_nat (length cells_count)) →
  ∀ total, ∃ total',
    foldM (fun total j =>
             c ← getitem cells_count (wrap64 (i + j));
             Ok (wrap64 (total + wrap64 (count * c))))
          neigh_cells total = Ok total'.
Proof.
  induction neigh_cells as [|j js IH]; intros Hin total; [by eexists|].
  destruct (getitem_in_range cells_count (wrap64 (i + j))) as [c Hc].
  { apply Hin. by left. }
  simpl. rewrite Hc. simpl_result. apply IH.
  intros j' Hj'. apply Hin. by right.
Qed.

(** The loop over the cells ends without an error when the accesses to the
    neighbours are inside the array. *)
Lemma interactions_ok (cells_count neigh_cells : list Z) total (cumsum : list Z) :
  cross_in_range cells_count neigh_cells →
  length cumsum = length cells_count →
  ∃ total' cumsum',
    foldM (add_interactions cells_count neigh_cells) (enumerate cells_count)
          (total, cumsum) = Ok (total', cumsum') ∧
    length cumsum' = length cells_count.
Proof.
  intros Hrange Hlen.
  destruct (foldM_invariant
              (fun _ (s : Z * list Z) => length s.2 = length cells_count)
              (add_interactions cells_count neigh_cells)
              (enumerate cells_count) (total, cumsum) Hlen)
    as ([total' cumsum'] & Hf & Hl).
  - intros k [t cs] [i c0] Hk Hcs. simpl in Hcs.
    apply enumerate_lookup_inv in Hk as (count & [= -> ->] & Hx).
    unfold add_interactions.
    destruct (Z.eqb_spec count 0) as [|Hne]; [by eexists|].
    destruct (cross_interactions_ok cells_count neigh_cells (Z.of_nat k) count
                (fun j Hj => Hrange k count j Hx Hne Hj)
                (wrap64 (t + wrap64 (wrap64 (count - 1) ^ 2)))) as [t' Ht'].
    rewrite Ht'. simpl_result.
    rewrite setitem_nat by (apply lookup_lt_Some in Hx; lia).
    eexists. split; [done|]. simpl. by rewrite length_insert.
  - by exists total', cumsum'.
Qed.

(** The split into one part. *)
Lemma partition_cells_one_part (fuel : nat) (uninit : nat → nat → Z)
    (cells_count neigh_cells : list Z) :
  cross_in_range cells_count neigh_cells →
  partition_cells (S fuel) uninit 1 cells_count neigh_cells
  = Some (Ok [0; Z.of_nat (length cells_count)]).
Proof.
  intros Hrange. unfold partition_cells.
  change (negb (0 <? 1)) with false. cbv iota.
  destruct (interactions_ok cells_count neigh_cells 0
              (uninit 0%nat <$> seq 0 (length cells_count)) Hrange)
    as (total & cumsum & -> & _).
  { by rewrite length_fmap, length_seq. }
  reflexivity.
Qed.

(** X16. With one part there is nothing to split: [partition_cells] returns
    the two ends of the cells, whatever the counts. *)
Theorem partition_cells_single_part (fuel : nat) (uninit : nat → nat → Z)
    (cells_count neigh_cells : list Z) :
  cross_in_range cells_count neigh_cells →
  partition_cells (S fuel) uninit 1 cells_count neigh_cells
  = Some (Ok [0; Z.of_nat (length cells_count)]).
Proof. apply partition_cells_one_part. Qed.

Lemma partition_cells_single_part_witness :
  cross_in_range [0; 3; 0; 2; 0] [1; -1] ∧
  partition_cells 1 (fun _ _ => 0) 1 [0; 3; 0; 2; 0] [1; -1] = Some (Ok [0; 5]).
Proof.
  assert (cross_in_range [0; 3; 0; 2; 0] [1; -1]) as H.
  { intros i count j Hi Hne Hj.
    assert (j = 1 ∨ j = -1) as Hj'.
    { apply elem_of_cons in Hj as [->|Hj]; [by left|].
      apply elem_of_cons in Hj as [->|Hj]; [by right|].
      by apply elem_of_nil in Hj. }
    assert (i = 1 ∨ i = 3)%nat as Hi'.
    { destruct i as [|[|[|[|[|i]]]]]; simpl in Hi; [|by left| |by right| |done];
        injection Hi as <-; done. }
    destruct Hi' as [-> | ->], Hj' as [-> | ->]; vm_compute;
      (split; [discriminate | reflexivity]). }
  split; [exact H|].
  exact (partition_cells_single_part 0 (fun _ _ => 0) [0; 3; 0; 2; 0] [1; -1] H).
Defined.

(** ** [partition_cells]: the boundaries *)

Lemma getitem_Ok_range {A} (a : list A) (i : Z) x :
  0 ≤ i → getitem a i = Ok x → i < Z.of_nat (length a).
Proof.
  intros Hi H. unfold getitem, resolve_index in H.
  destruct (Z.ltb_spec i 0); [lia|].
  destruct (Z.leb_spec 0 i); [|lia].
  by destruct (Z.ltb_spec i (Z.of_nat (length a))).
Qed.

Section split.
Variables n size : Z.
Variable cumsum : list Z.
Hypothesis n_fits : n ≤ int64_max.
Hypothesis len_fits : Z.of_nat (length cumsum) ≤ int64_max.

Local Abbreviation len := (Z.of_nat (length cumsum)).

Lemma boundaries_upto_skip part_index i splits :
  boundaries_upto n len part_index i splits →
  boundaries_upto n len part_index (i + 1) splits.
Proof.
  intros (Hl & H0 & Hn & Hk). split_and!; try done.
  intros k b Hkp Hb. destruct (Hk k b Hkp Hb) as [Hbi Hinc].
  split; [lia | done].
Qed.

Lemma boundaries_upto_record part_index i splits :
  1 ≤ part_index < n → 0 ≤ i →
  boundaries_upto n len part_index i splits →
  boundaries_upto n len (part_index + 1) (i + 1)
    (<[Z.to_nat part_index := i]> splits).
Proof.
  intros Hp Hi (Hl & H0 & Hn & Hk). split_and!.
  - by rewrite length_insert.
  - rewrite list_lookup_insert_ne by lia. done.
  - rewrite list_lookup_insert_ne by lia. done.
  - intros k b Hkp Hb.
    destruct (decide (k = Z.to_nat part_index)) as [->|Hne].
    + rewrite list_lookup_insert_eq in Hb by lia. injection Hb as <-.
      split; [lia|]. intros k' b' Hk'. lia.
    + rewrite list_lookup_insert_ne in Hb by done.
      destruct (Hk k b ltac:(lia) Hb) as [Hbi Hinc].
      split; [lia|]. intros k' b' Hk' Hb'.
      destruct (decide (k' = Z.to_nat part_index)) as [->|Hne'].
      * rewrite list_lookup_insert_eq in Hb' by lia. injection Hb' as <-. lia.
      * rewrite list_lookup_insert_ne in Hb' by done.
        apply (Hinc k' b'); [lia | done].
Qed.

(** When the loop ends with boundaries, all of them are recorded. *)
Lemma split_loop_boundaries fuel : ∀ part_index i splits result,
  1 ≤ part_index ≤ n → 0 ≤ i ≤ len →
  boundaries_upto n len part_index i splits →
  split_loop fuel n size cumsum part_index i splits = Some (Ok result) →
  ∃ i', 0 ≤ i' ≤ len ∧ boundaries_upto n len n i' result.
Proof.
  induction fuel as [|fuel IH]; intros part_index i splits result Hp Hi Hinv Hloop;
    [done|].
  cbn [split_loop] in Hloop.
  destruct (Z.ltb_spec part_index n) as [Hlt|Hge].
  - destruct (getitem cumsum i) as [c|e] eqn:Hc; [|done].
    apply getitem_Ok_range in Hc; [|lia].
    pose proof int64_min_eq. pose proof int64_max_eq.
    rewrite (wrap64_id (i + 1)) in Hloop by lia.
    destruct (wrap64 (part_index * size) <=? c).
    + destruct (setitem splits part_index i) as [splits'|e] eqn:Hs; [|done].
      rewrite setitem_Z in Hs by (destruct Hinv as [? _]; lia).
      injection Hs as <-.
      rewrite (wrap64_id (part_index + 1)) in Hloop by lia.
      eapply IH; [| | |exact Hloop]; [lia | lia |].
      apply boundaries_upto_record; [lia | lia | done].
    + eapply IH; [| | |exact Hloop]; [lia | lia |].
      by apply boundaries_upto_skip.
  - injection Hloop as <-. assert (part_index = n) as -> by lia.
    by exists i.
Qed.

Lemma boundaries_well_formed i splits :
  1 ≤ n → 0 ≤ i ≤ len →
  boundaries_upto n len n i splits → well_formed_boundaries n len splits.
Proof.
  intros Hn Hi (Hl & H0 & Hlast & Hk). split_and!; try done.
  - intros a b x y Hab Hx Hy.
    assert (Z.of_nat b ≤ n) as Hbn by (apply lookup_lt_Some in Hy; lia).
    destruct (decide (a = b)) as [->|Hne]; [by simplify_eq|].
    destruct (decide (a = 0%nat)) as [->|Ha].
    + rewrite H0 in Hx. injection Hx as <-.
      destruct (decide (Z.of_nat b = n)) as [Hb|Hb].
      * rewrite <- Hb, Nat2Z.id, Hy in Hlast. injection Hlast as ->. lia.
      * destruct (Hk b y ltac:(lia) Hy). lia.
    + destruct (Hk a x ltac:(lia) Hx) as [Hxi Hinc].
      destruct (decide (Z.of_nat b = n)) as [Hb|Hb].
      * rewrite <- Hb, Nat2Z.id, Hy in Hlast. injection Hlast as ->. lia.
      * pose proof (Hinc b y ltac:(lia) Hy). lia.
  - intros k b Hkn Hb. destruct (Hk k b Hkn Hb). lia.
Qed.
End split.

Lemma setitem_length {A} (a a' : list A) (i : Z) x :
  setitem a i x = Ok a' → length a' = length a.
Proof.
  unfold setitem. destruct (resolve_index a i) as [k|e]; [|done].
  simpl_result. intros [= <-]. apply length_insert.
Qed.

Lemma setitem_last {A} (a : list A) x :
  a ≠ [] → setitem a (-1) x = Ok (<[(length a - 1)%nat := x]> a).
Proof.
  intros Hne. unfold setitem, resolve_index.
  assert (0 < length a)%nat by (destruct a; [done | simpl; lia]).
  change (-1 <? 0) with true. cbv iota.
  destruct (Z.leb_spec 0 (-1 + Z.of_nat (length a))); [|lia].
  destruct (Z.ltb_spec (-1 + Z.of_nat (length a)) (Z.of_nat (length a))); [|lia].
  simpl_result. do 2 f_equal. lia.
Qed.

Lemma add_interactions_length cells_count neigh_cells state ic state' :
  add_interactions cells_count neigh_cells state ic = Ok state' →
  length state'.2 = length state.2.
Proof.
  destruct state as [total cumsum], ic as [i count]. unfold add_interactions.
  destruct (count =? 0); [by intros [= <-]|].
  destruct (foldM _ neigh_cells _) as [total'|e]; [|done]. simpl_result.
  destruct (setitem cumsum i total') as [cumsum'|e] eqn:Hs; [|done].
  intros [= <-]. simpl. by eapply setitem_length.
Qed.

Lemma interactions_length cells_count neigh_cells ics : ∀ state state',
  foldM (add_interactions cells_count neigh_cells) ics state = Ok state' →
  length state'.2 = length state.2.
Proof.
  induction ics as [|ic ics IH]; intros state state' H.
  - by injection H as <-.
  - simpl in H. simpl_result.
    destruct (add_interactions cells_count neigh_cells state ic) as [s1|e] eqn:H1;
      [|done].
    rewrite (IH _ _ H). by eapply add_interactions_length.
Qed.

(** When [partition_cells] returns boundaries, its loop has recorded all of
    them. *)
Lemma partition_cells_recorded (fuel : nat) (uninit : nat → nat → Z)
    (n : Z) (cells_count neigh_cells splits : list Z) :
  n ≤ int64_max → Z.of_nat (length cells_count) ≤ int64_max →
  partition_cells fuel uninit n cells_count neigh_cells = Some (Ok splits) →
  0 < n ∧
  ∃ i, 0 ≤ i ≤ Z.of_nat (length cells_count) ∧
       boundaries_upto n (Z.of_nat (length cells_count)) n i splits.
Proof.
  intros Hn Hlen H. unfold partition_cells in H.
  destruct (Z.ltb_spec 0 n) as [Hpos|]; [|done]. cbn [negb] in H.
  destruct (foldM _ (enumerate cells_count) _) as [[total cumsum]|e] eqn:Hf; [|done].
  apply interactions_length in Hf. simpl in Hf.
  rewrite length_fmap, length_seq in Hf.
  pose proof int64_min_eq. pose proof int64_max_eq.
  destruct (decide (n = int64_max)) as [->|Hmax].
  { exfalso. revert H. rewrite int64_max_eq. by vm_compute. }
  rewrite (wrap64_id (n + 1)) in H by lia.
  unfold np_empty in H. destruct (Z.ltb_spec (n + 1) 0); [lia|].
  simpl_result.
  set (fresh := uninit 1%nat <$> seq 0 (Z.to_nat (n + 1))) in H.
  assert (length fresh = Z.to_nat (n + 1)) as Hfresh
    by (unfold fresh; by rewrite length_fmap, length_seq).
  rewrite (setitem_Z fresh 0 0) in H by lia.
  rewrite setitem_last in H.
  2:{ intros Hnil. apply (f_equal length) in Hnil.
      rewrite length_insert, Hfresh in Hnil. simpl in Hnil. lia. }
  rewrite length_insert, Hfresh in H.
  rewrite <- Hf in *.
  split; [done|].
  apply (split_loop_boundaries n _ cumsum Hn Hlen) in H as (i' & Hi' & Hinv).
  { by exists i'. }
  { lia. }
  { lia. }
  split_and!.
  - rewrite !length_insert, Hfresh. lia.
  - rewrite list_lookup_insert_ne by lia.
    rewrite list_lookup_insert_eq by lia. done.
  - replace (Z.to_nat (n + 1) - 1)%nat with (Z.to_nat n) by lia.
    rewrite list_lookup_insert_eq by (rewrite length_insert; lia). done.
  - intros k b Hk. lia.
Qed.

(** The boundaries that [partition_cells] returns are well formed. *)
Lemma partition_cells_well_formed (fuel : nat) (uninit : nat → nat → Z)
    (n : Z) (cells_count neigh_cells splits : list Z) :
  n ≤ int64_max → Z.of_nat (length cells_count) ≤ int64_max →
  partition_cells fuel uninit n cells_count neigh_cells = Some (Ok splits) →
  well_formed_boundaries n (Z.of_nat (length cells_count)) splits.
Proof.
  intros Hn Hlen H.
  destruct (partition_cells_recorded _ _ _ _ _ _ Hn Hlen H) as (Hpos & i & Hi & Hinv).
  apply (boundaries_well_formed n cells_count i); [lia | done | done].
Qed.

(** X17. A run of [partition_cells] that reaches its [return] with every
    index it used inside its array (the result [Ok] of the embedding; the
    compiled code also returns after a read outside [interactions_cumsum],
    which this property does not cover) returns well formed boundaries:
    [n + 1] of them, the first one [0], the last one the number of cells,
    never decreasing, and those between the two ends are indices of
    cells. *)
Theorem partition_cells_boundaries (fuel : nat) (uninit : nat → nat → Z)
    (n : Z) (cells_count neigh_cells splits : list Z) :
  n ≤ int64_max → Z.of_nat (length cells_count) ≤ int64_max →
  partition_cells fuel uninit n cells_count neigh_cells = Some (Ok splits) →
  well_formed_boundaries n (Z.of_nat (length cells_count)) splits.
Proof. apply partition_cells_well_formed. Qed.

Lemma partition_cells_boundaries_witness :
  (2 ≤ int64_max ∧ Z.of_nat (length [0; 3; 0; 2]) ≤ int64_max ∧
   partition_cells 3 (fun _ _ => 0) 2 [0; 3; 0; 2] [] = Some (Ok [0; 1; 4])) ∧
  well_formed_boundaries 2 (Z.of_nat (length [0; 3; 0; 2])) [0; 1; 4].
Proof.
  assert (2 ≤ int64_max) as H1 by (vm_compute; discriminate).
  assert (Z.of_nat (length [0; 3; 0; 2]) ≤ int64_max) as H2
    by (vm_compute; discriminate).
  assert (partition_cells 3 (fun _ _ => 0) 2 [0; 3; 0; 2] []
          = Some (Ok [0; 1; 4])) as H3 by (vm_compute; reflexivity).
  split; [by split_and!|].
  exact (partition_cells_boundaries 3 (fun _ _ => 0) 2 [0; 3; 0; 2] [] [0; 1; 4]
           H1 H2 H3).
Defined.

(** In the embedding, where an access outside an array ends the run, the
    loop that records the splits makes at most one round per cell and one
    more. *)
Lemma partition_cells_ends (k : nat) (uninit : nat → nat → Z) (n : Z)
    (cells_count neigh_cells : list Z) :
  Z.of_nat (length cells_count) ≤ int64_max →
  ∃ outcome,
    partition_cells (S (length cells_count) + k) uninit n cells_count neigh_cells
    = Some outcome.
Proof.
  intros Hlen. unfold partition_cells.
  destruct (negb (0 <? n)); [by eexists|].
  destruct (foldM _ (enumerate cells_count) _) as [[total cumsum]|e] eqn:Hf;
    [|by eexists].
  apply interactions_length in Hf. simpl in Hf.
  rewrite length_fmap, length_seq in Hf.
  destruct (_ ≫= _) as [splits|e]; [|by eexists].
  apply split_loop_terminates; [by rewrite Hf | done | lia].
Qed.

(** ** The chunks of the threads *)

Lemma slice_app_slice {A} (a : list A) (s m e : Z) :
  0 ≤ s ≤ m → m ≤ e → e ≤ Z.of_nat (length a) →
  slice a s m ++ slice a m e = slice a s e.
Proof.
  intros Hs Hm He. rewrite !slice_Z by lia.
  replace (Z.to_nat (e - s)) with (Z.to_nat (m - s) + Z.to_nat (e - m))%nat by lia.
  rewrite <- take_take_drop, drop_drop. do 3 f_equal. lia.
Qed.

(** The slices between consecutive boundaries, joined, are the slice
    between the first and the last boundary. *)
Lemma concat_slices {A} (a : list A) (rest : list Z) : ∀ first last_,
  nondecreasing (first :: rest) → 0 ≤ first →
  last (first :: rest) = Some last_ → last_ ≤ Z.of_nat (length a) →
  concat ((fun '(start, end_) => slice a start end_)
            <$> zip (take (length rest) (first :: rest)) rest)
  = slice a first last_.
Proof.
  induction rest as [|next rest IH]; intros first last_ Hmono Hfirst Hlast Hle.
  - injection Hlast as <-. simpl. rewrite slice_Z by lia.
    by rewrite Z.sub_diag.
  - cbn [length take zip zip_with fmap list_fmap concat].
    assert (first ≤ next) as Hfn
      by (apply (Hmono 0%nat 1%nat); [lia | done | done]).
    assert (nondecreasing (next :: rest)) as Hmono'.
    { intros i j x y Hij Hx Hy. apply (Hmono (S i) (S j)); [lia | done | done]. }
    assert (next ≤ last_) as Hnl.
    { rewrite last_lookup in Hlast. simpl in Hlast.
      apply (Hmono' 0%nat (length rest)); [lia | done | done]. }
    change (zip_with pair (take (length rest) (next :: rest)) rest)
      with (zip (take (length rest) (next :: rest)) rest).
    rewrite (IH next last_ Hmono' ltac:(lia) Hlast Hle).
    apply slice_app_slice; lia.
Qed.

(** The chunks cut at the boundaries of [partition_cells], joined, are
    [cell_indices]. *)
Lemma chunks_of_partition (fuel : nat) (uninit : nat → nat → Z)
    (n : Z) (cell_indices cells_count neigh_cells splits : list Z) :
  n ≤ int64_max → Z.of_nat (length cells_count) ≤ int64_max →
  length cell_indices = length cells_count →
  partition_cells fuel uninit n cells_count neigh_cells = Some (Ok splits) →
  Z.of_nat (length (cell_indices_chunks splits cell_indices)) = n ∧
  concat (cell_indices_chunks splits cell_indices) = cell_indices.
Proof.
  intros Hn Hlen Hci Hp.
  destruct (partition_cells_well_formed fuel uninit n cells_count neigh_cells
              splits Hn Hlen Hp) as (Hl & H0 & Hlast & Hmono & Hpos).
  unfold cell_indices_chunks. rewrite slice_to_last, slice_from_1.
  destruct splits as [|first rest]; [done|].
  simpl in H0. injection H0 as ->. simpl in Hl.
  cbn [tail length]. rewrite Nat.sub_succ, Nat.sub_0_r.
  split.
  - rewrite length_fmap, length_zip, length_take. simpl. lia.
  - rewrite (concat_slices cell_indices rest 0 (Z.of_nat (length cells_count)));
      [| done | lia | | lia].
    + rewrite slice_Z by lia. rewrite Z.sub_0_r, <- Hci, Nat2Z.id.
      simpl. by rewrite take_ge.
    + rewrite last_lookup. rewrite <- Hlast. f_equal. simpl. lia.
Qed.

(** X19. The chunks that [consume_find_neighbors_multithread] cuts out of
    [cell_indices] at the boundaries of [partition_cells] are [n] in
    number and, joined, they are [cell_indices]: every cell goes to exactly
    one thread. *)
Theorem cell_indices_chunks_cover (fuel : nat) (uninit : nat → nat → Z)
    (n : Z) (cell_indices cells_count neigh_cells splits : list Z) :
  n ≤ int64_max → Z.of_nat (length cells_count) ≤ int64_max →
  length cell_indices = length cells_count →
  partition_cells fuel uninit n cells_count neigh_cells = Some (Ok splits) →
  Z.of_nat (length (cell_indices_chunks splits cell_indices)) = n ∧
  concat (cell_indices_chunks splits cell_indices) = cell_indices.
Proof. apply chunks_of_partition. Qed.

Lemma cell_indices_chunks_cover_witness :
  (2 ≤ int64_max ∧ Z.of_nat (length [0; 3; 0; 2]) ≤ int64_max ∧
   length [0; 1; 2; 3] = length [0; 3; 0; 2] ∧
   partition_cells 3 (fun _ _ => 0) 2 [0; 3; 0; 2] [] = Some (Ok [0; 1; 4])) ∧
  Z.of_nat (length (cell_indices_chunks [0; 1; 4] [0; 1; 2; 3])) = 2 ∧
  concat (cell_indices_chunks [0; 1; 4] [0; 1; 2; 3]) = [0; 1; 2; 3].
Proof.
  assert (2 ≤ int64_max) as H1 by (vm_compute; discriminate).
  assert (Z.of_nat (length [0; 3; 0; 2]) ≤ int64_max) as H2
    by (vm_compute; discriminate).
  assert (length [0; 1; 2; 3] = length [0; 3; 0; 2]) as H3 by reflexivity.
  assert (partition_cells 3 (fun _ _ => 0) 2 [0; 3; 0; 2] []
          = Some (Ok [0; 1; 4])) as H4 by (vm_compute; reflexivity).
  split; [by split_and!|].
  exact (cell_indices_chunks_cover 3 (fun _ _ => 0) 2 [0; 1; 2; 3] [0; 3; 0; 2] []
           [0; 1; 4] H1 H2 H3 H4).
Defined.

Lemma yieldM_concat {A B} (body : A → result (list B)) (xss : list (list A)) :
  (pss ← mapM (yieldM body) xss; Ok (concat pss)) = yieldM body (concat xss).
Proof.
  induction xss as [|xs xss IH]; [done|].
  cbn [concat]. rewrite yieldM_app, <- IH. cbn [mapM]. simpl_result.
  destruct (yieldM body xs) as [ps|e]; [|done].
  by destruct (mapM (yieldM body) xss) as [pss|e].
Qed.

(** X20. The threads of [consume_find_neighbors_multithread] enumerate
    together, chunk after chunk, the pairs of the enumeration over the
    whole of [cell_indices], and one of them fails exactly when that
    enumeration fails. *)
Theorem chunked_enumeration (fuel : nat) (uninit : nat → nat → Z) (n : Z)
    (cell_indices neigh_cells points_indices cells_count cells_offset
       splits : list Z) :
  n ≤ int64_max → Z.of_nat (length cells_count) ≤ int64_max →
  length cell_indices = length cells_count →
  partition_cells fuel uninit n cells_count neigh_cells = Some (Ok splits) →
  (pairs_of_chunks ←
     mapM (fun chunk =>
             iter_nearest_neighbors chunk neigh_cells points_indices
               cells_count cells_offset)
          (cell_indices_chunks splits cell_indices);
   Ok (concat pairs_of_chunks))
  = iter_nearest_neighbors cell_indices neigh_cells points_indices
      cells_count cells_offset.
Proof.
  intros Hn Hlen Hci Hp. unfold iter_nearest_neighbors.
  rewrite yieldM_concat. f_equal.
  by apply (chunks_of_partition fuel uninit n _ cells_count neigh_cells).
Qed.

Lemma chunked_enumeration_witness :
  (2 ≤ int64_max ∧ Z.of_nat (length [0; 3; 0; 2]) ≤ int64_max ∧
   length [0; 1; 2; 3] = length [0; 3; 0; 2] ∧
   partition_cells 3 (fun _ _ => 0) 2 [0; 3; 0; 2] [] = Some (Ok [0; 1; 4])) ∧
  (pairs_of_chunks ←
     mapM (fun chunk =>
             iter_nearest_neighbors chunk [] [2; 1; 0; 4; 3]
               [0; 3; 0; 2] [0; 0; 3; 3])
          (cell_indices_chunks [0; 1; 4] [0; 1; 2; 3]);
   Ok (concat pairs_of_chunks))
  = iter_nearest_neighbors [0; 1; 2; 3] [] [2; 1; 0; 4; 3]
      [0; 3; 0; 2] [0; 0; 3; 3].
Proof.
  assert (2 ≤ int64_max) as H1 by (vm_compute; discriminate).
  assert (Z.of_nat (length [0; 3; 0; 2]) ≤ int64_max) as H2
    by (vm_compute; discriminate).
  assert (length [0; 1; 2; 3] = length [0; 3; 0; 2]) as H3 by reflexivity.
  assert (partition_cells 3 (fun _ _ => 0) 2 [0; 3; 0; 2] []
          = Some (Ok [0; 1; 4])) as H4 by (vm_compute; reflexivity).
  split; [by split_and!|].
  exact (chunked_enumeration 3 (fun _ _ => 0) 2 [0; 1; 2; 3] [] [2; 1; 0; 4; 3]
           [0; 3; 0; 2] [0; 0; 3; 3] [0; 1; 4] H1 H2 H3 H4).
Defined.

(** ** [find_points_in_cell] *)



(** ** [partition_cells]: the errors *)

Lemma getitem_raises {A} (a : list A) (i : Z) e :
  getitem a i = Raise e → e = OutOfBounds.
Proof.
  unfold getitem, resolve_index.
  destruct (_ && _); simpl_result; [|by intros [= <-]].
  destruct (a !! _); [done | by intros [= <-]].
Qed.

Lemma setitem_raises {A} (a : list A) (i : Z) x e :
  setitem a i x = Raise e → e = OutOfBounds.
Proof.
  unfold setitem, resolve_index.
  destruct (_ && _); simpl_result; [done | by intros [= <-]].
Qed.

Lemma foldM_raises {A St} (P : exn → Prop) (body : St → A → result St) xs :
  (∀ s x e, body s x = Raise e → P e) →
  ∀ s e, foldM body xs s = Raise e → P e.
Proof.
  intros Hbody. induction xs as [|x xs IH]; intros s e H; [done|].
  simpl in H. destruct (body s x) as [s'|e'] eqn:Hb.
  - by apply (IH s').
  - simpl_result. injection H as <-. by eapply Hbody.
Qed.

Lemma add_interactions_raises cells_count neigh_cells state ic e :
  add_interactions cells_count neigh_cells state ic = Raise e → e = OutOfBounds.
Proof.
  destruct state as [total cumsum], ic as [i count]. unfold add_interactions.
  destruct (count =? 0); [done|].
  destruct (foldM _ neigh_cells _) as [total'|e'] eqn:Hf.
  - simpl_result.
    destruct (setitem cumsum i total') as [cumsum'|e'] eqn:Hs; [done|].
    intros [= <-]. by eapply setitem_raises.
  - simpl_result. intros [= <-].
    eapply (foldM_raises (fun e => e = OutOfBounds)); [|exact Hf].
    intros s j e1. simpl.
    destruct (getitem cells_count (wrap64 (i + j))) as [c|e2] eqn:Hg; [done|].
    simpl_result. intros [= <-]. by eapply getitem_raises.
Qed.

Lemma split_loop_raises fuel : ∀ n size cumsum part_index i splits e,
  split_loop fuel n size cumsum part_index i splits = Some (Raise e) →
  e = OutOfBounds.
Proof.
  induction fuel as [|fuel IH]; intros n size cumsum part_index i splits e H;
    [done|].
  cbn [split_loop] in H. destruct (part_index <? n); [|done].
  destruct (getitem cumsum i) as [c|e'] eqn:Hg.
  - destruct (_ <=? c).
    + destruct (setitem splits part_index i) as [splits'|e'] eqn:Hs.
      * by eapply IH.
      * injection H as <-. by eapply setitem_raises.
    + by eapply IH.
  - injection H as <-. by eapply getitem_raises.
Qed.

(** The failures of [partition_cells]. *)
Lemma partition_cells_failure (fuel : nat) (uninit : nat → nat → Z) (n : Z)
    (cells_count neigh_cells : list Z) (e : exn) :
  n < int64_max →
  partition_cells fuel uninit n cells_count neigh_cells = Some (Raise e) →
  (n ≤ 0 ∧ e = AssertionError) ∨ (0 < n ∧ e = OutOfBounds).
Proof.
  intros Hn H. unfold partition_cells in H.
  destruct (Z.ltb_spec 0 n) as [Hpos|Hneg]; cbn [negb] in H.
  2:{ left. split; [done|]. by injection H as <-. }
  right. split; [done|].
  destruct (foldM _ (enumerate cells_count) _) as [[total cumsum]|e'] eqn:Hf.
  - pose proof int64_min_eq. pose proof int64_max_eq.
    rewrite (wrap64_id (n + 1)) in H by lia.
    unfold np_empty in H. destruct (Z.ltb_spec (n + 1) 0); [lia|].
    simpl_result.
    destruct (setitem _ 0 0) as [s0|e0] eqn:Hs0.
    2:{ injection H as <-. by eapply setitem_raises. }
    destruct (setitem s0 (-1) _) as [s1|e1] eqn:Hs1.
    2:{ injection H as <-. by eapply setitem_raises. }
    by eapply split_loop_raises.
  - injection H as <-.
    eapply (foldM_raises (fun e => e = OutOfBounds)); [|exact Hf].
    intros s x e. apply add_interactions_raises.
Qed.

(** X23. The errors of [partition_cells]: the assertion fails exactly for
    [n <= 0]; every other failure is an access outside an array. *)
Theorem partition_cells_errors (fuel : nat) (uninit : nat → nat → Z) (n : Z)
    (cells_count neigh_cells : list Z) (e : exn) :
  n < int64_max →
  partition_cells fuel uninit n cells_count neigh_cells = Some (Raise e) →
  (n ≤ 0 ∧ e = AssertionError) ∨ (0 < n ∧ e = OutOfBounds).
Proof. apply partition_cells_failure. Qed.

Lemma partition_cells_errors_witness :
  (3 < int64_max ∧
   partition_cells 2 (fun _ _ => 0) 3 [2] [] = Some (Raise OutOfBounds)) ∧
  ((3 ≤ 0 ∧ OutOfBounds = AssertionError) ∨ (0 < 3 ∧ OutOfBounds = OutOfBounds)).
Proof.
  assert (3 < int64_max) as H1 by reflexivity.
  assert (partition_cells 2 (fun _ _ => 0) 3 [2] [] = Some (Raise OutOfBounds))
    as H2 by (vm_compute; reflexivity).
  split; [by split|].
  exact (partition_cells_errors 2 (fun _ _ => 0) 3 [2] [] OutOfBounds H1 H2).
Defined.

(** ** [partition_cells] on the grid of [add_to_cells] *)



(** ** [partition_cells]: more parts than cells *)

(** The boundaries recorded by the loop grow by one at least: that of the
    part [k] is not below [k - 1]. *)
Lemma recorded_lower_bound (n len part_index i : Z) (splits : list Z) :
  boundaries_upto n len part_index i splits → part_index ≤ n + 1 →
  ∀ (k : nat) b,
    1 ≤ Z.of_nat k < part_index → splits !! k = Some b → Z.of_nat k - 1 ≤ b.
Proof.
  intros (Hl & H0 & Hn & Hk) Hp.
  induction k as [|k IH]; intros b Hkp Hb; [lia|].
  destruct (decide (k = 0%nat)) as [->|Hne].
  - destruct (Hk 1%nat b ltac:(lia) Hb). lia.
  - destruct (lookup_lt_is_Some_2 splits k) as [b0 Hb0]; [lia|].
    pose proof (IH b0 ltac:(lia) Hb0).
    destruct (Hk k b0 ltac:(lia) Hb0) as [_ Hinc].
    pose proof (Hinc (S k) b ltac:(lia) Hb). lia.
Qed.

(** X18. With more parts than cells and one, [partition_cells] cannot
    return without an access outside an array: the [n - 1] boundaries that
    its loop records are cell indices that grow, the last of them is read
    from [interactions_cumsum] at an index past its end.  The embedding ends
    the run there, within one round per cell and one more. *)
Theorem partition_cells_too_many_parts (k : nat) (uninit : nat → nat → Z)
    (n : Z) (cells_count neigh_cells : list Z) :
  Z.of_nat (length cells_count) + 1 < n → n < int64_max →
  partition_cells (S (length cells_count) + k) uninit n cells_count neigh_cells
  = Some (Raise OutOfBounds).
Proof.
  intros Hmany Hn.
  destruct (partition_cells_ends k uninit n cells_count neigh_cells)
    as [outcome Hout]; [lia|].
  rewrite Hout. destruct outcome as [splits|e].
  - exfalso.
    assert (n ≤ int64_max) as Hn' by lia.
    assert (Z.of_nat (length cells_count) ≤ int64_max) as Hlen by lia.
    destruct (partition_cells_recorded _ _ _ _ _ _ Hn' Hlen Hout)
      as (Hpos & i & Hi & Hinv).
    pose proof Hinv as (Hl & _ & _ & Hk).
    destruct (lookup_lt_is_Some_2 splits (Z.to_nat (n - 1))) as [b Hb]; [lia|].
    assert (1 ≤ Z.of_nat (Z.to_nat (n - 1)) < n) as Hlast by lia.
    destruct (Hk _ b Hlast Hb) as [Hbi _].
    assert (n ≤ n + 1) as Hle by lia.
    pose proof (recorded_lower_bound _ _ _ _ _ Hinv Hle _ b Hlast Hb).
    lia.
  - destruct (partition_cells_failure _ _ _ _ _ _ Hn Hout) as [[? _]|[_ ->]];
      [lia | done].
Qed.

Lemma partition_cells_too_many_parts_witness :
  (Z.of_nat (length [2]) + 1 < 3 ∧ 3 < int64_max) ∧
  partition_cells (S (length [2]) + 0) (fun _ _ => 0) 3 [2] []
  = Some (Raise OutOfBounds).
Proof.
  assert (Z.of_nat (length [2]) + 1 < 3) as H1 by reflexivity.
  assert (3 < int64_max) as H2 by reflexivity.
  split; [by split|].
  exact (partition_cells_too_many_parts 0 (fun _ _ => 0) 3 [2] [] H1 H2).
Defined.
